(** * Positional encoder forward pass (dev/cuda/positional_forward.cu)

    A shallow embedding of the CPU reference [encoder_forward_cpu], the two
    CUDA kernels [encoder_forward_kernel1] and [encoder_forward_kernel2],
    their launchers, the dispatcher [encoder_forward] and [main].

    - A C [int] is an integer of [Z], reduced to 32 bits two's complement
      after every arithmetic operation ([Int32.wrap]): signed overflow, which
      C leaves undefined, wraps as it does on the hardware. [/] and [%]
      truncate towards zero and have no result for a zero divisor.
    - A buffer ([float*], [int*]) is a list. An access outside the list is a
      fault. An offset is computed as the source computes it: the [int]
      sub-expressions wrap, the pointer additions do not.
    - Code that touches memory runs in the monad [M]: the output buffer is
      threaded through and every access is logged.
    - The element type [F] ([float]) and its addition are parameters; the
      instance used for concrete runs is IEEE-754 binary32 ([f32_add]). Where
      the host and the device add differently, their outputs are as close as
      their additions ([kernel2_close_to_cpu], [kernel1_close_to_cpu]).
    - A kernel launch runs the kernel body once for every thread of every
      block, one thread after the other; any other order gives the same
      output ([kernel2_any_order], [kernel1_any_order]). The limits a device
      puts on a launch configuration are not part of the model.
    - The process ([main], the dispatcher, the launchers) runs in the monad
      [proc]: a log of events and the way the process went on. What common.h
      provides is modelled from the specification or taken as a parameter.

    The file has the definitions first, then the lemmas on which the
    properties C1 to C10 rest and these properties, and last further
    properties of the code, X1 to X18: what the reference and the kernels do
    to [out] and which accesses they make, what happens at the edges (empty
    tensors, a token outside the vocabulary, a thread index beyond [int], a
    launch that is too small), and what a whole run of [main] shows. *)

From Stdlib Require Import ZArith Lia.
From Stdlib Require Import Floats.SpecFloat.
From Stdlib Require Import Strings.Ascii Strings.String.
From stdpp Require Import base tactics option list list_numbers strings pretty.

Local Open Scope Z_scope.

(** ** 32-bit [int] arithmetic *)

Module Int32.

Definition INT_MAX : Z := 2147483647.
Definition INT_MIN : Z := -2147483648.

Definition in_range (z : Z) : Prop := INT_MIN <= z <= INT_MAX.

(** Reduction to the representable range, two's complement. *)
Definition wrap (z : Z) : Z := (z + 2147483648) mod 4294967296 - 2147483648.

Definition add (a b : Z) : Z := wrap (a + b).
Definition mul (a b : Z) : Z := wrap (a * b).

(** [a / b] and [a % b] of C: truncation towards zero; a zero divisor and
    [INT_MIN / -1] have no result. *)
Definition div (a b : Z) : option Z :=
  if (b =? 0) || ((a =? INT_MIN) && (b =? -1)) then None else Some (Z.quot a b).
Definition rem (a b : Z) : option Z :=
  if (b =? 0) || ((a =? INT_MIN) && (b =? -1)) then None else Some (Z.rem a b).

(** [unsigned int] arithmetic ([blockIdx.x], [blockDim.x] and [threadIdx.x]
    are unsigned) and the conversion of an unsigned value to [int]. *)
Definition uwrap (z : Z) : Z := z mod 4294967296.
Definition of_unsigned (u : Z) : Z := wrap u.

End Int32.

(** ** Buffers *)

(** [buf[i]] read. *)
Definition load {A : Type} (buf : list A) (i : Z) : option A :=
  if 0 <=? i then buf !! Z.to_nat i else None.

(** [buf[i] = x]. *)
Definition store {A : Type} (buf : list A) (i : Z) (x : A) : option (list A) :=
  if (0 <=? i) && (i <? Z.of_nat (length buf))
  then Some (<[Z.to_nat i := x]> buf) else None.

(** The four buffers of a call, and an access to one of them at an offset
    counted in elements. *)
Inductive region : Set := Out | Inp | Wte | Wpe.

Inductive access : Set :=
| Read (r : region) (off : Z)
| Write (r : region) (off : Z).

(** What a computation changes: the contents of [out], and the log of the
    accesses made so far, oldest first. *)
Record memory (F : Type) : Type := Memory { m_out : list F; m_log : list access }.
Arguments Memory {F} _ _.
Arguments m_out {F} _.
Arguments m_log {F} _.

(** A computation on the memory that faults ([None]) or returns a value. *)
Definition M (F A : Type) : Type := memory F → option (A * memory F).

Definition M_ret {F A : Type} (a : A) : M F A := λ m, Some (a, m).

Definition M_bind {F A B : Type} (c : M F A) (k : A → M F B) : M F B :=
  λ m, match c m with
       | Some (a, m') => k a m'
       | None => None
       end.

Declare Scope M_scope.
Delimit Scope M_scope with M.
Notation "x <- c ;; k" := (M_bind c (λ x, k))
  (at level 100, c at next level, right associativity) : M_scope.
Notation "c ;; k" := (M_bind c (λ _, k))
  (at level 100, right associativity) : M_scope.
Local Open Scope M_scope.

(** A partial arithmetic operation inside a computation. *)
Definition M_lift {F A : Type} (o : option A) : M F A :=
  λ m, match o with Some a => Some (a, m) | None => None end.

(** Read [buf[i]], [buf] being one of the read-only buffers. *)
Definition read {F A : Type} (r : region) (buf : list A) (i : Z) : M F A :=
  λ m, match load buf i with
       | Some x => Some (x, Memory (m_out m) (m_log m ++ [Read r i]))
       | None => None
       end.

(** [out[i] = x]. *)
Definition write {F : Type} (i : Z) (x : F) : M F unit :=
  λ m, match store (m_out m) i x with
       | Some out' => Some ((), Memory out' (m_log m ++ [Write Out i]))
       | None => None
       end.

(** [for (int i = lo; i < lo + n; i++) body]. The counter stays below the
    bound, an [int], so [i++] never wraps. *)
Fixpoint for_loop {F : Type} (n : nat) (i : Z) (body : Z → M F unit) : M F unit :=
  match n with
  | O => M_ret ()
  | S n' => body i ;; for_loop n' (i + 1) body
  end.

(** ** The reference and the kernels *)

(** [int idx = blockIdx.x * blockDim.x + threadIdx.x;] *)
Definition thread_idx (blockIdx blockDim threadIdx : Z) : Z :=
  Int32.of_unsigned (Int32.uwrap (Int32.uwrap (blockIdx * blockDim) + threadIdx)).

Section Encoder.

Context {F : Type}.

(** The addition of two [float]. *)
Variable fadd : F → F → F.

Variables (inp : list Z) (wte wpe : list F).

(** Lines 23-37. *)
Definition encoder_forward_cpu (B T C : Z) : M F unit :=
  for_loop (Z.to_nat B) 0 (λ b,
    for_loop (Z.to_nat T) 0 (λ t,
      let out_bt := Int32.mul (Int32.mul b T) C + Int32.mul t C in
      ix <- read Inp inp (Int32.add (Int32.mul b T) t);;
      let wte_ix := Int32.mul ix C in
      let wpe_t := Int32.mul t C in
      for_loop (Z.to_nat C) 0 (λ i,
        x <- read Wte wte (wte_ix + i);;
        y <- read Wpe wpe (wpe_t + i);;
        write (out_bt + i) (fadd x y)))).

(** Lines 43-60. *)
Definition encoder_forward_kernel1 (blockIdx blockDim threadIdx : Z)
    (B T C : Z) : M F unit :=
  let idx := thread_idx blockIdx blockDim threadIdx in
  let N := Int32.mul B T in
  if idx <? N then
    b <- M_lift (Int32.div idx T);;
    t <- M_lift (Int32.rem idx T);;
    let out_bt := Int32.mul (Int32.mul b T) C + Int32.mul t C in
    ix <- read Inp inp (Int32.add (Int32.mul b T) t);;
    let wte_ix := Int32.mul ix C in
    let wpe_t := Int32.mul t C in
    for_loop (Z.to_nat C) 0 (λ i,
      x <- read Wte wte (wte_ix + i);;
      y <- read Wpe wpe (wpe_t + i);;
      write (out_bt + i) (fadd x y))
  else M_ret ().

(** Lines 63-82. *)
Definition encoder_forward_kernel2 (blockIdx blockDim threadIdx : Z)
    (B T C : Z) : M F unit :=
  let idx := thread_idx blockIdx blockDim threadIdx in
  let N := Int32.mul (Int32.mul B T) C in
  if idx <? N then
    bt <- M_lift (Int32.div idx C);;
    b <- M_lift (Int32.div bt T);;
    t <- M_lift (Int32.rem bt T);;
    c <- M_lift (Int32.rem idx C);;
    ix <- read Inp inp (Int32.add (Int32.mul b T) t);;
    let out_btc := Int32.mul (Int32.mul b T) C + Int32.mul t C + c in
    let wte_ix := Int32.mul ix C + c in
    let wpe_tc := Int32.mul t C + c in
    x <- read Wte wte wte_ix;;
    y <- read Wpe wpe wpe_tc;;
    write out_btc (fadd x y)
  else M_ret ().

End Encoder.

(** Lines 70-73 on their own: the triple [(b, t, c)] a thread of the second
    kernel derives from its [idx]. *)
Definition kernel2_coords (idx T C : Z) : option (Z * Z * Z) :=
  bt ← Int32.div idx C;
  b ← Int32.div bt T;
  t ← Int32.rem bt T;
  c ← Int32.rem idx C;
  Some (b, t, c).

(** Line 77 on its own: the offset of [out] the thread writes. *)
Definition kernel2_out_offset (b t c T C : Z) : Z :=
  Int32.mul (Int32.mul b T) C + Int32.mul t C + c.

(** Lines 50-51 on their own: the pair [(b, t)] a thread of the first kernel
    derives from its [idx]. *)
Definition kernel1_coords (idx T : Z) : option (Z * Z) :=
  b ← Int32.div idx T;
  t ← Int32.rem idx T;
  Some (b, t).

(** Line 52 on its own: the offset of [out] at which the thread's row starts. *)
Definition kernel1_row_offset (b t T C : Z) : Z :=
  Int32.mul (Int32.mul b T) C + Int32.mul t C.

(** [kernel<<<grid_size, block_size>>>(...)]: every thread of every block
    runs the kernel body; here block after block, thread after thread. The
    threads read buffers that none of them writes and write offsets of
    [out] that no other thread touches, see [kernel2_any_order]. *)
Definition launch {F : Type} (grid_size block_size : Z)
    (kernel : Z → Z → Z → M F unit) : M F unit :=
  for_loop (Z.to_nat grid_size) 0 (λ blockIdx,
    for_loop (Z.to_nat block_size) 0 (λ threadIdx,
      kernel blockIdx block_size threadIdx)).

(** The same threads run one after the other in any given order. *)
Fixpoint run_threads {F : Type} (threads : list (Z * Z)) (block_size : Z)
    (kernel : Z → Z → Z → M F unit) : M F unit :=
  match threads with
  | [] => M_ret ()
  | (blockIdx, threadIdx) :: rest =>
      kernel blockIdx block_size threadIdx ;; run_threads rest block_size kernel
  end.

(** The threads of a launch, as (blockIdx, threadIdx), in the order in which
    [launch] runs them. *)
Definition all_threads (grid_size block_size : Z) : list (Z * Z) :=
  blockIdx ← seqZ 0 grid_size;
  threadIdx ← seqZ 0 block_size;
  [(blockIdx, threadIdx)].

(** The contents of [out] after a computation started on [out] with an empty
    log. *)
Definition run_out {F A : Type} (c : M F A) (out : list F) : option (list F) :=
  match c (Memory out []) with
  | Some (_, m) => Some (m_out m)
  | None => None
  end.

(** ** The process: launchers, dispatcher and [main] *)

(** What the process does that can be seen from outside. *)
Inductive event : Set :=
| Stdout (s : string)
| CudaError
| KernelLaunch (kernel_num grid_size block_size : Z)
| Validated (ok : bool)
| Timed (kernel_num block_size : Z) (repeat_times : nat).

(** How a piece of the process ends: it returns, it calls [exit], or the
    host code faults. *)
Inductive outcome (A : Type) : Type :=
| Returned (a : A)
| Exited (status : Z)
| Faulted.
Arguments Returned {A} _.
Arguments Exited {A} _.
Arguments Faulted {A}.

(** A piece of the process: the events it adds, oldest first, and its end. *)
Definition proc (A : Type) : Type := list event * outcome A.

Definition proc_ret {A : Type} (a : A) : proc A := ([], Returned a).

Definition proc_bind {A B : Type} (c : proc A) (k : A → proc B) : proc B :=
  match c with
  | (es, Returned a) => let '(es', r) := k a in (es ++ es', r)
  | (es, Exited status) => (es, Exited status)
  | (es, Faulted) => (es, Faulted)
  end.

Declare Scope proc_scope.
Delimit Scope proc_scope with proc.
Notation "x <- c ;; k" := (proc_bind c (λ x, k))
  (at level 100, c at next level, right associativity) : proc_scope.
Notation "c ;; k" := (proc_bind c (λ _, k))
  (at level 100, right associativity) : proc_scope.

Definition emit (e : event) : proc unit := ([e], Returned ()).
Definition printf (s : string) : proc unit := emit (Stdout s).
Definition exit {A : Type} (status : Z) : proc A := ([], Exited status).

Definition EXIT_FAILURE : Z := 1.

(** The line feed that ends a printed line. *)
Definition nl : string := String (Ascii.ascii_of_nat 10) EmptyString.

(** Modelled from the spec: [ceil_div] of common.h, which is not among the
    sources. The number of partition groups is [ceil(N / block_size)], for a
    positive block size. *)
Definition ceil_div (dividend divisor : Z) : Z := (dividend + divisor - 1) / divisor.

(** Modelled from the spec: [cudaCheck(cudaGetLastError())] of common.h,
    which is not among the sources. A fault of the launch just made ends the
    process with a diagnostic and a non-zero status. *)
Definition cudaCheck {A : Type} (launched : option A) : proc A :=
  match launched with
  | Some a => proc_ret a
  | None => proc_bind (emit CudaError) (λ _, exit EXIT_FAILURE)
  end.

Section Dispatch.

Local Open Scope proc_scope.

Context {F : Type}.
Variable fadd : F → F → F.

(** Lines 87-95. The device buffer [out] is passed in and its new contents
    are returned. *)
Definition encoder_forward1 (out : list F) (inp : list Z) (wte wpe : list F)
    (B T C : Z) (block_size : Z) : proc (list F) :=
  let N := Int32.mul B T in
  let grid_size := ceil_div N block_size in
  emit (KernelLaunch 1 grid_size block_size);;
  cudaCheck (run_out (launch grid_size block_size
    (λ blockIdx blockDim threadIdx,
       encoder_forward_kernel1 fadd inp wte wpe blockIdx blockDim threadIdx B T C)) out).

(** Lines 97-105. *)
Definition encoder_forward2 (out : list F) (inp : list Z) (wte wpe : list F)
    (B T C : Z) (block_size : Z) : proc (list F) :=
  let N := Int32.mul (Int32.mul B T) C in
  let grid_size := ceil_div N block_size in
  emit (KernelLaunch 2 grid_size block_size);;
  cudaCheck (run_out (launch grid_size block_size
    (λ blockIdx blockDim threadIdx,
       encoder_forward_kernel2 fadd inp wte wpe blockIdx blockDim threadIdx B T C)) out).

(** Lines 108-124. *)
Definition encoder_forward (kernel_num : Z) (out : list F) (inp : list Z)
    (wte wpe : list F) (B T C : Z) (block_size : Z) : proc (list F) :=
  match kernel_num with
  | 1 => encoder_forward1 out inp wte wpe B T C block_size
  | 2 => encoder_forward2 out inp wte wpe B T C block_size
  | _ => printf ("Invalid kernel number" +:+ nl);; exit 1
  end.

End Dispatch.

(** [atoi] of the C library: white space is skipped, then an optional sign
    and the longest run of decimal digits are read; without a digit the
    result is 0. A value outside [int] is reduced to 32 bits. *)
Definition isspace (c : ascii) : bool :=
  let n := Ascii.nat_of_ascii c in
  Nat.eqb n 32 || (Nat.leb 9 n && Nat.leb n 13).

Definition digit_of (c : ascii) : option Z :=
  let n := Z.of_nat (Ascii.nat_of_ascii c) in
  if (48 <=? n) && (n <=? 57) then Some (n - 48) else None.

Fixpoint skip_space (s : string) : string :=
  match s with
  | String c s' => if isspace c then skip_space s' else s
  | EmptyString => s
  end.

Fixpoint digits (acc : Z) (s : string) : Z :=
  match s with
  | String c s' =>
      match digit_of c with
      | Some d => digits (10 * acc + d) s'
      | None => acc
      end
  | EmptyString => acc
  end.

Definition atoi (s : string) : Z :=
  match skip_space s with
  | String c s' =>
      if Ascii.eqb c "-" then Int32.wrap (- digits 0 s')
      else if Ascii.eqb c "+" then Int32.wrap (digits 0 s')
      else Int32.wrap (digits 0 (String c s'))
  | EmptyString => 0
  end.

(** A string that does not start as a number: after the leading white space
    comes neither a digit nor a sign followed by a digit. *)
Definition non_numeric (s : string) : Prop :=
  match skip_space s with
  | String c s' =>
      digit_of c = None ∧
      (c = "-"%char ∨ c = "+"%char →
       match s' with
       | String d _ => digit_of d = None
       | EmptyString => True
       end)
  | EmptyString => True
  end.

(** A string of white space only, and a string that does not go on with a
    digit. *)
Fixpoint all_space (s : string) : bool :=
  match s with
  | String c s' => isspace c && all_space s'
  | EmptyString => true
  end.

Definition no_leading_digit (s : string) : Prop :=
  match s with
  | String d _ => digit_of d = None
  | EmptyString => True
  end.

(** [long memory_ops = B * T * C * 4 * 4;] the product is computed in [int]
    and then widened. *)
Definition memory_ops (B T C : Z) : Z :=
  Int32.mul (Int32.mul (Int32.mul (Int32.mul B T) C) 4) 4.

(** [int block_sizes[] = {32, 64, 128, 256, 512, 1024};] *)
Definition block_sizes : list Z := [32; 64; 128; 256; 512; 1024].

Section Main.

Local Open Scope proc_scope.

Context {F : Type}.
Variable fadd : F → F → F.

(** What [main] takes from outside the sources: the generators of
    common.h, the contents of freshly allocated host and device memory, the
    comparison [fabs(a - b) <= 1e-5f], the time the clock measured for a
    block size, the floating-point quotient [memory_ops / elapsed_time / 1e6]
    and the formatting of a report line. *)
Variable make_random_int : Z → Z → list Z.
Variable make_random_float : Z → list F.
Variable malloc_float : Z → list F.
Variable cudaMalloc_float : Z → list F.
Variable within_tolerance : F → F → bool.
Variable elapsed : Z → F.
Variable bandwidth : Z → F → F.
Variable report : Z → F → F → string.

(** Modelled from the spec: [validate_result] of common.h, which is not
    among the sources. The two buffers are compared element by element within
    the tolerance; a violation is reported and ends the process with
    status 1. *)
Definition validate_result (device_result cpu_reference : list F) : proc unit :=
  let ok := bool_decide (length device_result = length cpu_reference)
            && forallb (λ p, within_tolerance (fst p) (snd p))
                 (zip device_result cpu_reference) in
  emit (Validated ok);;
  if ok then proc_ret () else exit EXIT_FAILURE.

(** Modelled from the spec: [benchmark_kernel] of common.h, which is not
    among the sources. The operation is invoked [repeat_times] times back to
    back, and the average time per call, which the clock gives, is returned. *)
Fixpoint repeat_kernel (n : nat) (kernel : list F → proc (list F)) (d_out : list F)
  : proc (list F) :=
  match n with
  | O => proc_ret d_out
  | S n' => d_out' <- kernel d_out;; repeat_kernel n' kernel d_out'
  end.

Definition benchmark_kernel (repeat_times : nat) (kernel_num : Z)
    (kernel : list F → proc (list F)) (d_out : list F) (block_size : Z)
  : proc (F * list F) :=
  emit (Timed kernel_num block_size repeat_times);;
  d_out' <- repeat_kernel repeat_times kernel d_out;;
  proc_ret (elapsed block_size, d_out').

(** The body of the loop of lines 173-188, for one block size. *)
Definition benchmark_step (kernel_num : Z) (inp : list Z) (wte wpe : list F)
    (B T C : Z) (d_out : list F) (block_size : Z) : proc (list F) :=
  let repeat_times := 1000%nat in
  r <- benchmark_kernel repeat_times kernel_num
         (λ d_out, encoder_forward fadd kernel_num d_out inp wte wpe B T C block_size)
         d_out block_size;;
  let elapsed_time := fst r in
  let memory_ops := memory_ops B T C in
  let memory_bandwidth := bandwidth memory_ops elapsed_time in
  printf (report block_size elapsed_time memory_bandwidth);;
  proc_ret (snd r).

(** [for (int j = 0; j < sizeof(block_sizes) / sizeof(int); j++)] *)
Fixpoint benchmark_loop (kernel_num : Z) (inp : list Z) (wte wpe : list F)
    (B T C : Z) (d_out : list F) (sizes : list Z) : proc (list F) :=
  match sizes with
  | [] => proc_ret d_out
  | block_size :: sizes' =>
      d_out' <- benchmark_step kernel_num inp wte wpe B T C d_out block_size;;
      benchmark_loop kernel_num inp wte wpe B T C d_out' sizes'
  end.

(** Host code that touches memory: a fault ends the process. *)
Definition host {A : Type} (r : option A) : proc A :=
  match r with
  | Some a => proc_ret a
  | None => ([], Faulted)
  end.

(** Lines 128-201, the dimensions as parameters. [argv] holds the program
    name and the arguments, so [argc] is its length. The device calls before
    the dispatch (cudaSetDevice, cudaMalloc, cudaMemcpy) are taken to
    succeed; the device copies of [inp], [wte] and [wpe] have the contents of
    the host buffers. *)
Definition main_with (B T C V : Z) (argv : list string) : proc Z :=
  let out := malloc_float (Int32.mul (Int32.mul B T) C) in
  let inp := make_random_int (Int32.mul B T) V in
  let wte := make_random_float (Int32.mul V C) in
  let wpe := make_random_float (Int32.mul T C) in
  let d_out := cudaMalloc_float (Int32.mul (Int32.mul B T) C) in
  let kernel_num :=
    match argv with
    | _ :: arg :: _ => atoi arg
    | _ => 2
    end in
  printf ("Using kernel " +:+ pretty kernel_num +:+ nl);;
  out <- host (run_out (encoder_forward_cpu fadd inp wte wpe B T C) out);;
  d_out <- encoder_forward fadd kernel_num d_out inp wte wpe B T C 256;;
  validate_result d_out out;;
  benchmark_loop kernel_num inp wte wpe B T C d_out block_sizes;;
  proc_ret 0.

(** [int B = 8; int T = 1024; int C = 768; int V = 50257;] *)
Definition main (argv : list string) : proc Z := main_with 8 1024 768 50257 argv.

End Main.

(** ** IEEE-754 binary32 *)

(** Addition rounded to nearest even, and the float of a small integer. *)
Definition f32_add : spec_float → spec_float → spec_float := SFadd 24 128.
Definition f32_of_Z (z : Z) : spec_float := binary_normalize 24 128 z 0 false.

(** The concrete scenario of the specification: B = T = C = 2, V = 3. *)
Definition ex_inp : list Z := [0; 1; 2; 0].
Definition ex_wte : list spec_float := f32_of_Z <$> [1; 1; 2; 2; 3; 3].
Definition ex_wpe : list spec_float := f32_of_Z <$> [10; 10; 20; 20].
Definition ex_out0 : list spec_float := replicate 8 S754_nan.
Definition ex_expected : list spec_float :=
  f32_of_Z <$> [11; 11; 22; 22; 13; 13; 21; 21].

(** ** The vocabulary of the properties *)

(** The dimensions are at least 1 and every tensor can be addressed with an
    [int] offset. *)
Definition valid_dims (B T C V : Z) : Prop :=
  1 <= B ∧ 1 <= T ∧ 1 <= C ∧ B * T * C <= Int32.INT_MAX ∧ V * C <= Int32.INT_MAX.

(** [out], [inp], [wte] and [wpe] have the shapes (B,T,C), (B,T), (V,C) and
    (T,C), flattened. *)
Definition shaped {F : Type} (out : list F) (inp : list Z) (wte wpe : list F)
    (B T C V : Z) : Prop :=
  Z.of_nat (length out) = B * T * C ∧ Z.of_nat (length inp) = B * T ∧
  Z.of_nat (length wte) = V * C ∧ Z.of_nat (length wpe) = T * C.

(** Every token index lies in [[0, V)]. *)
Definition tokens_in_range (inp : list Z) (V : Z) : Prop :=
  Forall (λ ix, 0 <= ix < V) inp.

(** [wte[inp[b,t], c] + wpe[t, c]] under row-major addressing. *)
Definition embedding {F : Type} (fadd : F → F → F) (inp : list Z) (wte wpe : list F)
    (T C : Z) (b t c : Z) : option F :=
  ix ← load inp (b * T + t);
  x ← load wte (ix * C + c);
  y ← load wpe (t * C + c);
  Some (fadd x y).

(** The same for the flattened offset [j = b*T*C + t*C + c] of [out]. *)
Definition embedding_at {F : Type} (fadd : F → F → F) (inp : list Z) (wte wpe : list F)
    (T C : Z) (j : Z) : option F :=
  embedding fadd inp wte wpe T C (j / C / T) ((j / C) mod T) (j mod C).

(** An access falls inside its buffer. *)
Definition in_bounds (out_len inp_len wte_len wpe_len : Z) (a : access) : Prop :=
  let len r := match r with
               | Out => out_len | Inp => inp_len | Wte => wte_len | Wpe => wpe_len
               end in
  match a with
  | Read r off => 0 <= off < len r
  | Write r off => 0 <= off < len r
  end.

(** A block size for [N] workers: positive, and the indices of the threads
    launched, [0] to [ceil_div N block_size * block_size - 1], fit in [int]. *)
Definition block_size_ok (N block_size : Z) : Prop :=
  1 <= block_size ∧ ceil_div N block_size * block_size <= 2147483648.

(** The offsets of [out] written, in the order of the log. *)
Definition writes (log : list access) : list Z :=
  omap (λ a, match a with Write Out off => Some off | _ => None end) log.

(** Where a computation started from the memory [Memory out0 log0] stands:
    the offsets in [[lo, hi)] of [out] hold the embedding, the others what
    [out0] holds there; no access made since left its buffer, and the writes
    made since went to [lo], [lo + 1], ..., [hi - 1], once each and in this
    order. *)
Definition filled {F : Type} (fadd : F → F → F) (inp : list Z) (wte wpe : list F)
    (B T C V : Z) (out0 : list F) (log0 : list access) (lo hi : Z) (m : memory F)
  : Prop :=
  length (m_out m) = length out0 ∧
  (∀ j, lo <= j < hi → load (m_out m) j = embedding_at fadd inp wte wpe T C j) ∧
  (∀ j, ¬ (lo <= j < hi) → load (m_out m) j = load out0 j) ∧
  ∃ log, m_log m = log0 ++ log ∧
         Forall (in_bounds (B * T * C) (B * T) (V * C) (T * C)) log ∧
         writes log = seqZ lo (hi - lo).

(** The thread of index [idx = blockIdx * block_size + threadIdx], out of
    [n] workers that each write [w] consecutive elements, writes the offsets
    [[idx * w, (idx + 1) * w)] when [idx < n], and nothing otherwise. *)
Definition thread_writes (w n block_size : Z) (thread : Z * Z) (j : Z) : Prop :=
  let idx := thread.1 * block_size + thread.2 in
  idx < n ∧ idx * w <= j < (idx + 1) * w.

#[global] Instance thread_writes_dec (w n block_size : Z) (thread : Z * Z) (j : Z) :
  Decision (thread_writes w n block_size thread j).
Proof. unfold thread_writes. apply _. Defined.

(** A thread of a launch whose index fits in [int]. *)
Definition launched (block_size : Z) (thread : Z * Z) : Prop :=
  0 <= thread.1 ∧ 0 <= thread.2 ∧ thread.1 * block_size + thread.2 <= Int32.INT_MAX.

(** ** Total-correctness triples *)

(** From a memory that satisfies [P], [c] does not fault, and its result and
    final memory satisfy [Q]. *)
Definition triple {F A : Type} (P : memory F → Prop) (c : M F A)
    (Q : A → memory F → Prop) : Prop :=
  ∀ m, P m → ∃ a m', c m = Some (a, m') ∧ Q a m'.

(** ** Access traces *)

(** A computation that, whenever it returns, has added exactly [log] to the
    access log. *)
Definition log_effect {F A : Type} (c : M F A) (log : list access) : Prop :=
  ∀ m a m', c m = Some (a, m') → m_log m' = m_log m ++ log.

(** The accesses of lines 29-34 (and 53-58) for the row [r = b*T + t]: the
    token is read, then for every channel the two table elements are read
    and their sum is written. *)
Definition row_accesses (inp : list Z) (T C : Z) (r : Z) : list access :=
  match load inp r with
  | Some ix =>
      Read Inp r ::
      (i ← seqZ 0 C;
       [Read Wte (ix * C + i); Read Wpe (r mod T * C + i); Write Out (r * C + i)])
  | None => []
  end.

(** The accesses of lines 75-80 for the element at offset [j]. *)
Definition element_accesses (inp : list Z) (T C : Z) (j : Z) : list access :=
  match load inp (j / C) with
  | Some ix =>
      [Read Inp (j / C); Read Wte (ix * C + j mod C);
       Read Wpe ((j / C) mod T * C + j mod C); Write Out j]
  | None => []
  end.

(** Every access moves 4 bytes: an [int] or a [float]. *)
Definition bytes_moved (log : list access) : Z := 4 * Z.of_nat (length log).

(** ** The launches of a run *)

(** The number of workers of a variant: one for every row of [out] for the
    first, one for every element for the second. *)
Definition worker_count (kernel_num B T C : Z) : Z :=
  if kernel_num =? 1 then B * T else B * T * C.

(** The launch the dispatcher makes for a block size. *)
Definition launch_event (kernel_num B T C block_size : Z) : event :=
  KernelLaunch kernel_num (ceil_div (worker_count kernel_num B T C) block_size) block_size.

(** What one iteration of the loop of lines 173-188 shows on valid inputs:
    the timing of 1000 invocations, each of which is one launch, and the
    line printed for the block size. *)
Definition benchmark_events {F : Type} (elapsed : Z → F) (bandwidth : Z → F → F)
    (report : Z → F → F → string) (kernel_num B T C block_size : Z) : list event :=
  Timed kernel_num block_size 1000 ::
  replicate 1000 (launch_event kernel_num B T C block_size) ++
  [Stdout (report block_size (elapsed block_size)
             (bandwidth (memory_ops B T C) (elapsed block_size)))].

(** ** Concrete inputs *)

(** A device buffer for the scenario above, zeroed. *)
Definition ex_d_out0 : list spec_float := replicate 8 (S754_zero false).

(** A vocabulary of 2^30 + 1 tokens with two channels: the token table has
    2^31 + 2 elements, and the last token's row starts at offset 2^31. *)
Definition big_V : Z := 1073741825.
Definition big_wte : list spec_float := replicate (Z.to_nat (big_V * 2)) (f32_of_Z 1).
Definition big_inp : list Z := [1073741824].
Definition big_wpe : list spec_float := [f32_of_Z 10; f32_of_Z 10].
Definition big_out0 : list spec_float := [S754_nan; S754_nan].

(** One batch, one position and 2^31 - 1 channels: B*T*C is INT_MAX. *)
Definition huge_C : Z := 2147483647.
Definition huge_inp : list Z := [0].
Definition huge_wte : list spec_float := replicate (Z.to_nat huge_C) (f32_of_Z 1).
Definition huge_wpe : list spec_float := replicate (Z.to_nat huge_C) (f32_of_Z 10).
Definition huge_out : list spec_float := replicate (Z.to_nat huge_C) S754_nan.

(** One batch, one position, two channels and a vocabulary of 3 tokens, with
    the token index 3, which is outside the vocabulary. *)
Definition bad_inp : list Z := [3].

(** Generators to run [main] with: every token is the last of the
    vocabulary, every float is 1, fresh memory holds NaN. *)
Definition last_token_inp (N V : Z) : list Z := replicate (Z.to_nat N) (V - 1).
Definition constant_floats (N : Z) : list spec_float := replicate (Z.to_nat N) (f32_of_Z 1).
Definition nan_floats (N : Z) : list spec_float := replicate (Z.to_nat N) S754_nan.

(** ** Arithmetic of [int] *)

Module Int32Facts.

Import Int32.

Lemma wrap_in_range (z : Z) : in_range z → wrap z = z.
Proof.
  unfold in_range, wrap, INT_MIN, INT_MAX. intros Hz.
  rewrite Z.mod_small by lia. lia.
Qed.

Lemma wrap_range (z : Z) : in_range (wrap z).
Proof.
  unfold in_range, wrap, INT_MIN, INT_MAX.
  pose proof (Z.mod_pos_bound (z + 2147483648) 4294967296). lia.
Qed.

Lemma mul_exact (a b : Z) : in_range (a * b) → mul a b = a * b.
Proof. apply wrap_in_range. Qed.

Lemma add_exact (a b : Z) : in_range (a + b) → add a b = a + b.
Proof. apply wrap_in_range. Qed.

Lemma div_nonneg (a b : Z) : 0 <= a → 0 < b → div a b = Some (a / b).
Proof.
  intros Ha Hb. unfold div.
  replace (b =? 0) with false by (symmetry; apply Z.eqb_neq; lia).
  replace (b =? -1) with false by (symmetry; apply Z.eqb_neq; lia).
  rewrite andb_false_r. simpl. by rewrite Z.quot_div_nonneg.
Qed.

Lemma rem_nonneg (a b : Z) : 0 <= a → 0 < b → rem a b = Some (a mod b).
Proof.
  intros Ha Hb. unfold rem.
  replace (b =? 0) with false by (symmetry; apply Z.eqb_neq; lia).
  replace (b =? -1) with false by (symmetry; apply Z.eqb_neq; lia).
  rewrite andb_false_r. simpl. by rewrite Z.rem_mod_nonneg.
Qed.

(** A product wraps to a value that is not above it, when it is not
    negative. *)
Lemma wrap_le (z : Z) : 0 <= z → wrap z <= z.
Proof.
  intros Hz. unfold wrap.
  pose proof (Z.mod_le (z + 2147483648) 4294967296). lia.
Qed.

End Int32Facts.

(** The thread index is [blockIdx * blockDim + threadIdx] as long as that
    fits in an [int]. *)
Lemma thread_idx_exact (blockIdx blockDim threadIdx : Z) :
  0 <= blockIdx → 0 <= blockDim → 0 <= threadIdx →
  blockIdx * blockDim + threadIdx <= Int32.INT_MAX →
  thread_idx blockIdx blockDim threadIdx = blockIdx * blockDim + threadIdx.
Proof.
  intros Hb Hd Ht Hle. unfold thread_idx, Int32.of_unsigned, Int32.uwrap.
  unfold Int32.INT_MAX in Hle.
  assert (0 <= blockIdx * blockDim) by nia.
  rewrite (Z.mod_small (blockIdx * blockDim)) by lia.
  rewrite Z.mod_small by lia.
  apply Int32Facts.wrap_in_range. unfold Int32.in_range, Int32.INT_MIN, Int32.INT_MAX. lia.
Qed.

(** ** Buffers *)

Section Buffers.

Context {A : Type}.
Implicit Types (buf : list A) (i j : Z) (x : A).

Lemma load_Some_range buf i x : load buf i = Some x → 0 <= i < Z.of_nat (length buf).
Proof.
  unfold load. destruct (Z.leb_spec 0 i) as [Hi|Hi]; [|done].
  intros Hl. apply lookup_lt_Some in Hl. lia.
Qed.

Lemma load_in_range buf i : 0 <= i < Z.of_nat (length buf) → is_Some (load buf i).
Proof.
  intros Hi. unfold load. destruct (Z.leb_spec 0 i); [|lia].
  apply lookup_lt_is_Some. lia.
Qed.

Lemma store_in_range buf i x :
  0 <= i < Z.of_nat (length buf) → store buf i x = Some (<[Z.to_nat i := x]> buf).
Proof.
  intros Hi. unfold store.
  destruct (Z.leb_spec 0 i); [|lia]. destruct (Z.ltb_spec i (Z.of_nat (length buf))); [done|lia].
Qed.

Lemma load_insert_eq buf i x :
  0 <= i < Z.of_nat (length buf) → load (<[Z.to_nat i := x]> buf) i = Some x.
Proof.
  intros Hi. unfold load. destruct (Z.leb_spec 0 i); [|lia].
  apply list_lookup_insert_eq. lia.
Qed.

Lemma load_insert_ne buf i j x :
  0 <= i → i ≠ j → load (<[Z.to_nat i := x]> buf) j = load buf j.
Proof.
  intros Hi Hne. unfold load. destruct (Z.leb_spec 0 j); [|done].
  apply list_lookup_insert_ne. lia.
Qed.

(** Two buffers of one length with the same contents are the same buffer. *)
Lemma load_ext buf buf' :
  length buf = length buf' →
  (∀ j, 0 <= j < Z.of_nat (length buf) → load buf j = load buf' j) → buf = buf'.
Proof.
  intros Hlen Hj. apply list_eq. intros n.
  destruct (decide (n < length buf)%nat) as [Hn|Hn].
  - specialize (Hj (Z.of_nat n)). unfold load in Hj.
    destruct (Z.leb_spec 0 (Z.of_nat n)); [|lia].
    rewrite Nat2Z.id in Hj. apply Hj. lia.
  - rewrite !lookup_ge_None_2; [done|lia|lia].
Qed.

End Buffers.

(** ** Rules for the triples *)

Section Triples.

Context {F : Type}.
Implicit Types (P : memory F → Prop) (m : memory F).

Lemma triple_ret {A} P (a : A) (Q : A → memory F → Prop) :
  (∀ m, P m → Q a m) → triple P (M_ret a) Q.
Proof. intros H m Hm. exists a, m. split; [done|auto]. Qed.

Lemma triple_bind {A B} P (c : M F A) (k : A → M F B) (R : A → memory F → Prop)
    (Q : B → memory F → Prop) :
  triple P c R → (∀ a, triple (R a) (k a) Q) → triple P (M_bind c k) Q.
Proof.
  intros Hc Hk m Hm. destruct (Hc m Hm) as (a & m' & E & HR).
  destruct (Hk a m' HR) as (b & m'' & E' & HQ).
  exists b, m''. unfold M_bind. rewrite E. done.
Qed.

Lemma triple_weaken {A} P P' (c : M F A) (Q Q' : A → memory F → Prop) :
  triple P' c Q' → (∀ m, P m → P' m) → (∀ a m, Q' a m → Q a m) → triple P c Q.
Proof.
  intros Hc HP HQ m Hm. destruct (Hc m (HP m Hm)) as (a & m' & E & H').
  exists a, m'. auto.
Qed.

Lemma triple_read {A} P (r : region) (buf : list A) (i : Z) (x : A)
    (Q : A → memory F → Prop) :
  load buf i = Some x →
  (∀ m, P m → Q x (Memory (m_out m) (m_log m ++ [Read r i]))) →
  triple P (read r buf i) Q.
Proof.
  intros E H m Hm. exists x, (Memory (m_out m) (m_log m ++ [Read r i])).
  unfold read. rewrite E. auto.
Qed.

Lemma triple_write P (i : Z) (x : F) (Q : unit → memory F → Prop) :
  (∀ m, P m → 0 <= i < Z.of_nat (length (m_out m)) ∧
     Q () (Memory (<[Z.to_nat i := x]> (m_out m)) (m_log m ++ [Write Out i]))) →
  triple P (write i x) Q.
Proof.
  intros H m Hm. destruct (H m Hm) as [Hi HQ].
  exists (), (Memory (<[Z.to_nat i := x]> (m_out m)) (m_log m ++ [Write Out i])).
  unfold write. rewrite store_in_range by done. auto.
Qed.

(** The loop rule: [I k] holds before iteration [k] and [I (k + 1)] after. *)
Lemma triple_for_loop (I : Z → memory F → Prop) (n : nat) (i : Z)
    (body : Z → M F unit) :
  (∀ k, i <= k < i + Z.of_nat n → triple (I k) (body k) (λ _, I (k + 1))) →
  triple (I i) (for_loop n i body) (λ _, I (i + Z.of_nat n)).
Proof.
  revert i. induction n as [|n IH]; intros i Hbody.
  - simpl. apply triple_ret. intros m Hm. by rewrite Z.add_0_r.
  - simpl. eapply triple_bind.
    + apply Hbody. lia.
    + intros []. eapply triple_weaken.
      * apply (IH (i + 1)). intros k Hk. apply Hbody. lia.
      * auto.
      * intros [] m Hm. by replace (i + Z.of_nat (S n)) with (i + 1 + Z.of_nat n) by lia.
Qed.

(** A loop faults when one of its iterations faults from every memory. *)
Lemma for_loop_fault (n : nat) (i k : Z) (body : Z → M F unit) m :
  i <= k < i + Z.of_nat n → (∀ m', body k m' = None) → for_loop n i body m = None.
Proof.
  revert i m. induction n as [|n IH]; intros i m Hk Hf; [lia|].
  simpl. unfold M_bind. destruct (decide (k = i)) as [->|Hne].
  - by rewrite Hf.
  - destruct (body i m) as [[[] m']|]; [|done]. apply IH; [lia|done].
Qed.

Lemma triple_lift_bind {A B} P (o : option A) (a : A) (k : A → M F B)
    (Q : B → memory F → Prop) :
  o = Some a → triple P (k a) Q → triple P (M_bind (M_lift o) k) Q.
Proof.
  intros E Hk m Hm. destruct (Hk m Hm) as (b & m' & E' & HQ).
  exists b, m'. unfold M_bind, M_lift. rewrite E. done.
Qed.

(** A launch: [I idx] holds before the thread of index
    [idx = blockIdx * block_size + threadIdx] runs and [I (idx + 1)] after. *)
Lemma triple_launch (I : Z → memory F → Prop) (grid_size block_size : Z)
    (kernel : Z → Z → Z → M F unit) :
  0 <= grid_size → 0 <= block_size →
  (∀ blockIdx threadIdx, 0 <= blockIdx < grid_size → 0 <= threadIdx < block_size →
     triple (I (blockIdx * block_size + threadIdx))
       (kernel blockIdx block_size threadIdx)
       (λ _, I (blockIdx * block_size + threadIdx + 1))) →
  triple (I 0) (launch grid_size block_size kernel) (λ _, I (grid_size * block_size)).
Proof.
  intros Hg Hb Hk. unfold launch. eapply triple_weaken.
  - apply (triple_for_loop (λ blk, I (blk * block_size))). intros blk Hblk.
    eapply triple_weaken.
    + apply (triple_for_loop (λ thr, I (blk * block_size + thr))). intros thr Hthr.
      eapply triple_weaken.
      * apply (Hk blk thr); lia.
      * auto.
      * intros [] m Hm. simpl in Hm.
        by replace (blk * block_size + (thr + 1)) with (blk * block_size + thr + 1) by lia.
    + intros m Hm. by rewrite Z.add_0_r.
    + intros [] m Hm. simpl in Hm.
      by replace ((blk + 1) * block_size)
        with (blk * block_size + (0 + Z.of_nat (Z.to_nat block_size))) by lia.
  - auto.
  - intros [] m Hm. simpl in Hm.
    by replace (grid_size * block_size)
      with ((0 + Z.of_nat (Z.to_nat grid_size)) * block_size) by lia.
Qed.

End Triples.

(** ** Row-major offsets *)

Lemma flat_div (r C i : Z) : 0 <= i < C → (r * C + i) / C = r.
Proof. intros Hi. rewrite Z.div_add_l by lia. rewrite Z.div_small by lia. lia. Qed.

Lemma flat_mod (r C i : Z) : 0 <= i < C → (r * C + i) mod C = i.
Proof.
  intros Hi. rewrite Z.add_comm, Z.mod_add by lia. by apply Z.mod_small.
Qed.

Lemma flat_bound (r n C i : Z) : 0 <= r < n → 0 <= i < C → 0 <= r * C + i < n * C.
Proof. intros Hr Hi. nia. Qed.

Lemma row_split (r T : Z) : 0 < T → r / T * T + r mod T = r.
Proof. intros HT. pose proof (Z.div_mod r T). lia. Qed.

Lemma row_bound (r B T : Z) : 0 < T → 0 <= r < B * T → 0 <= r / T < B ∧ 0 <= r mod T < T.
Proof.
  intros HT Hr. pose proof (Z.mod_pos_bound r T HT). split; [|done]. split.
  - apply Z.div_pos; lia.
  - apply Z.div_lt_upper_bound; lia.
Qed.

(** ** Threads beyond the worker count *)

Section Inactive.

Context {F : Type}.
Variable fadd : F → F → F.
Variables (inp : list Z) (wte wpe : list F).

(** The bounds guard of line 49. *)
Lemma kernel1_inactive (blockIdx blockDim threadIdx B T C : Z) (m : memory F) :
  Int32.mul B T <= thread_idx blockIdx blockDim threadIdx →
  encoder_forward_kernel1 fadd inp wte wpe blockIdx blockDim threadIdx B T C m
  = Some ((), m).
Proof.
  intros Hge. unfold encoder_forward_kernel1.
  destruct (Z.ltb_spec (thread_idx blockIdx blockDim threadIdx) (Int32.mul B T)); [lia|done].
Qed.

(** The bounds guard of line 69. *)
Lemma kernel2_inactive (blockIdx blockDim threadIdx B T C : Z) (m : memory F) :
  Int32.mul (Int32.mul B T) C <= thread_idx blockIdx blockDim threadIdx →
  encoder_forward_kernel2 fadd inp wte wpe blockIdx blockDim threadIdx B T C m
  = Some ((), m).
Proof.
  intros Hge. unfold encoder_forward_kernel2.
  destruct (Z.ltb_spec (thread_idx blockIdx blockDim threadIdx)
              (Int32.mul (Int32.mul B T) C)); [lia|done].
Qed.

End Inactive.

(** The worker counts the kernels compute are never above [B * T] and
    [B * T * C]. *)
Lemma worker_count1_le (B T : Z) : 0 <= B → 0 <= T → Int32.mul B T <= B * T.
Proof. intros HB HT. apply Int32Facts.wrap_le. nia. Qed.

Lemma worker_count2_le (B T C : Z) :
  0 <= B → 0 <= T → 0 <= C → Int32.mul (Int32.mul B T) C <= B * T * C.
Proof.
  intros HB HT HC.
  destruct (decide (B * T * C <= Int32.INT_MAX)) as [Hle|Hgt].
  - destruct (decide (C = 0)) as [->|HC0].
    + unfold Int32.mul. rewrite !Z.mul_0_r. by vm_compute.
    + assert (0 <= B * T <= B * T * C) by nia.
      rewrite (Int32Facts.mul_exact B T), Int32Facts.mul_exact;
        unfold Int32.in_range, Int32.INT_MIN, Int32.INT_MAX in *; lia.
  - pose proof (Int32Facts.wrap_range (Int32.mul B T * C)) as [_ Hr].
    unfold Int32.mul at 1. lia.
Qed.

(** ** The reference and the kernels fill [out] with the embedding *)

Section Correct.

Context {F : Type}.
Variable fadd : F → F → F.
Variables (inp : list Z) (wte wpe : list F) (B T C V : Z).
Variables (out0 : list F) (log0 : list access).

Hypothesis Hdims : valid_dims B T C V.
Hypothesis Hshape : shaped out0 inp wte wpe B T C V.
Hypothesis Htok : tokens_in_range inp V.

Abbreviation expected := (embedding_at fadd inp wte wpe T C).
Abbreviation bounded := (in_bounds (B * T * C) (B * T) (V * C) (T * C)).
Abbreviation filled := (filled fadd inp wte wpe B T C V out0 log0).

Lemma token_at (r : Z) :
  0 <= r < B * T → ∃ ix, load inp r = Some ix ∧ 0 <= ix < V.
Proof using Hshape Htok.
  intros Hr. destruct Hshape as (_ & Hinp & _).
  destruct (load_in_range inp r) as [ix E]; [lia|]. exists ix. split; [done|].
  unfold load in E. destruct (Z.leb_spec 0 r); [|done].
  unfold tokens_in_range in Htok. rewrite Forall_lookup in Htok. by apply (Htok _ _ E).
Qed.

(** The embedding at offset [r * C + i] of row [r], in terms of the values
    the row loop reads. *)
Lemma expected_row (r ix i : Z) :
  0 <= r < B * T → load inp r = Some ix → 0 <= i < C →
  ∃ x y, load wte (ix * C + i) = Some x ∧ load wpe (r mod T * C + i) = Some y ∧
         expected (r * C + i) = Some (fadd x y).
Proof using Hdims Hshape Htok.
  intros Hr E Hi. destruct Hdims as (HB & HT & HC & HN & HV).
  destruct Hshape as (_ & _ & Hwte & Hwpe).
  destruct (token_at r Hr) as (ix' & E' & Hix). assert (ix' = ix) as -> by congruence.
  destruct (row_bound r B T) as [Hb Ht]; [lia|done|].
  destruct (load_in_range wte (ix * C + i)) as [x Ex].
  { rewrite Hwte. by apply flat_bound. }
  destruct (load_in_range wpe (r mod T * C + i)) as [y Ey].
  { rewrite Hwpe. by apply flat_bound. }
  exists x, y. split; [done|]. split; [done|].
  unfold embedding_at, embedding. rewrite flat_div, flat_mod by done.
  rewrite row_split by lia. rewrite E. simpl. rewrite Ex. simpl. by rewrite Ey.
Qed.

Lemma filled_log (lo hi : Z) (m : memory F) (r : region) (off : Z) :
  filled lo hi m → bounded (Read r off) →
  filled lo hi (Memory (m_out m) (m_log m ++ [Read r off])).
Proof.
  intros (Hl & Hin & Hout & log & Elog & Hlog & Hw) Ha.
  split; [done|]. split; [done|]. split; [done|].
  exists (log ++ [Read r off]). simpl. split; [by rewrite Elog, app_assoc|]. split.
  - apply Forall_app. split; [done|]. by apply Forall_singleton.
  - unfold writes in *. rewrite omap_app, Hw. simpl. by rewrite app_nil_r.
Qed.

(** One iteration of the loop over the channels. *)
Lemma row_body (r ix lo i : Z) :
  0 <= r < B * T → load inp r = Some ix → 0 <= i < C → lo <= r * C + i →
  triple (filled lo (r * C + i))
    (x <- read Wte wte (ix * C + i);;
     y <- read Wpe wpe (r mod T * C + i);;
     write (r * C + i) (fadd x y))%M
    (λ _, filled lo (r * C + i + 1)).
Proof using Hdims Hshape Htok.
  intros Hr E Hi Hlo.
  destruct (expected_row r ix i Hr E Hi) as (x & y & Ex & Ey & Exy).
  pose proof (load_Some_range _ _ _ Ex) as Rx.
  pose proof (load_Some_range _ _ _ Ey) as Ry.
  pose proof (flat_bound r (B * T) C i Hr Hi) as Rj.
  destruct Hshape as (Hout & _ & Hwte & Hwpe).
  eapply triple_bind.
  { apply triple_read with (x := x) (Q := λ a m, a = x ∧ filled lo (r * C + i) m); [done|].
    intros m Hm. split; [done|]. apply filled_log; [done|]. simpl. lia. }
  intros x'. eapply triple_bind.
  { apply triple_read with (x := y)
      (Q := λ a m, x' = x ∧ a = y ∧ filled lo (r * C + i) m); [done|].
    intros m [-> Hm]. split; [done|]. split; [done|]. apply filled_log; [done|]. simpl. lia. }
  intros y'. apply triple_write.
  intros m (-> & -> & Hl & Hin & Hout' & log & Elog & Hlog & Hw).
  split; [lia|]. unfold filled. simpl. split; [by rewrite length_insert|].
  split; [|split].
  - intros j Hj. destruct (decide (j = r * C + i)) as [->|Hne].
    + rewrite load_insert_eq by lia. done.
    + rewrite load_insert_ne by lia. apply Hin. lia.
  - intros j Hj. rewrite load_insert_ne by lia. apply Hout'. lia.
  - exists (log ++ [Write Out (r * C + i)]).
    split; [by rewrite Elog, app_assoc|]. split.
    { apply Forall_app. split; [done|]. apply Forall_singleton. simpl. lia. }
    unfold writes in *. rewrite omap_app, Hw. simpl.
    replace (r * C + i + 1 - lo) with ((r * C + i - lo) + 1) by lia.
    rewrite seqZ_app by lia. f_equal.
    replace (lo + (r * C + i - lo)) with (r * C + i) by lia. done.
Qed.

(** The [int] products of the offsets are exact. *)
Lemma offsets_exact (b t ix : Z) :
  0 <= b < B → 0 <= t < T → 0 <= ix < V →
  Int32.mul b T = b * T ∧ Int32.mul (b * T) C = b * T * C ∧
  Int32.mul t C = t * C ∧ Int32.add (b * T) t = b * T + t ∧
  Int32.mul ix C = ix * C.
Proof using Hdims.
  intros Hb Ht Hix. destruct Hdims as (HB & HT & HC & HN & HV).
  unfold Int32.INT_MAX in *.
  assert (0 <= b * T + t < B * T) as Hr by nia.
  assert (0 <= b * T) as H0 by nia.
  assert (B * T <= B * T * C) as H1 by nia.
  assert (0 <= b * T * C <= B * T * C) as H2 by nia.
  assert (0 <= t * C <= B * T * C) as H3 by nia.
  assert (0 <= ix * C < V * C) as H4 by nia.
  repeat split; (apply Int32Facts.mul_exact || apply Int32Facts.add_exact);
    unfold Int32.in_range, Int32.INT_MIN, Int32.INT_MAX; lia.
Qed.

(** Lines 28-34 and 52-58: one row of [out], for the pair [(b, t)]. *)
Lemma row_step (b t lo : Z) :
  0 <= b < B → 0 <= t < T → lo <= (b * T + t) * C →
  triple (filled lo ((b * T + t) * C))
    (ix <- read Inp inp (Int32.add (Int32.mul b T) t);;
     for_loop (Z.to_nat C) 0 (λ i,
       x <- read Wte wte (Int32.mul ix C + i);;
       y <- read Wpe wpe (Int32.mul t C + i);;
       write (Int32.mul (Int32.mul b T) C + Int32.mul t C + i) (fadd x y)))%M
    (λ _, filled lo ((b * T + t + 1) * C)).
Proof using Hdims Hshape Htok.
  intros Hb Ht Hlo. pose proof Hdims as (HB & HT & HC & HN & HV).
  assert (0 <= b * T + t < B * T) as Hr by nia.
  destruct (token_at _ Hr) as (ix & E & Hix).
  destruct (offsets_exact b t ix Hb Ht Hix) as (E1 & E2 & E3 & E4 & E5).
  rewrite E1, E2, E3, E4.
  eapply triple_bind.
  { apply triple_read with (x := ix)
      (Q := λ a m, a = ix ∧ filled lo ((b * T + t) * C) m); [done|].
    intros m Hm. split; [done|]. apply filled_log; [done|]. simpl. lia. }
  intros ix'. simpl.
  eapply triple_weaken.
  - apply (triple_for_loop (λ i m, ix' = ix ∧ filled lo ((b * T + t) * C + i) m)).
    intros k Hk m [-> Hm]. rewrite E5.
    replace (b * T * C + t * C + k) with ((b * T + t) * C + k) by lia.
    replace (t * C) with ((b * T + t) mod T * C).
    2:{ f_equal. rewrite Z.add_comm, Z.mod_add by lia. apply Z.mod_small. lia. }
    destruct (row_body (b * T + t) ix lo k Hr E) with (m := m) as (a & m' & Em & Hm');
      [lia|lia|done|].
    exists a, m'. split; [done|]. split; [done|].
    by replace ((b * T + t) * C + (k + 1)) with ((b * T + t) * C + k + 1) by lia.
  - intros m [-> Hm]. split; [done|]. by rewrite Z.add_0_r.
  - intros [] m [_ Hm]. simpl in Hm.
    by replace ((b * T + t + 1) * C) with ((b * T + t) * C + (0 + Z.of_nat (Z.to_nat C))) by lia.
Qed.

(** Lines 23-37: the reference fills the whole of [out]. *)
Lemma cpu_fills :
  triple (filled 0 0) (encoder_forward_cpu fadd inp wte wpe B T C)
    (λ _, filled 0 (B * T * C)).
Proof using Hdims Hshape Htok.
  pose proof Hdims as (HB & HT & HC & HN & HV). unfold encoder_forward_cpu.
  eapply triple_weaken.
  - apply (triple_for_loop (λ b, filled 0 (b * T * C))). intros b Hb.
    eapply triple_weaken.
    + apply (triple_for_loop (λ t, filled 0 ((b * T + t) * C))). intros t Ht.
      eapply triple_weaken.
      * apply (row_step b t 0); nia.
      * auto.
      * intros [] m Hm. simpl in Hm.
        by replace (b * T + (t + 1)) with (b * T + t + 1) by lia.
    + intros m Hm. by replace ((b * T + 0) * C) with (b * T * C) by lia.
    + intros [] m Hm. simpl in Hm.
      by replace ((b + 1) * T * C) with ((b * T + (0 + Z.of_nat (Z.to_nat T))) * C) by lia.
  - intros m Hm. by replace (0 * T * C) with 0 by lia.
  - intros [] m Hm. simpl in Hm.
    by replace (B * T * C) with ((0 + Z.of_nat (Z.to_nat B)) * T * C) by lia.
Qed.

(** Lines 69-81: an active thread of the second kernel writes its element. *)
Lemma kernel2_active (blockIdx blockDim threadIdx idx lo : Z) :
  thread_idx blockIdx blockDim threadIdx = idx → 0 <= idx < B * T * C → lo <= idx →
  triple (filled lo idx)
    (encoder_forward_kernel2 fadd inp wte wpe blockIdx blockDim threadIdx B T C)
    (λ _, filled lo (idx + 1)).
Proof using Hdims Hshape Htok.
  intros Eidx Hidx Hlo. pose proof Hdims as (HB & HT & HC & HN & HV).
  unfold encoder_forward_kernel2. rewrite Eidx.
  assert (Int32.mul (Int32.mul B T) C = B * T * C) as ->.
  { unfold Int32.INT_MAX in *. rewrite (Int32Facts.mul_exact B T).
    - apply Int32Facts.mul_exact. unfold Int32.in_range, Int32.INT_MIN, Int32.INT_MAX. nia.
    - unfold Int32.in_range, Int32.INT_MIN, Int32.INT_MAX. nia. }
  destruct (Z.ltb_spec idx (B * T * C)); [|lia].
  set (r := idx / C). set (c := idx mod C).
  assert (0 <= c < C) as Hc by (apply Z.mod_pos_bound; lia).
  assert (idx = r * C + c) as Hsplit by (pose proof (Z.div_mod idx C); subst r c; lia).
  assert (0 <= r < B * T) as Hr.
  { subst r. split; [apply Z.div_pos; lia|apply Z.div_lt_upper_bound; lia]. }
  destruct (row_bound r B T) as [Hb Ht]; [lia|done|].
  destruct (token_at r Hr) as (ix & E & Hix).
  destruct (offsets_exact (r / T) (r mod T) ix Hb Ht Hix) as (E1 & E2 & E3 & E4 & E5).
  apply triple_lift_bind with (a := r); [apply Int32Facts.div_nonneg; lia|].
  apply triple_lift_bind with (a := r / T); [apply Int32Facts.div_nonneg; lia|].
  apply triple_lift_bind with (a := r mod T); [apply Int32Facts.rem_nonneg; lia|].
  apply triple_lift_bind with (a := c); [apply Int32Facts.rem_nonneg; lia|].
  rewrite E1, E2, E3, E4, row_split by lia.
  eapply triple_bind.
  { apply triple_read with (x := ix) (Q := λ a m, a = ix ∧ filled lo idx m); [done|].
    intros m Hm. split; [done|]. apply filled_log; [done|]. simpl. lia. }
  intros ix' m [-> Hm]. simpl. rewrite E5.
  replace (r / T * T * C + r mod T * C + c) with (r * C + c)
    by (pose proof (row_split r T); nia).
  rewrite Hsplit in Hm |- *. apply (row_body r ix lo c); [done|done|done|lia|done].
Qed.

(** Lines 49-59: an active thread of the first kernel writes its row. *)
Lemma kernel1_active (blockIdx blockDim threadIdx idx lo : Z) :
  thread_idx blockIdx blockDim threadIdx = idx → 0 <= idx < B * T → lo <= idx * C →
  triple (filled lo (idx * C))
    (encoder_forward_kernel1 fadd inp wte wpe blockIdx blockDim threadIdx B T C)
    (λ _, filled lo ((idx + 1) * C)).
Proof using Hdims Hshape Htok.
  intros Eidx Hidx Hlo. pose proof Hdims as (HB & HT & HC & HN & HV).
  unfold encoder_forward_kernel1. rewrite Eidx.
  assert (Int32.mul B T = B * T) as ->.
  { unfold Int32.INT_MAX in *. apply Int32Facts.mul_exact.
    unfold Int32.in_range, Int32.INT_MIN, Int32.INT_MAX. nia. }
  destruct (Z.ltb_spec idx (B * T)); [|lia].
  destruct (row_bound idx B T) as [Hb Ht]; [lia|done|].
  apply triple_lift_bind with (a := idx / T); [apply Int32Facts.div_nonneg; lia|].
  apply triple_lift_bind with (a := idx mod T); [apply Int32Facts.rem_nonneg; lia|].
  pose proof (row_step (idx / T) (idx mod T) lo Hb Ht) as Hrow.
  rewrite row_split in Hrow by lia. apply Hrow. done.
Qed.

(** The worker counts are exact. *)
Lemma worker_counts :
  Int32.mul B T = B * T ∧ Int32.mul (Int32.mul B T) C = B * T * C.
Proof using Hdims.
  destruct Hdims as (HB & HT & HC & HN & HV). unfold Int32.INT_MAX in *.
  assert (0 <= B * T <= B * T * C) by nia.
  rewrite (Int32Facts.mul_exact B T), Int32Facts.mul_exact;
    unfold Int32.in_range, Int32.INT_MIN, Int32.INT_MAX; [done|lia|lia].
Qed.

(** A launch of the second kernel that covers [[0, B*T*C)] fills [out]. *)
Lemma launch2_fills (grid_size block_size : Z) :
  0 <= grid_size → 0 <= block_size → grid_size * block_size <= 2147483648 →
  B * T * C <= grid_size * block_size →
  triple (filled 0 0)
    (launch grid_size block_size (λ blockIdx blockDim threadIdx,
       encoder_forward_kernel2 fadd inp wte wpe blockIdx blockDim threadIdx B T C))
    (λ _, filled 0 (B * T * C)).
Proof using Hdims Hshape Htok.
  intros Hg Hb Hfit Hcover. destruct worker_counts as [_ EN].
  pose proof Hdims as (HB & HT & HC & HN & HV).
  eapply triple_weaken.
  - apply (triple_launch (λ idx, filled 0 (Z.min idx (B * T * C)))); [done|done|].
    intros blk thr Hblk Hthr. set (idx := blk * block_size + thr).
    assert (0 <= idx < grid_size * block_size) as Hidx by (subst idx; nia).
    assert (thread_idx blk block_size thr = idx) as Eidx.
    { apply thread_idx_exact; unfold Int32.INT_MAX; lia. }
    destruct (decide (idx < B * T * C)) as [Hlt|Hge].
    + rewrite !Z.min_l by lia. apply kernel2_active; [done|lia|lia].
    + rewrite !Z.min_r by lia. intros m Hm. exists (), m. split; [|done].
      apply kernel2_inactive. rewrite Eidx, EN. lia.
  - intros m Hm. by rewrite Z.min_l by nia.
  - intros [] m Hm. simpl in Hm. by rewrite Z.min_r in Hm by lia.
Qed.

(** A launch of the first kernel that covers [[0, B*T)] fills [out]. *)
Lemma launch1_fills (grid_size block_size : Z) :
  0 <= grid_size → 0 <= block_size → grid_size * block_size <= 2147483648 →
  B * T <= grid_size * block_size →
  triple (filled 0 0)
    (launch grid_size block_size (λ blockIdx blockDim threadIdx,
       encoder_forward_kernel1 fadd inp wte wpe blockIdx blockDim threadIdx B T C))
    (λ _, filled 0 (B * T * C)).
Proof using Hdims Hshape Htok.
  intros Hg Hb Hfit Hcover. destruct worker_counts as [EN _].
  pose proof Hdims as (HB & HT & HC & HN & HV).
  eapply triple_weaken.
  - apply (triple_launch (λ idx, filled 0 (Z.min idx (B * T) * C))); [done|done|].
    intros blk thr Hblk Hthr. set (idx := blk * block_size + thr).
    assert (0 <= idx < grid_size * block_size) as Hidx by (subst idx; nia).
    assert (thread_idx blk block_size thr = idx) as Eidx.
    { apply thread_idx_exact; unfold Int32.INT_MAX; lia. }
    destruct (decide (idx < B * T)) as [Hlt|Hge].
    + rewrite !Z.min_l by lia. apply kernel1_active; [done|lia|nia].
    + rewrite !Z.min_r by lia. intros m Hm. exists (), m. split; [|done].
      apply kernel1_inactive. rewrite Eidx, EN. lia.
  - intros m Hm. by rewrite Z.min_l by nia.
  - intros [] m Hm. simpl in Hm. by rewrite Z.min_r in Hm by lia.
Qed.

(** At the start nothing is filled yet. *)
Lemma filled_start (lo : Z) : filled lo lo (Memory out0 log0).
Proof.
  split; [done|]. split; [intros j Hj; lia|]. split; [done|].
  exists []. split; [by rewrite app_nil_r|]. split; [constructor|].
  by rewrite Z.sub_diag.
Qed.

(** What a filled [out] holds at [(b, t, c)]. *)
Lemma filled_elements (m : memory F) (b t c : Z) :
  filled 0 (B * T * C) m → 0 <= b < B → 0 <= t < T → 0 <= c < C →
  ∃ ix x y, load inp (b * T + t) = Some ix ∧ load wte (ix * C + c) = Some x ∧
            load wpe (t * C + c) = Some y ∧
            load (m_out m) (b * T * C + t * C + c) = Some (fadd x y).
Proof using Hdims Hshape Htok.
  intros (Hl & Hin & _) Hb Ht Hc. pose proof Hdims as (HB & HT & HC & HN & HV).
  assert (0 <= b * T + t < B * T) as Hr by nia.
  destruct (token_at _ Hr) as (ix & E & Hix).
  destruct (expected_row _ ix c Hr E Hc) as (x & y & Ex & Ey & Exy).
  exists ix, x, y. split; [done|]. split; [done|].
  assert ((b * T + t) mod T = t) as Et.
  { rewrite Z.add_comm, Z.mod_add by lia. apply Z.mod_small. lia. }
  rewrite Et in Ey. split; [done|].
  replace (b * T * C + t * C + c) with ((b * T + t) * C + c) by lia.
  rewrite Hin; [done|]. pose proof (flat_bound _ _ C c Hr Hc). lia.
Qed.

End Correct.

(** Two buffers filled over the whole of [out] are equal, whatever they held
    before. *)
Lemma filled_unique {F : Type} (fadd : F → F → F) (inp : list Z) (wte wpe : list F)
    (B T C V : Z) (out1 out2 : list F) (m1 m2 : memory F) :
  Z.of_nat (length out1) = B * T * C → Z.of_nat (length out2) = B * T * C →
  filled fadd inp wte wpe B T C V out1 [] 0 (B * T * C) m1 →
  filled fadd inp wte wpe B T C V out2 [] 0 (B * T * C) m2 →
  m_out m1 = m_out m2.
Proof.
  intros H1 H2 (Hl1 & Hin1 & _) (Hl2 & Hin2 & _). apply load_ext; [lia|].
  intros j Hj. rewrite Hin1, Hin2 by lia. done.
Qed.

(** [run_out] of a computation that satisfies a triple. *)
Lemma run_out_triple {F A : Type} (P : memory F → Prop) (c : M F A)
    (Q : A → memory F → Prop) (out : list F) :
  triple P c Q → P (Memory out []) →
  ∃ a m, c (Memory out []) = Some (a, m) ∧ run_out c out = Some (m_out m) ∧ Q a m.
Proof.
  intros Hc HP. destruct (Hc _ HP) as (a & m & E & HQ). exists a, m.
  unfold run_out. rewrite E. done.
Qed.

(** ** The order of the threads does not matter *)

Section RunThreads.

Context {F : Type}.
Implicit Types (kernel : Z → Z → Z → M F unit) (m : memory F).

Lemma run_threads_app (ts1 ts2 : list (Z * Z)) (block_size : Z) kernel m :
  run_threads (ts1 ++ ts2) block_size kernel m
  = (run_threads ts1 block_size kernel ;; run_threads ts2 block_size kernel)%M m.
Proof.
  revert m. induction ts1 as [|[blk thr] ts1 IH]; intros m; simpl.
  - done.
  - unfold M_bind in *. destruct (kernel blk block_size thr m) as [[[] m']|]; [|done].
    apply IH.
Qed.

Lemma for_loop_seqZ (n : nat) (i : Z) (body : Z → M F unit) (f : Z → list (Z * Z))
    (block_size : Z) kernel :
  (∀ k m, body k m = run_threads (f k) block_size kernel m) →
  ∀ m, for_loop n i body m
       = run_threads (seqZ i (Z.of_nat n) ≫= f) block_size kernel m.
Proof.
  intros Hbody. revert i. induction n as [|n IH]; intros i m.
  - done.
  - rewrite seqZ_cons by lia. simpl for_loop.
    change ((i :: seqZ (Z.succ i) (Z.pred (Z.of_nat (S n)))) ≫= f)
      with (f i ++ (seqZ (Z.succ i) (Z.pred (Z.of_nat (S n))) ≫= f)).
    rewrite run_threads_app. unfold M_bind. rewrite Hbody.
    destruct (run_threads (f i) block_size kernel m) as [[[] m']|]; [|done].
    rewrite IH. by replace (Z.pred (Z.of_nat (S n))) with (Z.of_nat n) by lia.
Qed.

(** [launch] runs the threads of [all_threads], in that order. *)
Lemma launch_run_threads (grid_size block_size : Z) kernel m :
  0 <= grid_size → 0 <= block_size →
  launch grid_size block_size kernel m
  = run_threads (all_threads grid_size block_size) block_size kernel m.
Proof.
  intros Hg Hb. unfold launch, all_threads.
  rewrite (for_loop_seqZ _ _ _
             (λ blk, seqZ 0 block_size ≫= (λ thr, [(blk, thr)])) block_size kernel).
  - by rewrite Z2Nat.id by done.
  - intros blk m'.
    rewrite (for_loop_seqZ _ _ _ (λ thr, [(blk, thr)]) block_size kernel).
    + by rewrite Z2Nat.id by done.
    + intros thr m''. simpl. unfold M_bind.
      by destruct (kernel blk block_size thr m'') as [[[] ?]|].
Qed.

End RunThreads.

Section ThreadOrder.

Context {F : Type}.
Variable expected : Z → option F.
Variable kernel : Z → Z → Z → M F unit.

(** [n] workers, each writing [w] consecutive elements of a buffer of [len]
    elements. *)
Variables (w n len block_size : Z).

Abbreviation thread_writes := (thread_writes w n block_size).
Abbreviation launched := (launched block_size).

Hypothesis kernel_effect : ∀ thread m,
  launched thread → Z.of_nat (length (m_out m)) = len →
  ∃ m', kernel thread.1 block_size thread.2 m = Some ((), m') ∧
        length (m_out m') = length (m_out m) ∧
        ∀ j, (thread_writes thread j → load (m_out m') j = expected j) ∧
             (¬ thread_writes thread j → load (m_out m') j = load (m_out m) j).

(** After the threads of [threads], in the order of the list: an offset
    holds the embedding when one of them writes it, and what it held
    otherwise. *)
Lemma run_threads_effect (threads : list (Z * Z)) (m : memory F) :
  Forall launched threads → Z.of_nat (length (m_out m)) = len →
  ∃ m', run_threads threads block_size kernel m = Some ((), m') ∧
        length (m_out m') = length (m_out m) ∧
        ∀ j, (Exists (λ thread, thread_writes thread j) threads →
                load (m_out m') j = expected j) ∧
             (¬ Exists (λ thread, thread_writes thread j) threads →
                load (m_out m') j = load (m_out m) j).
Proof using kernel_effect.
  intros Hts. revert m. induction Hts as [|[blk thr] threads Ht Hts IH]; intros m Hlen.
  - exists m. split; [done|]. split; [done|]. intros j. split; [|done].
    intros Hex. by apply Exists_nil in Hex.
  - destruct (kernel_effect (blk, thr) m Ht Hlen) as (m1 & E1 & Hl1 & H1).
    destruct (IH m1) as (m2 & E2 & Hl2 & H2); [lia|].
    exists m2. simpl in *. unfold M_bind. rewrite E1. split; [done|].
    split; [lia|]. intros j. destruct (H1 j) as [H1w H1o], (H2 j) as [H2w H2o].
    destruct (decide (Exists (λ thread, thread_writes thread j) threads)) as [Hex|Hnex].
    + split; [auto|]. intros Hn. exfalso. apply Hn. by apply Exists_cons_tl.
    + rewrite (H2o Hnex). split.
      * intros Hex. apply Exists_cons in Hex as [Hhd|Htl]; [auto|done].
      * intros Hn. apply H1o. intros Hw. apply Hn. by apply Exists_cons_hd.
Qed.

(** Running the same threads in another order leaves the same [out]. *)
Lemma run_threads_permutation (threads1 threads2 : list (Z * Z)) (out : list F) :
  threads1 ≡ₚ threads2 → Forall launched threads1 → Z.of_nat (length out) = len →
  run_out (run_threads threads1 block_size kernel) out
  = run_out (run_threads threads2 block_size kernel) out.
Proof using kernel_effect.
  intros Hperm Hts1 Hlen.
  assert (Forall launched threads2) as Hts2 by (by rewrite <- Hperm).
  destruct (run_threads_effect threads1 (Memory out []) Hts1 Hlen)
    as (m1 & E1 & Hl1 & H1).
  destruct (run_threads_effect threads2 (Memory out []) Hts2 Hlen)
    as (m2 & E2 & Hl2 & H2).
  unfold run_out. rewrite E1, E2. f_equal. apply load_ext; [simpl in *; lia|].
  intros j _. destruct (H1 j) as [H1w H1o], (H2 j) as [H2w H2o].
  destruct (decide (Exists (λ thread, thread_writes thread j) threads1)) as [Hex|Hnex].
  - rewrite H1w by done. symmetry. apply H2w. by rewrite <- Hperm.
  - rewrite H1o by done. symmetry. apply H2o. by rewrite <- Hperm.
Qed.

End ThreadOrder.

(** The threads of a launch whose indices fit in [int]. *)
Lemma all_threads_launched (grid_size block_size : Z) :
  grid_size * block_size <= 2147483648 →
  Forall (launched block_size) (all_threads grid_size block_size).
Proof.
  intros Hfit. apply Forall_forall. intros [blk thr] Hin. unfold all_threads in Hin.
  apply list_elem_of_bind in Hin as (blk' & Hin & Hblk).
  apply list_elem_of_bind in Hin as (thr' & Hin & Hthr).
  apply list_elem_of_singleton in Hin as [= -> ->].
  apply elem_of_seqZ in Hblk, Hthr. unfold launched, Int32.INT_MAX. simpl. nia.
Qed.

Section AnyOrder.

Context {F : Type}.
Variable fadd : F → F → F.
Variables (inp : list Z) (wte wpe : list F) (B T C V : Z).
Variables (d_out : list F) (grid_size block_size : Z).

Hypothesis Hdims : valid_dims B T C V.
Hypothesis Hshape : shaped d_out inp wte wpe B T C V.
Hypothesis Htok : tokens_in_range inp V.
Hypothesis Hblock : 0 <= block_size.
Hypothesis Hfit : grid_size * block_size <= 2147483648.

Lemma kernel2_effect (thread : Z * Z) (m : memory F) :
  launched block_size thread → Z.of_nat (length (m_out m)) = B * T * C →
  ∃ m', encoder_forward_kernel2 fadd inp wte wpe thread.1 block_size thread.2 B T C m
        = Some ((), m') ∧
        length (m_out m') = length (m_out m) ∧
        ∀ j, (thread_writes 1 (B * T * C) block_size thread j →
                load (m_out m') j = embedding_at fadd inp wte wpe T C j) ∧
             (¬ thread_writes 1 (B * T * C) block_size thread j →
                load (m_out m') j = load (m_out m) j).
Proof using Hdims Hshape Htok Hblock.
  destruct thread as [blk thr]. intros (Hblk & Hthr & Hidx) Hlen. simpl in *.
  set (idx := blk * block_size + thr) in *.
  assert (thread_idx blk block_size thr = idx) as Eidx by (by apply thread_idx_exact).
  assert (0 <= idx) as Hidx0 by (subst idx; nia).
  destruct (worker_counts B T C V Hdims) as [_ EN].
  destruct (decide (idx < B * T * C)) as [Hlt|Hge].
  - assert (shaped (m_out m) inp wte wpe B T C V) as Hshape'.
    { destruct Hshape as (_ & ? & ? & ?). by repeat split. }
    destruct (kernel2_active fadd inp wte wpe B T C V (m_out m) (m_log m)
                Hdims Hshape' Htok blk block_size thr idx idx Eidx
                ltac:(lia) (Z.le_refl _) m) as ([] & m' & E & Hl & Hin & Hout & _).
    { destruct m. apply filled_start. }
    exists m'. split; [done|]. split; [done|]. intros j. unfold thread_writes. simpl.
    fold idx. split.
    + intros [_ Hj]. apply Hin. lia.
    + intros Hn. apply Hout. lia.
  - exists m. split; [apply kernel2_inactive; rewrite Eidx, EN; lia|]. split; [done|].
    intros j. unfold thread_writes. simpl. fold idx. split; [lia|done].
Qed.

Lemma kernel1_effect (thread : Z * Z) (m : memory F) :
  launched block_size thread → Z.of_nat (length (m_out m)) = B * T * C →
  ∃ m', encoder_forward_kernel1 fadd inp wte wpe thread.1 block_size thread.2 B T C m
        = Some ((), m') ∧
        length (m_out m') = length (m_out m) ∧
        ∀ j, (thread_writes C (B * T) block_size thread j →
                load (m_out m') j = embedding_at fadd inp wte wpe T C j) ∧
             (¬ thread_writes C (B * T) block_size thread j →
                load (m_out m') j = load (m_out m) j).
Proof using Hdims Hshape Htok Hblock.
  destruct thread as [blk thr]. intros (Hblk & Hthr & Hidx) Hlen. simpl in *.
  set (idx := blk * block_size + thr) in *.
  assert (thread_idx blk block_size thr = idx) as Eidx by (by apply thread_idx_exact).
  assert (0 <= idx) as Hidx0 by (subst idx; nia).
  destruct (worker_counts B T C V Hdims) as [EN _].
  destruct (decide (idx < B * T)) as [Hlt|Hge].
  - assert (shaped (m_out m) inp wte wpe B T C V) as Hshape'.
    { destruct Hshape as (_ & ? & ? & ?). by repeat split. }
    destruct (kernel1_active fadd inp wte wpe B T C V (m_out m) (m_log m)
                Hdims Hshape' Htok blk block_size thr idx (idx * C) Eidx
                ltac:(lia) (Z.le_refl _) m) as ([] & m' & E & Hl & Hin & Hout & _).
    { destruct m. apply filled_start. }
    exists m'. split; [done|]. split; [done|]. intros j. unfold thread_writes. simpl.
    fold idx. split.
    + intros [_ Hj]. apply Hin. lia.
    + intros Hn. apply Hout. lia.
  - exists m. split; [apply kernel1_inactive; rewrite Eidx, EN; lia|]. split; [done|].
    intros j. unfold thread_writes. simpl. fold idx. split; [lia|done].
Qed.

(** The threads of a launch of the second kernel, run one after the other
    in any order, leave in [out] what the launch leaves. *)
Lemma kernel2_any_order (threads : list (Z * Z)) :
  0 <= grid_size → threads ≡ₚ all_threads grid_size block_size →
  run_out (run_threads threads block_size (λ blockIdx blockDim threadIdx,
    encoder_forward_kernel2 fadd inp wte wpe blockIdx blockDim threadIdx B T C)) d_out
  = run_out (launch grid_size block_size (λ blockIdx blockDim threadIdx,
    encoder_forward_kernel2 fadd inp wte wpe blockIdx blockDim threadIdx B T C)) d_out.
Proof using Hdims Hshape Htok Hblock Hfit.
  intros Hgrid Hperm. unfold run_out at 2. rewrite launch_run_threads by done.
  apply (run_threads_permutation (embedding_at fadd inp wte wpe T C) _ 1 (B * T * C)
           (B * T * C) block_size); [|done| |by destruct Hshape].
  - intros thread m. apply kernel2_effect.
  - rewrite Hperm. by apply all_threads_launched.
Qed.

(** The same for the first kernel. *)
Lemma kernel1_any_order (threads : list (Z * Z)) :
  0 <= grid_size → threads ≡ₚ all_threads grid_size block_size →
  run_out (run_threads threads block_size (λ blockIdx blockDim threadIdx,
    encoder_forward_kernel1 fadd inp wte wpe blockIdx blockDim threadIdx B T C)) d_out
  = run_out (launch grid_size block_size (λ blockIdx blockDim threadIdx,
    encoder_forward_kernel1 fadd inp wte wpe blockIdx blockDim threadIdx B T C)) d_out.
Proof using Hdims Hshape Htok Hblock Hfit.
  intros Hgrid Hperm. unfold run_out at 2. rewrite launch_run_threads by done.
  apply (run_threads_permutation (embedding_at fadd inp wte wpe T C) _ C (B * T)
           (B * T * C) block_size); [|done| |by destruct Hshape].
  - intros thread m. apply kernel1_effect.
  - rewrite Hperm. by apply all_threads_launched.
Qed.

End AnyOrder.

(** ** Host and device additions that differ *)

Section Tolerance.

Context {F : Type}.

(** The addition of the host, the addition of the device, and a relation
    that holds between their results, such as being within a tolerance. *)
Variables (fadd_host fadd_device : F → F → F) (close : F → F → Prop).
Hypothesis add_close : ∀ x y, close (fadd_host x y) (fadd_device x y).

Variables (inp : list Z) (wte wpe : list F) (B T C V : Z).
Variables (out d_out : list F).

Hypothesis Hdims : valid_dims B T C V.
Hypothesis Hshape : shaped out inp wte wpe B T C V.
Hypothesis Hshape_d : shaped d_out inp wte wpe B T C V.
Hypothesis Htok : tokens_in_range inp V.

Lemma filled_close (m1 m2 : memory F) :
  filled fadd_host inp wte wpe B T C V out [] 0 (B * T * C) m1 →
  filled fadd_device inp wte wpe B T C V d_out [] 0 (B * T * C) m2 →
  Forall2 close (m_out m1) (m_out m2).
Proof using add_close Hdims Hshape Hshape_d Htok.
  intros (Hl1 & Hin1 & _) (Hl2 & Hin2 & _).
  pose proof Hdims as (HB & HT & HC & HN & HV).
  pose proof Hshape as (Ho & _). pose proof Hshape_d as (Ho' & _).
  apply Forall2_same_length_lookup_2; [lia|]. intros i a b Ea Eb.
  set (j := Z.of_nat i).
  assert (0 <= j < B * T * C) as Hj by (apply lookup_lt_Some in Ea; lia).
  assert (load (m_out m1) j = Some a) as La.
  { unfold load. destruct (Z.leb_spec 0 j); [|lia]. subst j. by rewrite Nat2Z.id. }
  assert (load (m_out m2) j = Some b) as Lb.
  { unfold load. destruct (Z.leb_spec 0 j); [|lia]. subst j. by rewrite Nat2Z.id. }
  rewrite Hin1 in La by lia. rewrite Hin2 in Lb by lia.
  assert (0 <= j / C < B * T) as Hr.
  { split; [apply Z.div_pos; lia|apply Z.div_lt_upper_bound; lia]. }
  pose proof (Z.mod_pos_bound j C ltac:(lia)) as Hc.
  assert (j = j / C * C + j mod C) as Hsplit by (pose proof (Z.div_mod j C); lia).
  destruct (token_at inp wte wpe B T C V out Hshape Htok _ Hr) as (ix & E & Hix).
  destruct (expected_row fadd_host inp wte wpe B T C V out Hdims Hshape Htok
              _ ix _ Hr E Hc) as (x & y & Ex & Ey & Exy).
  destruct (expected_row fadd_device inp wte wpe B T C V d_out Hdims Hshape_d Htok
              _ ix _ Hr E Hc) as (x' & y' & Ex' & Ey' & Exy').
  rewrite <- Hsplit in Exy, Exy'.
  assert (x' = x) as -> by congruence. assert (y' = y) as -> by congruence.
  assert (a = fadd_host x y) as -> by congruence.
  assert (b = fadd_device x y) as -> by congruence. apply add_close.
Qed.

(** The outputs of the reference and of a launch of the second kernel are
    element for element as close as the two additions are. *)
Lemma kernel2_close_to_cpu (grid_size block_size : Z) :
  0 <= grid_size → 0 <= block_size → grid_size * block_size <= 2147483648 →
  B * T * C <= grid_size * block_size →
  ∃ out_cpu out_gpu,
    run_out (encoder_forward_cpu fadd_host inp wte wpe B T C) out = Some out_cpu ∧
    run_out (launch grid_size block_size (λ blockIdx blockDim threadIdx,
      encoder_forward_kernel2 fadd_device inp wte wpe blockIdx blockDim threadIdx B T C))
      d_out = Some out_gpu ∧
    Forall2 close out_cpu out_gpu.
Proof using add_close Hdims Hshape Hshape_d Htok.
  intros Hg Hb Hfit Hcover.
  destruct (run_out_triple _ _ _ out
              (cpu_fills fadd_host inp wte wpe B T C V out [] Hdims Hshape Htok)
              (filled_start _ _ _ _ _ _ _ _ _ [] 0)) as ([] & m & _ & Erun & Hm).
  destruct (run_out_triple _ _ _ d_out
              (launch2_fills fadd_device inp wte wpe B T C V d_out [] Hdims Hshape_d Htok
                 grid_size block_size Hg Hb Hfit Hcover)
              (filled_start _ _ _ _ _ _ _ _ _ [] 0)) as ([] & m' & _ & Erun' & Hm').
  exists (m_out m), (m_out m'). split; [done|]. split; [done|]. by apply filled_close.
Qed.

(** The same for the first kernel. *)
Lemma kernel1_close_to_cpu (grid_size block_size : Z) :
  0 <= grid_size → 0 <= block_size → grid_size * block_size <= 2147483648 →
  B * T <= grid_size * block_size →
  ∃ out_cpu out_gpu,
    run_out (encoder_forward_cpu fadd_host inp wte wpe B T C) out = Some out_cpu ∧
    run_out (launch grid_size block_size (λ blockIdx blockDim threadIdx,
      encoder_forward_kernel1 fadd_device inp wte wpe blockIdx blockDim threadIdx B T C))
      d_out = Some out_gpu ∧
    Forall2 close out_cpu out_gpu.
Proof using add_close Hdims Hshape Hshape_d Htok.
  intros Hg Hb Hfit Hcover.
  destruct (run_out_triple _ _ _ out
              (cpu_fills fadd_host inp wte wpe B T C V out [] Hdims Hshape Htok)
              (filled_start _ _ _ _ _ _ _ _ _ [] 0)) as ([] & m & _ & Erun & Hm).
  destruct (run_out_triple _ _ _ d_out
              (launch1_fills fadd_device inp wte wpe B T C V d_out [] Hdims Hshape_d Htok
                 grid_size block_size Hg Hb Hfit Hcover)
              (filled_start _ _ _ _ _ _ _ _ _ [] 0)) as ([] & m' & _ & Erun' & Hm').
  exists (m_out m), (m_out m'). split; [done|]. split; [done|]. by apply filled_close.
Qed.

End Tolerance.
(** ** The launchers and the block size *)

Lemma ceil_div_covers (N block_size : Z) :
  1 <= block_size → N <= ceil_div N block_size * block_size < N + block_size.
Proof.
  intros Hb. unfold ceil_div.
  pose proof (Z.div_mod (N + block_size - 1) block_size ltac:(lia)).
  pose proof (Z.mod_pos_bound (N + block_size - 1) block_size ltac:(lia)). nia.
Qed.

Lemma ceil_div_nonneg (N block_size : Z) : 0 <= N → 1 <= block_size → 0 <= ceil_div N block_size.
Proof. intros HN Hb. unfold ceil_div. apply Z.div_pos; lia. Qed.

(** Each of the six block sizes of [main] divides 2^31: the thread indices
    of its launch fit in [int], for any [N] that does. *)
Lemma block_sizes_ok (N block_size : Z) :
  block_size ∈ block_sizes → N <= Int32.INT_MAX → block_size_ok N block_size.
Proof.
  intros Hin HN. unfold Int32.INT_MAX in HN. unfold block_size_ok.
  assert (1 <= block_size) as Hb.
  { unfold block_sizes in Hin. repeat (apply elem_of_cons in Hin as [->|Hin]; [lia|]).
    by apply elem_of_nil in Hin. }
  split; [done|]. pose proof (ceil_div_covers N block_size Hb) as Hc.
  unfold block_sizes in Hin.
  repeat (apply elem_of_cons in Hin as [->|Hin]; [lia|]). by apply elem_of_nil in Hin.
Qed.

Section Launchers.

Context {F : Type}.
Variable fadd : F → F → F.
Variables (inp : list Z) (wte wpe : list F) (B T C V : Z).
Variable d_out : list F.

Hypothesis Hdims : valid_dims B T C V.
Hypothesis Hshape : shaped d_out inp wte wpe B T C V.
Hypothesis Htok : tokens_in_range inp V.

(** Lines 87-95 on valid inputs: one launch, no fault, [out] filled. *)
Lemma encoder_forward1_returns (block_size : Z) :
  block_size_ok (B * T) block_size →
  ∃ m, filled fadd inp wte wpe B T C V d_out [] 0 (B * T * C) m ∧
       encoder_forward1 fadd d_out inp wte wpe B T C block_size
       = ([KernelLaunch 1 (ceil_div (B * T) block_size) block_size], Returned (m_out m)).
Proof using Hdims Hshape Htok.
  intros [Hb Hfit]. destruct (worker_counts B T C V Hdims) as [EN _].
  pose proof Hdims as (HB & HT & HC & HN & HV).
  pose proof (ceil_div_covers (B * T) block_size Hb) as Hcov.
  assert (0 <= ceil_div (B * T) block_size) as Hg by (apply ceil_div_nonneg; nia).
  destruct (run_out_triple _ _ _ d_out
              (launch1_fills fadd inp wte wpe B T C V d_out [] Hdims Hshape Htok
                 (ceil_div (B * T) block_size) block_size Hg ltac:(lia) Hfit ltac:(lia))
              (filled_start _ _ _ _ _ _ _ _ _ [] 0)) as ([] & m & _ & Erun & Hm).
  exists m. split; [done|]. unfold encoder_forward1. rewrite EN, Erun. done.
Qed.

(** Lines 97-105 on valid inputs: one launch, no fault, [out] filled. *)
Lemma encoder_forward2_returns (block_size : Z) :
  block_size_ok (B * T * C) block_size →
  ∃ m, filled fadd inp wte wpe B T C V d_out [] 0 (B * T * C) m ∧
       encoder_forward2 fadd d_out inp wte wpe B T C block_size
       = ([KernelLaunch 2 (ceil_div (B * T * C) block_size) block_size],
          Returned (m_out m)).
Proof using Hdims Hshape Htok.
  intros [Hb Hfit]. destruct (worker_counts B T C V Hdims) as [_ EN].
  pose proof Hdims as (HB & HT & HC & HN & HV).
  pose proof (ceil_div_covers (B * T * C) block_size Hb) as Hcov.
  assert (0 <= ceil_div (B * T * C) block_size) as Hg by (apply ceil_div_nonneg; nia).
  destruct (run_out_triple _ _ _ d_out
              (launch2_fills fadd inp wte wpe B T C V d_out [] Hdims Hshape Htok
                 (ceil_div (B * T * C) block_size) block_size Hg ltac:(lia) Hfit ltac:(lia))
              (filled_start _ _ _ _ _ _ _ _ _ [] 0)) as ([] & m & _ & Erun & Hm).
  exists m. split; [done|]. unfold encoder_forward2. rewrite EN, Erun. done.
Qed.

End Launchers.

(** A launch faults when one of its threads faults from every memory. *)
Lemma launch_fault {F : Type} (grid_size block_size blockIdx threadIdx : Z)
    (kernel : Z → Z → Z → M F unit) (m : memory F) :
  0 <= blockIdx < grid_size → 0 <= threadIdx < block_size →
  (∀ m', kernel blockIdx block_size threadIdx m' = None) →
  launch grid_size block_size kernel m = None.
Proof.
  intros Hblk Hthr Hf. unfold launch.
  apply for_loop_fault with (k := blockIdx); [lia|]. intros m'.
  apply for_loop_fault with (k := threadIdx); [lia|done].
Qed.

(** ** The dispatcher *)

Section DispatchFacts.

Context {F : Type}.
Variable fadd : F → F → F.
Variables (out : list F) (inp : list Z) (wte wpe : list F) (B T C block_size : Z).

(** The default branch of the switch, lines 120-122. *)
Lemma encoder_forward_invalid (kernel_num : Z) :
  kernel_num ≠ 1 → kernel_num ≠ 2 →
  encoder_forward fadd kernel_num out inp wte wpe B T C block_size
  = ([Stdout ("Invalid kernel number" +:+ nl)], Exited 1).
Proof.
  intros H1 H2. unfold encoder_forward.
  destruct kernel_num as [|p|p]; [done| |done].
  destruct p as [p|p|]; [done| |done]. destruct p; done.
Qed.

(** Each launcher starts with the launch of its kernel. *)
Lemma encoder_forward1_launches :
  ∃ es r, encoder_forward1 fadd out inp wte wpe B T C block_size
          = (KernelLaunch 1 (ceil_div (Int32.mul B T) block_size) block_size :: es, r).
Proof.
  unfold encoder_forward1. cbv zeta. destruct (run_out _ out) as [out'|]; simpl; eauto.
Qed.

Lemma encoder_forward2_launches :
  ∃ es r, encoder_forward2 fadd out inp wte wpe B T C block_size
          = (KernelLaunch 2 (ceil_div (Int32.mul (Int32.mul B T) C) block_size)
               block_size :: es, r).
Proof.
  unfold encoder_forward2. cbv zeta. destruct (run_out _ out) as [out'|]; simpl; eauto.
Qed.

End DispatchFacts.

(** ** The concrete inputs are well formed *)

Lemma ex_valid_dims : valid_dims 2 2 2 3.
Proof. unfold valid_dims, Int32.INT_MAX. lia. Qed.

Lemma ex_shaped : shaped ex_out0 ex_inp ex_wte ex_wpe 2 2 2 3.
Proof. by vm_compute. Qed.

Lemma ex_tokens : tokens_in_range ex_inp 3.
Proof. unfold tokens_in_range, ex_inp. repeat (constructor; [lia|]). constructor. Qed.

Lemma ex_d_shaped : shaped ex_d_out0 ex_inp ex_wte ex_wpe 2 2 2 3.
Proof. by vm_compute. Qed.

Lemma big_shaped : shaped big_out0 big_inp big_wte big_wpe 1 1 2 big_V.
Proof.
  unfold shaped, big_wte. rewrite length_replicate, Z2Nat.id by (unfold big_V; lia).
  by vm_compute.
Qed.

Lemma big_tokens : tokens_in_range big_inp big_V.
Proof. unfold tokens_in_range, big_inp, big_V. constructor; [lia|constructor]. Qed.

Lemma huge_valid_dims : valid_dims 1 1 huge_C 1.
Proof. unfold valid_dims, huge_C, Int32.INT_MAX. lia. Qed.

Lemma huge_shaped : shaped huge_out huge_inp huge_wte huge_wpe 1 1 huge_C 1.
Proof.
  unfold shaped, huge_out, huge_wte, huge_wpe, huge_inp.
  rewrite !length_replicate, !Z2Nat.id by (unfold huge_C; lia). simpl. lia.
Qed.

Lemma huge_tokens : tokens_in_range huge_inp 1.
Proof. unfold tokens_in_range, huge_inp. constructor; [lia|constructor]. Qed.

Lemma last_token_inp_spec (N V : Z) :
  0 <= N → 0 < V → Z.of_nat (length (last_token_inp N V)) = N ∧
                   tokens_in_range (last_token_inp N V) V.
Proof.
  intros HN HV. unfold last_token_inp, tokens_in_range.
  rewrite length_replicate, Z2Nat.id by done. split; [done|].
  apply Forall_replicate. lia.
Qed.

Lemma constant_floats_spec (N : Z) : 0 <= N → Z.of_nat (length (constant_floats N)) = N.
Proof. intros HN. unfold constant_floats. by rewrite length_replicate, Z2Nat.id. Qed.

Lemma nan_floats_spec (N : Z) : 0 <= N → Z.of_nat (length (nan_floats N)) = N.
Proof. intros HN. unfold nan_floats. by rewrite length_replicate, Z2Nat.id. Qed.

(** ** The reference computes the embedding *)

(** C1, as amended: for all B, T, C >= 1 with B*T*C and V*C at most INT_MAX,
    and all [inp], [wte], [wpe] of the shapes (B,T), (V,C), (T,C) whose token
    indices lie in [[0, V)], [encoder_forward_cpu] returns an output with
    [out[b*T*C + t*C + c] = wte[inp[b*T + t]*C + c] + wpe[t*C + c]] for every
    [b < B], [t < T], [c < C]. *)
Theorem encoder_forward_cpu_correct {F : Type} (fadd : F → F → F)
    (out : list F) (inp : list Z) (wte wpe : list F) (B T C V : Z) :
  valid_dims B T C V → shaped out inp wte wpe B T C V → tokens_in_range inp V →
  ∃ out', run_out (encoder_forward_cpu fadd inp wte wpe B T C) out = Some out' ∧
    ∀ b t c, 0 <= b < B → 0 <= t < T → 0 <= c < C →
      ∃ ix x y, load inp (b * T + t) = Some ix ∧ load wte (ix * C + c) = Some x ∧
                load wpe (t * C + c) = Some y ∧
                load out' (b * T * C + t * C + c) = Some (fadd x y).
Proof.
  intros Hdims Hshape Htok.
  destruct (run_out_triple _ _ _ out
              (cpu_fills fadd inp wte wpe B T C V out [] Hdims Hshape Htok)
              (filled_start _ _ _ _ _ _ _ _ _ [] 0)) as ([] & m & _ & Erun & Hm).
  exists (m_out m). split; [done|]. intros b t c Hb Ht Hc.
  by apply (filled_elements fadd inp wte wpe B T C V out [] Hdims Hshape Htok).
Qed.

Lemma encoder_forward_cpu_correct_witness :
  ∃ out', run_out (encoder_forward_cpu f32_add ex_inp ex_wte ex_wpe 2 2 2) ex_out0
          = Some out' ∧
    ∀ b t c, 0 <= b < 2 → 0 <= t < 2 → 0 <= c < 2 →
      ∃ ix x y, load ex_inp (b * 2 + t) = Some ix ∧ load ex_wte (ix * 2 + c) = Some x ∧
                load ex_wpe (t * 2 + c) = Some y ∧
                load out' (b * 2 * 2 + t * 2 + c) = Some (f32_add x y).
Proof.
  exact (encoder_forward_cpu_correct f32_add ex_out0 ex_inp ex_wte ex_wpe 2 2 2 3
           ex_valid_dims ex_shaped ex_tokens).
Defined.

(** C1, as stated, fails: B = T = 1 and C = 2 are at least 1 and the only
    token index, 2^30, lies in [[0, V)], but its row offset [ix * C] is 2^31,
    which wraps to -2^31 in [int]; the read of [wte] there is outside the
    table and the reference returns no output. *)
Lemma encoder_forward_cpu_overflow :
  (1 <= 1 ∧ 1 <= 1 ∧ 1 <= 2) ∧
  shaped big_out0 big_inp big_wte big_wpe 1 1 2 big_V ∧
  tokens_in_range big_inp big_V ∧
  run_out (encoder_forward_cpu f32_add big_inp big_wte big_wpe 1 1 2) big_out0 = None.
Proof.
  split; [lia|]. split; [apply big_shaped|]. split; [apply big_tokens|].
  generalize big_wte. intros wte. by vm_compute.
Qed.

(** ** The kernels compute what the reference computes *)

(** C2: for valid B, T, C, V and token indices in [[0, V)], running the body
    of [encoder_forward_kernel2] for every thread of a launch that covers
    [[0, B*T*C)] leaves in the device buffer exactly the output of
    [encoder_forward_cpu], whatever the two buffers held before. The
    addition is the same function on both sides. *)
Theorem kernel2_matches_cpu {F : Type} (fadd : F → F → F)
    (out d_out : list F) (inp : list Z) (wte wpe : list F) (B T C V : Z)
    (grid_size block_size : Z) :
  valid_dims B T C V →
  shaped out inp wte wpe B T C V → shaped d_out inp wte wpe B T C V →
  tokens_in_range inp V →
  0 <= grid_size → 0 <= block_size → grid_size * block_size <= 2147483648 →
  B * T * C <= grid_size * block_size →
  ∃ out', run_out (encoder_forward_cpu fadd inp wte wpe B T C) out = Some out' ∧
          run_out (launch grid_size block_size (λ blockIdx blockDim threadIdx,
            encoder_forward_kernel2 fadd inp wte wpe blockIdx blockDim threadIdx B T C))
            d_out = Some out'.
Proof.
  intros Hdims Hshape Hshape' Htok Hg Hb Hfit Hcover.
  destruct (run_out_triple _ _ _ out
              (cpu_fills fadd inp wte wpe B T C V out [] Hdims Hshape Htok)
              (filled_start _ _ _ _ _ _ _ _ _ [] 0)) as ([] & m & _ & Erun & Hm).
  destruct (run_out_triple _ _ _ d_out
              (launch2_fills fadd inp wte wpe B T C V d_out [] Hdims Hshape' Htok
                 grid_size block_size Hg Hb Hfit Hcover)
              (filled_start _ _ _ _ _ _ _ _ _ [] 0)) as ([] & m' & _ & Erun' & Hm').
  exists (m_out m). split; [done|]. rewrite Erun'. f_equal.
  destruct Hshape as (Hl & _), Hshape' as (Hl' & _).
  by apply (filled_unique fadd inp wte wpe B T C V d_out out).
Qed.

Lemma kernel2_matches_cpu_witness :
  ∃ out', run_out (encoder_forward_cpu f32_add ex_inp ex_wte ex_wpe 2 2 2) ex_out0
          = Some out' ∧
          run_out (launch 3 3 (λ blockIdx blockDim threadIdx,
            encoder_forward_kernel2 f32_add ex_inp ex_wte ex_wpe
              blockIdx blockDim threadIdx 2 2 2)) ex_d_out0 = Some out'.
Proof.
  apply (kernel2_matches_cpu f32_add ex_out0 ex_d_out0 ex_inp ex_wte ex_wpe 2 2 2 3 3 3
           ex_valid_dims ex_shaped ex_d_shaped ex_tokens); lia.
Defined.

(** C3: for valid B, T, C, V and token indices in [[0, V)], running the body
    of [encoder_forward_kernel1] for every thread of a launch that covers
    [[0, B*T)] leaves in the device buffer exactly the output of
    [encoder_forward_cpu], whatever the two buffers held before. The
    addition is the same function on both sides. *)
Theorem kernel1_matches_cpu {F : Type} (fadd : F → F → F)
    (out d_out : list F) (inp : list Z) (wte wpe : list F) (B T C V : Z)
    (grid_size block_size : Z) :
  valid_dims B T C V →
  shaped out inp wte wpe B T C V → shaped d_out inp wte wpe B T C V →
  tokens_in_range inp V →
  0 <= grid_size → 0 <= block_size → grid_size * block_size <= 2147483648 →
  B * T <= grid_size * block_size →
  ∃ out', run_out (encoder_forward_cpu fadd inp wte wpe B T C) out = Some out' ∧
          run_out (launch grid_size block_size (λ blockIdx blockDim threadIdx,
            encoder_forward_kernel1 fadd inp wte wpe blockIdx blockDim threadIdx B T C))
            d_out = Some out'.
Proof.
  intros Hdims Hshape Hshape' Htok Hg Hb Hfit Hcover.
  destruct (run_out_triple _ _ _ out
              (cpu_fills fadd inp wte wpe B T C V out [] Hdims Hshape Htok)
              (filled_start _ _ _ _ _ _ _ _ _ [] 0)) as ([] & m & _ & Erun & Hm).
  destruct (run_out_triple _ _ _ d_out
              (launch1_fills fadd inp wte wpe B T C V d_out [] Hdims Hshape' Htok
                 grid_size block_size Hg Hb Hfit Hcover)
              (filled_start _ _ _ _ _ _ _ _ _ [] 0)) as ([] & m' & _ & Erun' & Hm').
  exists (m_out m). split; [done|]. rewrite Erun'. f_equal.
  destruct Hshape as (Hl & _), Hshape' as (Hl' & _).
  by apply (filled_unique fadd inp wte wpe B T C V d_out out).
Qed.

Lemma kernel1_matches_cpu_witness :
  ∃ out', run_out (encoder_forward_cpu f32_add ex_inp ex_wte ex_wpe 2 2 2) ex_out0
          = Some out' ∧
          run_out (launch 2 3 (λ blockIdx blockDim threadIdx,
            encoder_forward_kernel1 f32_add ex_inp ex_wte ex_wpe
              blockIdx blockDim threadIdx 2 2 2)) ex_d_out0 = Some out'.
Proof.
  apply (kernel1_matches_cpu f32_add ex_out0 ex_d_out0 ex_inp ex_wte ex_wpe 2 2 2 3 2 3
           ex_valid_dims ex_shaped ex_d_shaped ex_tokens); lia.
Defined.

(** ** Memory safety of the kernels *)

(** C4, as amended: a thread whose [idx] is at or beyond the worker count
    ([idx >= B*T] for the first kernel, [idx >= B*T*C] for the second) makes
    no access at all, the memory and the log stay as they were; and, when
    all token indices lie in [[0, V)] and B, T, C >= 1 with B*T*C and V*C at
    most INT_MAX, a thread with [idx] in [[0, worker count)] does not fault:
    every read of [inp], [wte], [wpe] and every write to [out] it makes falls
    inside the buffer (the writes go to the C offsets from [idx*C] on for the
    first kernel, to the offset [idx] for the second). *)
Theorem kernel_accesses_in_bounds {F : Type} (fadd : F → F → F)
    (out : list F) (inp : list Z) (wte wpe : list F) (B T C V : Z)
    (blockIdx blockDim threadIdx : Z) :
  let idx := thread_idx blockIdx blockDim threadIdx in
  let safe := in_bounds (Z.of_nat (length out)) (Z.of_nat (length inp))
                (Z.of_nat (length wte)) (Z.of_nat (length wpe)) in
  (0 <= B → 0 <= T → B * T <= idx → ∀ m,
     encoder_forward_kernel1 fadd inp wte wpe blockIdx blockDim threadIdx B T C m
     = Some ((), m)) ∧
  (0 <= B → 0 <= T → 0 <= C → B * T * C <= idx → ∀ m,
     encoder_forward_kernel2 fadd inp wte wpe blockIdx blockDim threadIdx B T C m
     = Some ((), m)) ∧
  (valid_dims B T C V → shaped out inp wte wpe B T C V → tokens_in_range inp V →
   (0 <= idx < B * T → ∃ m',
      encoder_forward_kernel1 fadd inp wte wpe blockIdx blockDim threadIdx B T C
        (Memory out []) = Some ((), m') ∧
      Forall safe (m_log m') ∧ writes (m_log m') = seqZ (idx * C) C) ∧
   (0 <= idx < B * T * C → ∃ m',
      encoder_forward_kernel2 fadd inp wte wpe blockIdx blockDim threadIdx B T C
        (Memory out []) = Some ((), m') ∧
      Forall safe (m_log m') ∧ writes (m_log m') = [idx])).
Proof.
  intros idx safe. split; [|split].
  - intros HB HT Hge m. apply kernel1_inactive. fold idx.
    pose proof (worker_count1_le B T HB HT). lia.
  - intros HB HT HC Hge m. apply kernel2_inactive. fold idx.
    pose proof (worker_count2_le B T C HB HT HC). lia.
  - intros Hdims Hshape Htok. pose proof Hshape as (Ho & Hi & Hw & Hp).
    assert (∀ log, Forall (in_bounds (B * T * C) (B * T) (V * C) (T * C)) log →
                   Forall safe log) as Hsafe.
    { intros log. subst safe. by rewrite Ho, Hi, Hw, Hp. }
    split.
    + intros Hidx.
      destruct (kernel1_active fadd inp wte wpe B T C V out [] Hdims Hshape Htok
                  blockIdx blockDim threadIdx idx (idx * C) eq_refl Hidx (Z.le_refl _)
                  (Memory out []) (filled_start _ _ _ _ _ _ _ _ _ [] _))
        as ([] & m' & E & Hm').
      exists m'. split; [done|]. destruct Hm' as (_ & _ & _ & log & -> & Hlog & Hwr).
      simpl. split; [by apply Hsafe|]. rewrite Hwr. f_equal. lia.
    + intros Hidx.
      destruct (kernel2_active fadd inp wte wpe B T C V out [] Hdims Hshape Htok
                  blockIdx blockDim threadIdx idx idx eq_refl Hidx (Z.le_refl _)
                  (Memory out []) (filled_start _ _ _ _ _ _ _ _ _ [] _))
        as ([] & m' & E & Hm').
      exists m'. split; [done|]. destruct Hm' as (_ & _ & _ & log & -> & Hlog & Hwr).
      simpl. split; [by apply Hsafe|]. rewrite Hwr.
      by replace (idx + 1 - idx) with 1 by lia.
Qed.

Lemma kernel_accesses_in_bounds_witness :
  (∃ m', encoder_forward_kernel1 f32_add ex_inp ex_wte ex_wpe 0 256 3 2 2 2
           (Memory ex_out0 []) = Some ((), m') ∧
         Forall (in_bounds 8 4 6 4) (m_log m') ∧ writes (m_log m') = [6; 7]) ∧
  (∃ m', encoder_forward_kernel2 f32_add ex_inp ex_wte ex_wpe 0 256 3 2 2 2
           (Memory ex_out0 []) = Some ((), m') ∧
         Forall (in_bounds 8 4 6 4) (m_log m') ∧ writes (m_log m') = [3]) ∧
  (∀ m, encoder_forward_kernel1 f32_add ex_inp ex_wte ex_wpe 0 256 9 2 2 2 m
        = Some ((), m)) ∧
  (∀ m, encoder_forward_kernel2 f32_add ex_inp ex_wte ex_wpe 0 256 9 2 2 2 m
        = Some ((), m)).
Proof.
  destruct (kernel_accesses_in_bounds f32_add ex_out0 ex_inp ex_wte ex_wpe 2 2 2 3
              0 256 3) as (_ & _ & Hactive).
  destruct (Hactive ex_valid_dims ex_shaped ex_tokens) as [H1 H2].
  destruct (kernel_accesses_in_bounds f32_add ex_out0 ex_inp ex_wte ex_wpe 2 2 2 3
              0 256 9) as (H3 & H4 & _).
  split; [apply H1; by vm_compute|]. split; [apply H2; by vm_compute|].
  split; [apply H3; by vm_compute|apply H4; by vm_compute].
Defined.

(** C4, as stated, fails: with B = T = 1, C = 2 and the only token index 2^30
    in [[0, V)], thread 0 is below the worker count of either kernel, and its
    read of [wte] is at offset [ix * C = 2^31], wrapped to -2^31, outside
    the table: the thread faults. *)
Lemma kernel_read_out_of_bounds :
  tokens_in_range big_inp big_V ∧
  shaped big_out0 big_inp big_wte big_wpe 1 1 2 big_V ∧
  thread_idx 0 1 0 = 0 ∧
  Int32.mul 1073741824 2 + 0 = -2147483648 ∧
  encoder_forward_kernel1 f32_add big_inp big_wte big_wpe 0 1 0 1 1 2
    (Memory big_out0 []) = None ∧
  encoder_forward_kernel2 f32_add big_inp big_wte big_wpe 0 1 0 1 1 2
    (Memory big_out0 []) = None.
Proof.
  split; [apply big_tokens|]. split; [apply big_shaped|].
  generalize big_wte. intros wte. by vm_compute.
Qed.

(** ** The dispatcher selects the kernel *)

(** C5: for every selector other than 1 and 2, [encoder_forward] prints the
    message and exits with status 1; nothing else happens, no kernel is
    launched and no buffer is returned. For selector 1 it is
    [encoder_forward1], which launches the first kernel, and for selector 2
    it is [encoder_forward2], which launches the second. *)
Theorem dispatcher_selects {F : Type} (fadd : F → F → F) (kernel_num : Z)
    (out : list F) (inp : list Z) (wte wpe : list F) (B T C block_size : Z) :
  (kernel_num ≠ 1 → kernel_num ≠ 2 →
     encoder_forward fadd kernel_num out inp wte wpe B T C block_size
     = ([Stdout ("Invalid kernel number" +:+ nl)], Exited 1)) ∧
  encoder_forward fadd 1 out inp wte wpe B T C block_size
    = encoder_forward1 fadd out inp wte wpe B T C block_size ∧
  encoder_forward fadd 2 out inp wte wpe B T C block_size
    = encoder_forward2 fadd out inp wte wpe B T C block_size ∧
  (∃ es r, encoder_forward1 fadd out inp wte wpe B T C block_size
           = (KernelLaunch 1 (ceil_div (Int32.mul B T) block_size) block_size :: es, r)) ∧
  (∃ es r, encoder_forward2 fadd out inp wte wpe B T C block_size
           = (KernelLaunch 2 (ceil_div (Int32.mul (Int32.mul B T) C) block_size)
                block_size :: es, r)).
Proof.
  split; [|split; [done|split; [done|split]]].
  - apply encoder_forward_invalid.
  - apply encoder_forward1_launches.
  - apply encoder_forward2_launches.
Qed.

Lemma dispatcher_selects_witness :
  encoder_forward f32_add 3 ex_d_out0 ex_inp ex_wte ex_wpe 2 2 2 256
  = ([Stdout ("Invalid kernel number" +:+ nl)], Exited 1).
Proof.
  apply (dispatcher_selects f32_add 3 ex_d_out0 ex_inp ex_wte ex_wpe 2 2 2 256); lia.
Defined.

(** ** The block size does not change the output *)

(** C6, as amended: on valid inputs, for either variant with its worker
    count N (B*T for the first, B*T*C for the second), every block size of
    {32, 64, 128, 256, 512, 1024}, and in general every positive block size
    for which ceil(N / block_size) * block_size is at most 2^31, gives a
    launch that covers [[0, N)]; and dispatching the variant with any two
    such block sizes returns identical output buffers. *)
Theorem block_size_invariance {F : Type} (fadd : F → F → F)
    (d_out : list F) (inp : list Z) (wte wpe : list F) (B T C V : Z)
    (kernel_num : Z) :
  valid_dims B T C V → shaped d_out inp wte wpe B T C V → tokens_in_range inp V →
  kernel_num = 1 ∨ kernel_num = 2 →
  let N := if kernel_num =? 1 then B * T else B * T * C in
  (∀ block_size, block_size ∈ block_sizes → block_size_ok N block_size) ∧
  (∀ block_size, block_size_ok N block_size →
     N <= ceil_div N block_size * block_size) ∧
  (∀ bs1 bs2, block_size_ok N bs1 → block_size_ok N bs2 →
     ∃ out',
       encoder_forward fadd kernel_num d_out inp wte wpe B T C bs1
       = ([KernelLaunch kernel_num (ceil_div N bs1) bs1], Returned out') ∧
       encoder_forward fadd kernel_num d_out inp wte wpe B T C bs2
       = ([KernelLaunch kernel_num (ceil_div N bs2) bs2], Returned out')).
Proof.
  intros Hdims Hshape Htok Hk N. pose proof Hdims as (HB & HT & HC & HN & HV).
  assert (0 <= N <= Int32.INT_MAX) as HNr.
  { subst N. unfold Int32.INT_MAX in *. destruct Hk as [-> | ->]; simpl; nia. }
  split; [|split].
  - intros bs Hbs. apply block_sizes_ok; [done|lia].
  - intros bs [Hb _]. pose proof (ceil_div_covers N bs Hb). lia.
  - intros bs1 bs2 H1 H2. pose proof Hshape as (Hl & _).
    destruct Hk as [-> | ->]; simpl in N; subst N.
    + destruct (encoder_forward1_returns fadd inp wte wpe B T C V d_out
                  Hdims Hshape Htok bs1 H1) as (m1 & Hm1 & E1).
      destruct (encoder_forward1_returns fadd inp wte wpe B T C V d_out
                  Hdims Hshape Htok bs2 H2) as (m2 & Hm2 & E2).
      exists (m_out m1). split; [done|].
      rewrite (filled_unique fadd inp wte wpe B T C V d_out d_out m1 m2); done.
    + destruct (encoder_forward2_returns fadd inp wte wpe B T C V d_out
                  Hdims Hshape Htok bs1 H1) as (m1 & Hm1 & E1).
      destruct (encoder_forward2_returns fadd inp wte wpe B T C V d_out
                  Hdims Hshape Htok bs2 H2) as (m2 & Hm2 & E2).
      exists (m_out m1). split; [done|].
      rewrite (filled_unique fadd inp wte wpe B T C V d_out d_out m1 m2); done.
Qed.

Lemma block_size_invariance_witness :
  (∀ block_size, block_size ∈ block_sizes → block_size_ok (2 * 2 * 2) block_size) ∧
  (∀ block_size, block_size_ok (2 * 2 * 2) block_size →
     2 * 2 * 2 <= ceil_div (2 * 2 * 2) block_size * block_size) ∧
  (∀ bs1 bs2, block_size_ok (2 * 2 * 2) bs1 → block_size_ok (2 * 2 * 2) bs2 →
     ∃ out',
       encoder_forward f32_add 2 ex_d_out0 ex_inp ex_wte ex_wpe 2 2 2 bs1
       = ([KernelLaunch 2 (ceil_div (2 * 2 * 2) bs1) bs1], Returned out') ∧
       encoder_forward f32_add 2 ex_d_out0 ex_inp ex_wte ex_wpe 2 2 2 bs2
       = ([KernelLaunch 2 (ceil_div (2 * 2 * 2) bs2) bs2], Returned out')).
Proof.
  apply (block_size_invariance f32_add ex_d_out0 ex_inp ex_wte ex_wpe 2 2 2 3 2
           ex_valid_dims ex_d_shaped ex_tokens). by right.
Defined.

(** With block size 3 the last block holds the thread of index 2^31, whose
    [idx] is -2^31: it passes the guard and reads [inp[-1]]. *)
Lemma huge_thread_faults {F : Type} (fadd : F → F → F) (inp : list Z)
    (wte wpe : list F) (m : memory F) :
  encoder_forward_kernel2 fadd inp wte wpe 715827882 3 2 1 1 huge_C m = None.
Proof. by vm_compute. Qed.

(** C6, as stated, fails for a positive block size outside the six: on a
    valid input with B*T*C = INT_MAX, the second variant dispatched with block
    size 1 returns an output, and dispatched with block size 3 it launches
    715827883 * 3 = 2^31 + 1 threads, the last of which faults. *)
Lemma block_size_three_faults :
  (valid_dims 1 1 huge_C 1 ∧ shaped huge_out huge_inp huge_wte huge_wpe 1 1 huge_C 1 ∧
   tokens_in_range huge_inp 1 ∧ 1 <= 1 ∧ 1 <= 3) ∧
  (∃ out', encoder_forward f32_add 2 huge_out huge_inp huge_wte huge_wpe 1 1 huge_C 1
           = ([KernelLaunch 2 2147483647 1], Returned out')) ∧
  encoder_forward f32_add 2 huge_out huge_inp huge_wte huge_wpe 1 1 huge_C 3
  = ([KernelLaunch 2 715827883 3; CudaError], Exited 1).
Proof.
  split; [|split].
  - split; [apply huge_valid_dims|]. split; [apply huge_shaped|].
    split; [apply huge_tokens|lia].
  - destruct (encoder_forward2_returns f32_add huge_inp huge_wte huge_wpe 1 1 huge_C 1
                huge_out huge_valid_dims huge_shaped huge_tokens 1) as (m & _ & E).
    { split; [lia|]. by vm_compute. }
    exists (m_out m). exact E.
  - generalize huge_out huge_inp huge_wte huge_wpe. intros out inp wte wpe.
    unfold encoder_forward, encoder_forward2. cbv zeta.
    replace (ceil_div (Int32.mul (Int32.mul 1 1) huge_C) 3) with 715827883
      by (by vm_compute).
    unfold run_out. rewrite (launch_fault 715827883 3 715827882 2); [done|lia|lia|].
    intros m'. apply huge_thread_faults.
Qed.

(** ** The concrete scenario *)

(** C7: on B = T = C = 2, V = 3, inp = [[0,1],[2,0]], wte = [[1,1],[2,2],[3,3]],
    wpe = [[10,10],[20,20]], in binary32, the reference, the first kernel and
    the second kernel (each dispatched with the block size 256 that [main]
    validates with) all produce out = [[11,11],[22,22]], [[13,13],[21,21]]. *)
Theorem concrete_scenario :
  run_out (encoder_forward_cpu f32_add ex_inp ex_wte ex_wpe 2 2 2) ex_out0
    = Some ex_expected ∧
  encoder_forward f32_add 1 ex_d_out0 ex_inp ex_wte ex_wpe 2 2 2 256
    = ([KernelLaunch 1 1 256], Returned ex_expected) ∧
  encoder_forward f32_add 2 ex_d_out0 ex_inp ex_wte ex_wpe 2 2 2 256
    = ([KernelLaunch 2 1 256], Returned ex_expected) ∧
  (load ex_expected <$> [0; 1; 2; 3; 4; 5; 6; 7])
    = (Some ∘ f32_of_Z <$> [11; 11; 22; 22; 13; 13; 21; 21]).
Proof. repeat split; by vm_compute. Qed.

(** ** The bandwidth estimate *)

(** Without overflow, [memory_ops] is 16 bytes for each element of [out]. *)
Lemma memory_ops_exact (B T C : Z) :
  0 <= B → 0 <= T → 0 <= C → B * T * C * 4 * 4 <= Int32.INT_MAX →
  memory_ops B T C = B * T * C * 4 * 4.
Proof.
  intros HB HT HC HN. unfold memory_ops, Int32.INT_MAX in *.
  assert (0 <= B * T) by nia. assert (0 <= B * T * C) by nia.
  destruct (decide (C = 0)) as [->|HC0].
  - unfold Int32.mul. rewrite !Z.mul_0_r. by vm_compute.
  - assert (B * T <= B * T * C) by nia.
    rewrite (Int32Facts.mul_exact B T), (Int32Facts.mul_exact (B * T) C),
      (Int32Facts.mul_exact (B * T * C) 4), (Int32Facts.mul_exact (B * T * C * 4) 4);
      unfold Int32.in_range, Int32.INT_MIN, Int32.INT_MAX; lia.
Qed.

(** C8: with B = 8, T = 1024, C = 768 the byte count of every iteration of
    the benchmark loop is B*T*C*4*4 = 100663296; each of the four products
    of [B * T * C * 4 * 4] stays within [int], so nothing wraps before the
    value is widened. *)
Theorem memory_ops_bytes :
  memory_ops 8 1024 768 = 100663296 ∧
  8 * 1024 * 768 * 4 * 4 = 100663296 ∧
  (Int32.in_range (8 * 1024) ∧ Int32.in_range (8 * 1024 * 768) ∧
   Int32.in_range (8 * 1024 * 768 * 4) ∧ Int32.in_range (8 * 1024 * 768 * 4 * 4)) ∧
  (∀ (F : Type) (fadd : F → F → F) (elapsed : Z → F) (bandwidth : Z → F → F)
     (report : Z → F → F → string) (kernel_num : Z) (inp : list Z) (wte wpe : list F)
     (d_out : list F) (block_size : Z),
     block_size ∈ block_sizes →
     benchmark_step fadd elapsed bandwidth report kernel_num inp wte wpe 8 1024 768
       d_out block_size
     = (r <- benchmark_kernel elapsed 1000 kernel_num
              (λ d_out, encoder_forward fadd kernel_num d_out inp wte wpe 8 1024 768
                          block_size) d_out block_size;;
        printf (report block_size (fst r) (bandwidth 100663296 (fst r)));;
        proc_ret (snd r))%proc).
Proof.
  split; [by vm_compute|]. split; [done|]. split.
  - unfold Int32.in_range, Int32.INT_MIN, Int32.INT_MAX. lia.
  - intros. done.
Qed.

(** ** The index decomposition of the second kernel *)

(** The second kernel is its guard, the decomposition [kernel2_coords], the
    three reads and the write at [kernel2_out_offset]. *)
Lemma kernel2_unfold {F : Type} (fadd : F → F → F) (inp : list Z) (wte wpe : list F)
    (blockIdx blockDim threadIdx B T C : Z) (m : memory F) :
  encoder_forward_kernel2 fadd inp wte wpe blockIdx blockDim threadIdx B T C m =
  (let idx := thread_idx blockIdx blockDim threadIdx in
   if idx <? Int32.mul (Int32.mul B T) C then
     (p <- M_lift (kernel2_coords idx T C);;
      ix <- read Inp inp (Int32.add (Int32.mul p.1.1 T) p.1.2);;
      x <- read Wte wte (Int32.mul ix C + p.2);;
      y <- read Wpe wpe (Int32.mul p.1.2 C + p.2);;
      write (kernel2_out_offset p.1.1 p.1.2 p.2 T C) (fadd x y))%M m
   else Some ((), m)).
Proof.
  unfold encoder_forward_kernel2, kernel2_coords, kernel2_out_offset. simpl.
  destruct (_ <? _); [|done]. unfold M_bind, M_lift.
  destruct (Int32.div _ C) as [bt|]; [|done]. simpl.
  destruct (Int32.div bt T) as [b|]; [|done]. simpl.
  destruct (Int32.rem bt T) as [t|]; [|done]. simpl.
  destruct (Int32.rem _ C) as [c|]; done.
Qed.

Lemma kernel2_coords_exact (idx T C : Z) :
  0 <= idx → 0 < T → 0 < C →
  kernel2_coords idx T C = Some (idx / C / T, (idx / C) mod T, idx mod C).
Proof.
  intros Hidx HT HC. unfold kernel2_coords.
  assert (0 <= idx / C) by (apply Z.div_pos; lia).
  rewrite (Int32Facts.div_nonneg idx C) by lia. simpl.
  rewrite (Int32Facts.div_nonneg (idx / C) T) by lia. simpl.
  rewrite (Int32Facts.rem_nonneg (idx / C) T) by lia. simpl.
  by rewrite (Int32Facts.rem_nonneg idx C) by lia.
Qed.

(** C9, as amended: for all B, T, C >= 1 with B*T*C at most INT_MAX, the
    decomposition bt = idx / C, b = bt / T, t = bt % T, c = idx % C maps
    every idx in [[0, B*T*C)] to a triple with b < B, t < T, c < C whose
    output offset is idx itself, every such triple comes from some idx, and
    no two idx give the same triple; and a launch that covers [[0, B*T*C)]
    writes the offsets 0, 1, ..., B*T*C - 1 of [out], each exactly once. *)
Theorem kernel2_index_bijection (B T C : Z) :
  1 <= B → 1 <= T → 1 <= C → B * T * C <= Int32.INT_MAX →
  (∀ idx, 0 <= idx < B * T * C →
     ∃ b t c, kernel2_coords idx T C = Some (b, t, c) ∧
       0 <= b < B ∧ 0 <= t < T ∧ 0 <= c < C ∧ kernel2_out_offset b t c T C = idx) ∧
  (∀ b t c, 0 <= b < B → 0 <= t < T → 0 <= c < C →
     ∃ idx, 0 <= idx < B * T * C ∧ kernel2_coords idx T C = Some (b, t, c)) ∧
  (∀ idx1 idx2, 0 <= idx1 < B * T * C → 0 <= idx2 < B * T * C →
     kernel2_coords idx1 T C = kernel2_coords idx2 T C → idx1 = idx2) ∧
  (∀ (F : Type) (fadd : F → F → F) (out : list F) (inp : list Z) (wte wpe : list F)
     (V grid_size block_size : Z),
     V * C <= Int32.INT_MAX → shaped out inp wte wpe B T C V → tokens_in_range inp V →
     0 <= grid_size → 0 <= block_size → grid_size * block_size <= 2147483648 →
     B * T * C <= grid_size * block_size →
     ∃ m', launch grid_size block_size (λ blockIdx blockDim threadIdx,
             encoder_forward_kernel2 fadd inp wte wpe blockIdx blockDim threadIdx B T C)
             (Memory out []) = Some ((), m') ∧
           writes (m_log m') = seqZ 0 (B * T * C)).
Proof.
  intros HB HT HC HN. unfold Int32.INT_MAX in HN.
  split; [|split; [|split]].
  - intros idx Hidx. exists (idx / C / T), ((idx / C) mod T), (idx mod C).
    rewrite kernel2_coords_exact by lia.
    assert (0 <= idx / C < B * T) as Hr.
    { split; [apply Z.div_pos; lia|apply Z.div_lt_upper_bound; lia]. }
    destruct (row_bound (idx / C) B T) as [Hb Ht]; [lia|done|].
    pose proof (Z.mod_pos_bound idx C) as Hc.
    pose proof (row_split (idx / C) T) as Hsplit.
    pose proof (Z.div_mod idx C) as Hdm.
    split; [done|]. split; [done|]. split; [done|]. split; [lia|].
    unfold kernel2_out_offset.
    assert (0 <= idx / C / T * T <= idx / C) by nia.
    assert (0 <= idx / C / T * T * C <= idx) by nia.
    assert (0 <= (idx / C) mod T * C <= idx) by nia.
    rewrite (Int32Facts.mul_exact (idx / C / T) T), Int32Facts.mul_exact,
      Int32Facts.mul_exact;
      unfold Int32.in_range, Int32.INT_MIN, Int32.INT_MAX; [nia|lia|lia|lia].
  - intros b t c Hb Ht Hc. exists ((b * T + t) * C + c).
    assert (0 <= b * T + t < B * T) as Hr by nia.
    pose proof (flat_bound _ _ C c Hr Hc) as Hj.
    split; [lia|]. rewrite kernel2_coords_exact by lia.
    by rewrite !flat_div, !flat_mod by done.
  - intros idx1 idx2 Hidx1 Hidx2. rewrite !kernel2_coords_exact by lia.
    intros [= E1 E2 E3].
    pose proof (Z.div_mod (idx1 / C) T ltac:(lia)) as D1.
    pose proof (Z.div_mod (idx2 / C) T ltac:(lia)) as D2.
    rewrite E1, E2 in D1. rewrite <- D2 in D1.
    pose proof (Z.div_mod idx1 C ltac:(lia)) as D3.
    pose proof (Z.div_mod idx2 C ltac:(lia)) as D4.
    rewrite D1, E3 in D3. by rewrite <- D4 in D3.
  - intros F fadd out inp wte wpe V grid_size block_size HV Hshape Htok Hg Hb Hfit Hcover.
    assert (valid_dims B T C V) as Hdims by (unfold valid_dims, Int32.INT_MAX in *; lia).
    destruct (launch2_fills fadd inp wte wpe B T C V out [] Hdims Hshape Htok
                grid_size block_size Hg Hb Hfit Hcover (Memory out [])
                (filled_start _ _ _ _ _ _ _ _ _ [] 0)) as ([] & m' & E & Hm').
    exists m'. split; [done|]. destruct Hm' as (_ & _ & _ & log & -> & _ & Hw).
    simpl. by rewrite Z.sub_0_r in Hw.
Qed.

Lemma kernel2_index_bijection_witness :
  (∀ idx, 0 <= idx < 2 * 2 * 2 →
     ∃ b t c, kernel2_coords idx 2 2 = Some (b, t, c) ∧
       0 <= b < 2 ∧ 0 <= t < 2 ∧ 0 <= c < 2 ∧ kernel2_out_offset b t c 2 2 = idx) ∧
  (∀ b t c, 0 <= b < 2 → 0 <= t < 2 → 0 <= c < 2 →
     ∃ idx, 0 <= idx < 2 * 2 * 2 ∧ kernel2_coords idx 2 2 = Some (b, t, c)) ∧
  (∀ idx1 idx2, 0 <= idx1 < 2 * 2 * 2 → 0 <= idx2 < 2 * 2 * 2 →
     kernel2_coords idx1 2 2 = kernel2_coords idx2 2 2 → idx1 = idx2) ∧
  (∃ m', launch 3 3 (λ blockIdx blockDim threadIdx,
           encoder_forward_kernel2 f32_add ex_inp ex_wte ex_wpe
             blockIdx blockDim threadIdx 2 2 2)
           (Memory ex_out0 []) = Some ((), m') ∧
         writes (m_log m') = seqZ 0 (2 * 2 * 2)).
Proof.
  destruct (kernel2_index_bijection 2 2 2) as (H1 & H2 & H3 & H4);
    [lia|lia|lia|unfold Int32.INT_MAX; lia|].
  split; [exact H1|]. split; [exact H2|]. split; [exact H3|].
  apply (H4 _ f32_add ex_out0 ex_inp ex_wte ex_wpe 3 3 3);
    [unfold Int32.INT_MAX; lia|apply ex_shaped|apply ex_tokens|lia|lia|lia|lia].
Defined.

(** C9, as stated, fails: B = T = 65536 and C = 1 are at least 1, and
    B*T*C = 2^32. The worker index 2^31 lies in [[0, B*T*C)]; the thread that has
    it (block 2^21 of 1024 threads, thread 0) computes [idx = -2^31] and
    [b = -32768], which is no batch index. And the worker count [B * T * C]
    wraps to 0, so thread 0 is not active: no worker writes out[0,0,0]. *)
Lemma kernel2_index_overflow :
  (1 <= 65536 ∧ 1 <= 65536 ∧ 1 <= 1) ∧
  (0 <= 2147483648 < 65536 * 65536 * 1 ∧
   2097152 * 1024 + 0 = 2147483648 ∧
   thread_idx 2097152 1024 0 = -2147483648 ∧
   kernel2_coords (thread_idx 2097152 1024 0) 65536 1 = Some (-32768, 0, 0)) ∧
  Int32.mul (Int32.mul 65536 65536) 1 = 0 ∧
  (∀ (inp : list Z) (wte wpe : list spec_float) (m : memory spec_float),
     encoder_forward_kernel2 f32_add inp wte wpe 0 1024 0 65536 65536 1 m
     = Some ((), m)).
Proof.
  split; [lia|]. split; [by vm_compute|]. split; [by vm_compute|].
  intros inp wte wpe m. by apply kernel2_inactive.
Qed.

(** ** The kernel selection of [main] *)

Example atoi_examples :
  atoi "2" = 2 ∧ atoi "  -12x" = -12 ∧ atoi "+7" = 7 ∧ atoi "three" = 0 ∧
  atoi "" = 0 ∧ atoi "1abc" = 1.
Proof. repeat split; by vm_compute. Qed.

Lemma digits_no_digit (s : string) :
  match s with String d _ => digit_of d = None | EmptyString => True end →
  digits 0 s = 0.
Proof. destruct s as [|d s]; [done|]. simpl. by intros ->. Qed.

(** [atoi] of a string that does not start as a number is 0. *)
Lemma atoi_non_numeric (s : string) : non_numeric s → atoi s = 0.
Proof.
  unfold non_numeric, atoi. destruct (skip_space s) as [|c s']; [done|].
  intros [Hc Hsign].
  destruct (Ascii.eqb_spec c "-") as [->|Hm].
  { rewrite digits_no_digit; [done|]. apply Hsign. by left. }
  destruct (Ascii.eqb_spec c "+") as [->|Hp].
  { rewrite digits_no_digit; [done|]. apply Hsign. by right. }
  simpl. by rewrite Hc.
Qed.

Lemma proc_bind_ret_l {A B : Type} (a : A) (k : A → proc B) :
  proc_bind (proc_ret a) k = k a.
Proof. unfold proc_bind, proc_ret. by destruct (k a). Qed.

Lemma proc_bind_cons {A B : Type} (e : event) (es : list event) (r : outcome A)
    (k : A → proc B) :
  ∃ es' r', proc_bind (e :: es, r) k = (e :: es', r').
Proof.
  unfold proc_bind. destruct r as [a| |]; [|eauto|eauto].
  destruct (k a) as [es' r']. simpl. eauto.
Qed.

Section MainFacts.

Context {F : Type}.
Variable fadd : F → F → F.
Variable make_random_int : Z → Z → list Z.
Variable make_random_float : Z → list F.
Variable malloc_float : Z → list F.
Variable cudaMalloc_float : Z → list F.
Variable within_tolerance : F → F → bool.
Variable elapsed : Z → F.
Variable bandwidth : Z → F → F.
Variable report : Z → F → F → string.

(** What the specification says of the generators, and a fresh buffer has the
    size asked for. *)
Hypothesis make_random_int_spec : ∀ N V,
  0 <= N → 0 < V → Z.of_nat (length (make_random_int N V)) = N ∧
                   tokens_in_range (make_random_int N V) V.
Hypothesis make_random_float_spec : ∀ N,
  0 <= N → Z.of_nat (length (make_random_float N)) = N.
Hypothesis malloc_float_spec : ∀ N,
  0 <= N → Z.of_nat (length (malloc_float N)) = N.

Abbreviation the_main :=
  (main fadd make_random_int make_random_float malloc_float cudaMalloc_float
     within_tolerance elapsed bandwidth report).

(** Line 166: the reference returns on the tensors [main] builds. *)
Lemma main_reference_returns :
  ∃ out, run_out (encoder_forward_cpu fadd (make_random_int 8192 50257)
                    (make_random_float 38597376) (make_random_float 786432) 8 1024 768)
           (malloc_float 6291456) = Some out.
Proof using make_random_int_spec make_random_float_spec malloc_float_spec.
  destruct (make_random_int_spec 8192 50257) as [Hl Htok]; [lia|lia|].
  assert (valid_dims 8 1024 768 50257) as Hdims
    by (unfold valid_dims, Int32.INT_MAX; lia).
  assert (shaped (malloc_float 6291456) (make_random_int 8192 50257)
            (make_random_float 38597376) (make_random_float 786432) 8 1024 768 50257)
    as Hshape.
  { unfold shaped. rewrite malloc_float_spec, Hl, !make_random_float_spec by lia. lia. }
  destruct (run_out_triple _ _ _ (malloc_float 6291456)
              (cpu_fills fadd _ _ _ 8 1024 768 50257 _ [] Hdims Hshape Htok)
              (filled_start _ _ _ _ _ _ _ _ _ [] 0)) as ([] & m & _ & Erun & _).
  eauto.
Qed.

(** [main] up to the dispatch, for the selector [kernel_num]. *)
Lemma main_unfold (argv : list string) :
  ∃ out, the_main argv =
    (printf ("Using kernel " +:+ pretty (match argv with
                                         | _ :: arg :: _ => atoi arg
                                         | _ => 2
                                         end) +:+ nl);;
     d_out <- encoder_forward fadd (match argv with
                                    | _ :: arg :: _ => atoi arg
                                    | _ => 2
                                    end) (cudaMalloc_float 6291456)
                (make_random_int 8192 50257) (make_random_float 38597376)
                (make_random_float 786432) 8 1024 768 256;;
     validate_result within_tolerance d_out out;;
     benchmark_loop fadd elapsed bandwidth report (match argv with
                                                    | _ :: arg :: _ => atoi arg
                                                    | _ => 2
                                                    end)
       (make_random_int 8192 50257) (make_random_float 38597376)
       (make_random_float 786432) 8 1024 768 d_out block_sizes;;
     proc_ret 0)%proc.
Proof using make_random_int_spec make_random_float_spec malloc_float_spec.
  destruct main_reference_returns as [out Eout]. exists out.
  unfold main, main_with. cbv zeta.
  change (Int32.mul 8 1024) with 8192.
  change (Int32.mul 8192 768) with 6291456.
  change (Int32.mul 50257 768) with 38597376.
  change (Int32.mul 1024 768) with 786432.
  rewrite Eout. unfold host. by rewrite proc_bind_ret_l.
Qed.

(** C10: with a first argument the selector is [atoi] of it, without one it
    is 2. A selector other than 1 and 2 (in particular the 0 that [atoi]
    gives for every string that does not start as a number) makes [main]
    print the selector and the invalid-kernel message and exit with status
    1, from the dispatcher: no kernel is launched, nothing is validated or
    timed. A selector 1 or 2 makes it launch that kernel with block size
    256. The generators and [malloc] are taken to return buffers of the size
    asked for, the token indices in [[0, V)]. *)
Theorem main_kernel_selection (argv : list string) :
  let kernel_num := match argv with
                    | _ :: arg :: _ => atoi arg
                    | _ => 2
                    end in
  (kernel_num ≠ 1 → kernel_num ≠ 2 →
     the_main argv
     = ([Stdout ("Using kernel " +:+ pretty kernel_num +:+ nl);
         Stdout ("Invalid kernel number" +:+ nl)], Exited 1)) ∧
  (kernel_num = 1 → ∃ es r,
     the_main argv
     = (Stdout ("Using kernel 1" +:+ nl) :: KernelLaunch 1 32 256 :: es, r)) ∧
  (kernel_num = 2 → ∃ es r,
     the_main argv
     = (Stdout ("Using kernel 2" +:+ nl) :: KernelLaunch 2 24576 256 :: es, r)) ∧
  (∀ prog arg rest, argv = prog :: arg :: rest → non_numeric arg →
     atoi arg = 0 ∧
     the_main argv
     = ([Stdout ("Using kernel 0" +:+ nl);
         Stdout ("Invalid kernel number" +:+ nl)], Exited 1)).
Proof using make_random_int_spec make_random_float_spec malloc_float_spec.
  intros kernel_num. destruct (main_unfold argv) as [out Emain]. fold kernel_num in Emain.
  assert (kernel_num ≠ 1 → kernel_num ≠ 2 →
          the_main argv
          = ([Stdout ("Using kernel " +:+ pretty kernel_num +:+ nl);
              Stdout ("Invalid kernel number" +:+ nl)], Exited 1)) as Hinvalid.
  { intros H1 H2. rewrite Emain. by rewrite encoder_forward_invalid by done. }
  split; [done|]. split; [|split].
  - intros E1. rewrite Emain, E1. unfold encoder_forward.
    destruct (encoder_forward1_launches fadd (cudaMalloc_float 6291456)
                (make_random_int 8192 50257) (make_random_float 38597376)
                (make_random_float 786432) 8 1024 768 256) as (es & r & ->).
    change (ceil_div (Int32.mul 8 1024) 256) with 32.
    destruct (proc_bind_cons (KernelLaunch 1 32 256) es r
                (λ d_out, validate_result within_tolerance d_out out;;
                   benchmark_loop fadd elapsed bandwidth report 1
                     (make_random_int 8192 50257) (make_random_float 38597376)
                     (make_random_float 786432) 8 1024 768 d_out block_sizes;;
                   proc_ret 0)%proc) as (es' & r' & ->).
    by exists es', r'.
  - intros E2. rewrite Emain, E2. unfold encoder_forward.
    destruct (encoder_forward2_launches fadd (cudaMalloc_float 6291456)
                (make_random_int 8192 50257) (make_random_float 38597376)
                (make_random_float 786432) 8 1024 768 256) as (es & r & ->).
    change (ceil_div (Int32.mul (Int32.mul 8 1024) 768) 256) with 24576.
    destruct (proc_bind_cons (KernelLaunch 2 24576 256) es r
                (λ d_out, validate_result within_tolerance d_out out;;
                   benchmark_loop fadd elapsed bandwidth report 2
                     (make_random_int 8192 50257) (make_random_float 38597376)
                     (make_random_float 786432) 8 1024 768 d_out block_sizes;;
                   proc_ret 0)%proc) as (es' & r' & ->).
    by exists es', r'.
  - intros prog arg rest -> Hnon. pose proof (atoi_non_numeric arg Hnon) as E0.
    split; [done|]. simpl in kernel_num. subst kernel_num.
    rewrite Hinvalid by (rewrite E0; lia). by rewrite E0.
Qed.

End MainFacts.

Lemma main_kernel_selection_witness :
  main f32_add last_token_inp constant_floats nan_floats nan_floats
    (λ _ _, true) (λ _, f32_of_Z 1) (λ _ _, f32_of_Z 1) (λ block_size _ _, pretty block_size)
    ["positional_forward"; "three"]
  = ([Stdout ("Using kernel 0" +:+ nl); Stdout ("Invalid kernel number" +:+ nl)],
     Exited 1).
Proof.
  destruct (main_kernel_selection f32_add last_token_inp constant_floats nan_floats
              nan_floats (λ _ _, true) (λ _, f32_of_Z 1) (λ _ _, f32_of_Z 1)
              (λ block_size _ _, pretty block_size)
              last_token_inp_spec constant_floats_spec nan_floats_spec
              ["positional_forward"; "three"]) as (_ & _ & _ & H).
  destruct (H "positional_forward" "three" [] eq_refl) as [_ E]; [|exact E].
  split; [done|]. intros [Heq|Heq]; discriminate Heq.
Defined.


(** * Further properties of the code *)

(** ** The reference and the dispatcher on valid inputs *)

(** Lines 23-37 on valid inputs: the reference returns, [out] filled. *)
Lemma cpu_returns {F : Type} (fadd : F → F → F) (out : list F) (inp : list Z)
    (wte wpe : list F) (B T C V : Z) :
  valid_dims B T C V → shaped out inp wte wpe B T C V → tokens_in_range inp V →
  ∃ m, filled fadd inp wte wpe B T C V out [] 0 (B * T * C) m ∧
       encoder_forward_cpu fadd inp wte wpe B T C (Memory out []) = Some ((), m) ∧
       run_out (encoder_forward_cpu fadd inp wte wpe B T C) out = Some (m_out m).
Proof.
  intros Hdims Hshape Htok.
  destruct (run_out_triple _ _ _ out
              (cpu_fills fadd inp wte wpe B T C V out [] Hdims Hshape Htok)
              (filled_start _ _ _ _ _ _ _ _ _ [] 0)) as ([] & m & E & Erun & Hm).
  by exists m.
Qed.

(** A filled buffer has the shape of the buffer the computation started on. *)
Lemma filled_shaped {F : Type} (fadd : F → F → F) (out : list F) (inp : list Z)
    (wte wpe : list F) (B T C V : Z) (log0 : list access) (lo hi : Z) (m : memory F) :
  shaped out inp wte wpe B T C V →
  filled fadd inp wte wpe B T C V out log0 lo hi m →
  shaped (m_out m) inp wte wpe B T C V.
Proof.
  intros (Ho & Hi & Hw & Hp) (Hl & _). unfold shaped. rewrite Hl. done.
Qed.

(** Lines 108-124 on valid inputs, for the selectors 1 and 2: one launch, no
    fault, [out] filled. *)
Lemma encoder_forward_returns {F : Type} (fadd : F → F → F) (d_out : list F)
    (inp : list Z) (wte wpe : list F) (B T C V kernel_num block_size : Z) :
  valid_dims B T C V → shaped d_out inp wte wpe B T C V → tokens_in_range inp V →
  kernel_num = 1 ∨ kernel_num = 2 →
  block_size_ok (worker_count kernel_num B T C) block_size →
  ∃ m, filled fadd inp wte wpe B T C V d_out [] 0 (B * T * C) m ∧
       encoder_forward fadd kernel_num d_out inp wte wpe B T C block_size
       = ([launch_event kernel_num B T C block_size], Returned (m_out m)).
Proof.
  intros Hdims Hshape Htok [-> | ->] Hbs; unfold launch_event, worker_count in *; simpl in *.
  - by apply (encoder_forward1_returns fadd inp wte wpe B T C V d_out).
  - by apply (encoder_forward2_returns fadd inp wte wpe B T C V d_out).
Qed.

(** An operation that maps a buffer to itself with one event does so
    however often it is repeated. *)
Lemma repeat_kernel_fixed {F : Type} (n : nat) (kernel : list F → proc (list F))
    (d_out : list F) (e : event) :
  kernel d_out = ([e], Returned d_out) →
  repeat_kernel n kernel d_out = (replicate n e, Returned d_out).
Proof.
  intros Hk. induction n as [|n IH]; [done|].
  simpl. rewrite Hk. unfold proc_bind. by rewrite IH.
Qed.

(** ** The output does not depend on what [out] held *)

(** X1: on valid inputs the reference overwrites every element of [out]:
    started on any two buffers of the right size it returns the same output,
    of that size, and run again on its own output it returns it unchanged.
    The memory of line 140, which is not initialised, never shows in the
    result. *)
Theorem encoder_forward_cpu_overwrites {F : Type} (fadd : F → F → F)
    (out1 out2 : list F) (inp : list Z) (wte wpe : list F) (B T C V : Z) :
  valid_dims B T C V →
  shaped out1 inp wte wpe B T C V → shaped out2 inp wte wpe B T C V →
  tokens_in_range inp V →
  ∃ out', run_out (encoder_forward_cpu fadd inp wte wpe B T C) out1 = Some out' ∧
          run_out (encoder_forward_cpu fadd inp wte wpe B T C) out2 = Some out' ∧
          run_out (encoder_forward_cpu fadd inp wte wpe B T C) out' = Some out' ∧
          Z.of_nat (length out') = B * T * C.
Proof.
  intros Hdims Hshape1 Hshape2 Htok.
  destruct (cpu_returns fadd out1 inp wte wpe B T C V Hdims Hshape1 Htok)
    as (m1 & Hm1 & _ & E1).
  destruct (cpu_returns fadd out2 inp wte wpe B T C V Hdims Hshape2 Htok)
    as (m2 & Hm2 & _ & E2).
  pose proof (filled_shaped _ _ _ _ _ _ _ _ _ _ _ _ _ Hshape1 Hm1) as Hshape'.
  destruct (cpu_returns fadd (m_out m1) inp wte wpe B T C V Hdims Hshape' Htok)
    as (m3 & Hm3 & _ & E3).
  pose proof Hshape1 as (Hl1 & _). pose proof Hshape2 as (Hl2 & _).
  pose proof Hshape' as (Hl' & _).
  exists (m_out m1). split; [done|]. split; [|split; [|done]].
  - rewrite E2. f_equal. symmetry.
    by apply (filled_unique fadd inp wte wpe B T C V out1 out2).
  - rewrite E3. f_equal. symmetry.
    by apply (filled_unique fadd inp wte wpe B T C V out1 (m_out m1)).
Qed.

Lemma encoder_forward_cpu_overwrites_witness :
  ∃ out', run_out (encoder_forward_cpu f32_add ex_inp ex_wte ex_wpe 2 2 2) ex_out0
          = Some out' ∧
          run_out (encoder_forward_cpu f32_add ex_inp ex_wte ex_wpe 2 2 2) ex_d_out0
          = Some out' ∧
          run_out (encoder_forward_cpu f32_add ex_inp ex_wte ex_wpe 2 2 2) out' = Some out' ∧
          Z.of_nat (length out') = 2 * 2 * 2.
Proof.
  exact (encoder_forward_cpu_overwrites f32_add ex_out0 ex_d_out0 ex_inp ex_wte ex_wpe
           2 2 2 3 ex_valid_dims ex_shaped ex_d_shaped ex_tokens).
Defined.

(** X2: on valid inputs and for a selector 1 or 2, the dispatcher returns the
    same buffer whatever the device buffer held, and returns that buffer
    unchanged when it is invoked on it again; so invoking it any number of
    times back to back, each time on the buffer the call before left (as the
    timing of lines 177-179 does), makes that many launches and leaves the
    output of a single invocation. *)
Theorem encoder_forward_idempotent {F : Type} (fadd : F → F → F)
    (d_out1 d_out2 : list F) (inp : list Z) (wte wpe : list F)
    (B T C V kernel_num block_size : Z) :
  valid_dims B T C V →
  shaped d_out1 inp wte wpe B T C V → shaped d_out2 inp wte wpe B T C V →
  tokens_in_range inp V →
  kernel_num = 1 ∨ kernel_num = 2 →
  block_size_ok (worker_count kernel_num B T C) block_size →
  let dispatch := λ d_out,
    encoder_forward fadd kernel_num d_out inp wte wpe B T C block_size in
  let e := launch_event kernel_num B T C block_size in
  ∃ out', dispatch d_out1 = ([e], Returned out') ∧
          dispatch d_out2 = ([e], Returned out') ∧
          dispatch out' = ([e], Returned out') ∧
          ∀ n, repeat_kernel (S n) dispatch d_out1 = (replicate (S n) e, Returned out').
Proof.
  intros Hdims Hshape1 Hshape2 Htok Hk Hbs dispatch e.
  destruct (encoder_forward_returns fadd d_out1 inp wte wpe B T C V kernel_num block_size
              Hdims Hshape1 Htok Hk Hbs) as (m1 & Hm1 & E1).
  destruct (encoder_forward_returns fadd d_out2 inp wte wpe B T C V kernel_num block_size
              Hdims Hshape2 Htok Hk Hbs) as (m2 & Hm2 & E2).
  pose proof (filled_shaped _ _ _ _ _ _ _ _ _ _ _ _ _ Hshape1 Hm1) as Hshape'.
  destruct (encoder_forward_returns fadd (m_out m1) inp wte wpe B T C V kernel_num
              block_size Hdims Hshape' Htok Hk Hbs) as (m3 & Hm3 & E3).
  pose proof Hshape1 as (Hl1 & _). pose proof Hshape2 as (Hl2 & _).
  pose proof Hshape' as (Hl' & _).
  assert (m_out m2 = m_out m1) as E21
    by (by apply (filled_unique fadd inp wte wpe B T C V d_out2 d_out1)).
  assert (m_out m3 = m_out m1) as E31
    by (by apply (filled_unique fadd inp wte wpe B T C V (m_out m1) d_out1)).
  assert (dispatch (m_out m1) = ([e], Returned (m_out m1))) as Hfix.
  { subst dispatch e. simpl. by rewrite E3, E31. }
  exists (m_out m1). split; [done|]. split; [|split; [done|]].
  - subst dispatch e. simpl. by rewrite E2, E21.
  - intros n. simpl. subst dispatch. simpl. rewrite E1. unfold proc_bind.
    by rewrite (repeat_kernel_fixed n _ (m_out m1) e Hfix).
Qed.

Lemma encoder_forward_idempotent_witness :
  ∃ out', encoder_forward f32_add 1 ex_d_out0 ex_inp ex_wte ex_wpe 2 2 2 32
          = ([launch_event 1 2 2 2 32], Returned out') ∧
          encoder_forward f32_add 1 ex_out0 ex_inp ex_wte ex_wpe 2 2 2 32
          = ([launch_event 1 2 2 2 32], Returned out') ∧
          encoder_forward f32_add 1 out' ex_inp ex_wte ex_wpe 2 2 2 32
          = ([launch_event 1 2 2 2 32], Returned out') ∧
          ∀ n, repeat_kernel (S n)
                 (λ d_out, encoder_forward f32_add 1 d_out ex_inp ex_wte ex_wpe 2 2 2 32)
                 ex_d_out0
               = (replicate (S n) (launch_event 1 2 2 2 32), Returned out').
Proof.
  apply (encoder_forward_idempotent f32_add ex_d_out0 ex_out0 ex_inp ex_wte ex_wpe
           2 2 2 3 1 32 ex_valid_dims ex_d_shaped ex_shaped ex_tokens).
  - by left.
  - split; [lia|]. by vm_compute.
Defined.

(** ** The threads in any order *)

(** X3: on valid inputs, the threads of a launch of the second kernel that
    covers [[0, B*T*C)], run one after the other in any order whatever, leave
    in the device buffer the output of the reference: no thread depends on
    what another thread wrote. *)
Theorem kernel2_thread_order {F : Type} (fadd : F → F → F)
    (out d_out : list F) (inp : list Z) (wte wpe : list F) (B T C V : Z)
    (grid_size block_size : Z) (threads : list (Z * Z)) :
  valid_dims B T C V →
  shaped out inp wte wpe B T C V → shaped d_out inp wte wpe B T C V →
  tokens_in_range inp V →
  0 <= grid_size → 0 <= block_size → grid_size * block_size <= 2147483648 →
  B * T * C <= grid_size * block_size →
  threads ≡ₚ all_threads grid_size block_size →
  ∃ out', run_out (encoder_forward_cpu fadd inp wte wpe B T C) out = Some out' ∧
          run_out (run_threads threads block_size (λ blockIdx blockDim threadIdx,
            encoder_forward_kernel2 fadd inp wte wpe blockIdx blockDim threadIdx B T C))
            d_out = Some out'.
Proof.
  intros Hdims Hshape Hshape' Htok Hg Hb Hfit Hcover Hperm.
  rewrite (kernel2_any_order fadd inp wte wpe B T C V d_out grid_size block_size
             Hdims Hshape' Htok Hb Hfit threads Hg Hperm).
  destruct (cpu_returns fadd out inp wte wpe B T C V Hdims Hshape Htok)
    as (m & Hm & _ & Erun).
  destruct (run_out_triple _ _ _ d_out
              (launch2_fills fadd inp wte wpe B T C V d_out [] Hdims Hshape' Htok
                 grid_size block_size Hg Hb Hfit Hcover)
              (filled_start _ _ _ _ _ _ _ _ _ [] 0)) as ([] & m' & _ & Erun' & Hm').
  exists (m_out m). split; [done|]. rewrite Erun'. f_equal.
  destruct Hshape as (Hl & _), Hshape' as (Hl' & _).
  by apply (filled_unique fadd inp wte wpe B T C V d_out out).
Qed.

Lemma kernel2_thread_order_witness :
  ∃ out', run_out (encoder_forward_cpu f32_add ex_inp ex_wte ex_wpe 2 2 2) ex_out0
          = Some out' ∧
          run_out (run_threads (reverse (all_threads 3 3)) 3
            (λ blockIdx blockDim threadIdx,
               encoder_forward_kernel2 f32_add ex_inp ex_wte ex_wpe
                 blockIdx blockDim threadIdx 2 2 2)) ex_d_out0 = Some out'.
Proof.
  apply (kernel2_thread_order f32_add ex_out0 ex_d_out0 ex_inp ex_wte ex_wpe 2 2 2 3 3 3
           (reverse (all_threads 3 3)) ex_valid_dims ex_shaped ex_d_shaped ex_tokens);
    [lia|lia|lia|lia|apply reverse_Permutation].
Defined.

(** X4: the same for the first kernel, each thread of which writes a whole
    row: the threads of a launch that covers [[0, B*T)], in any order, leave
    the output of the reference. *)
Theorem kernel1_thread_order {F : Type} (fadd : F → F → F)
    (out d_out : list F) (inp : list Z) (wte wpe : list F) (B T C V : Z)
    (grid_size block_size : Z) (threads : list (Z * Z)) :
  valid_dims B T C V →
  shaped out inp wte wpe B T C V → shaped d_out inp wte wpe B T C V →
  tokens_in_range inp V →
  0 <= grid_size → 0 <= block_size → grid_size * block_size <= 2147483648 →
  B * T <= grid_size * block_size →
  threads ≡ₚ all_threads grid_size block_size →
  ∃ out', run_out (encoder_forward_cpu fadd inp wte wpe B T C) out = Some out' ∧
          run_out (run_threads threads block_size (λ blockIdx blockDim threadIdx,
            encoder_forward_kernel1 fadd inp wte wpe blockIdx blockDim threadIdx B T C))
            d_out = Some out'.
Proof.
  intros Hdims Hshape Hshape' Htok Hg Hb Hfit Hcover Hperm.
  rewrite (kernel1_any_order fadd inp wte wpe B T C V d_out grid_size block_size
             Hdims Hshape' Htok Hb Hfit threads Hg Hperm).
  destruct (cpu_returns fadd out inp wte wpe B T C V Hdims Hshape Htok)
    as (m & Hm & _ & Erun).
  destruct (run_out_triple _ _ _ d_out
              (launch1_fills fadd inp wte wpe B T C V d_out [] Hdims Hshape' Htok
                 grid_size block_size Hg Hb Hfit Hcover)
              (filled_start _ _ _ _ _ _ _ _ _ [] 0)) as ([] & m' & _ & Erun' & Hm').
  exists (m_out m). split; [done|]. rewrite Erun'. f_equal.
  destruct Hshape as (Hl & _), Hshape' as (Hl' & _).
  by apply (filled_unique fadd inp wte wpe B T C V d_out out).
Qed.

Lemma kernel1_thread_order_witness :
  ∃ out', run_out (encoder_forward_cpu f32_add ex_inp ex_wte ex_wpe 2 2 2) ex_out0
          = Some out' ∧
          run_out (run_threads (reverse (all_threads 2 3)) 3
            (λ blockIdx blockDim threadIdx,
               encoder_forward_kernel1 f32_add ex_inp ex_wte ex_wpe
                 blockIdx blockDim threadIdx 2 2 2)) ex_d_out0 = Some out'.
Proof.
  apply (kernel1_thread_order f32_add ex_out0 ex_d_out0 ex_inp ex_wte ex_wpe 2 2 2 3 2 3
           (reverse (all_threads 2 3)) ex_valid_dims ex_shaped ex_d_shaped ex_tokens);
    [lia|lia|lia|lia|apply reverse_Permutation].
Defined.

(** ** What one thread does to [out] *)

(** X5: on valid inputs, a thread whose index
    [idx = blockIdx * block_size + threadIdx] fits in [int], started on any
    contents of [out], does not fault and keeps the length of [out]. A
    thread of the first kernel with [idx < B*T] leaves the embedding at the
    offsets [idx*C, ..., idx*C + C - 1] and nothing else changed; a thread of
    the second kernel with [idx < B*T*C] leaves the embedding at the offset
    [idx] and nothing else changed; a thread beyond the worker count changes
    nothing. *)
Theorem kernel_thread_effect {F : Type} (fadd : F → F → F)
    (inp : list Z) (wte wpe : list F) (B T C V : Z)
    (blockIdx block_size threadIdx : Z) (m : memory F) :
  valid_dims B T C V → shaped (m_out m) inp wte wpe B T C V → tokens_in_range inp V →
  0 <= blockIdx → 0 <= block_size → 0 <= threadIdx →
  blockIdx * block_size + threadIdx <= Int32.INT_MAX →
  (∃ m', encoder_forward_kernel1 fadd inp wte wpe blockIdx block_size threadIdx B T C m
         = Some ((), m') ∧
     length (m_out m') = length (m_out m) ∧
     ∀ j, load (m_out m') j =
          if decide (thread_writes C (B * T) block_size (blockIdx, threadIdx) j)
          then embedding_at fadd inp wte wpe T C j else load (m_out m) j) ∧
  (∃ m', encoder_forward_kernel2 fadd inp wte wpe blockIdx block_size threadIdx B T C m
         = Some ((), m') ∧
     length (m_out m') = length (m_out m) ∧
     ∀ j, load (m_out m') j =
          if decide (thread_writes 1 (B * T * C) block_size (blockIdx, threadIdx) j)
          then embedding_at fadd inp wte wpe T C j else load (m_out m) j).
Proof.
  intros Hdims Hshape Htok Hblk Hb Hthr Hfit. pose proof Hshape as (Hl & _).
  assert (launched block_size (blockIdx, threadIdx)) as Hlaunched by done.
  split.
  - destruct (kernel1_effect fadd inp wte wpe B T C V (m_out m) block_size
                Hdims Hshape Htok Hb (blockIdx, threadIdx) m Hlaunched Hl)
      as (m' & E & Hl' & Hj).
    exists m'. split; [done|]. split; [done|]. intros j. destruct (Hj j) as [Hw Ho].
    destruct (decide _); auto.
  - destruct (kernel2_effect fadd inp wte wpe B T C V (m_out m) block_size
                Hdims Hshape Htok Hb (blockIdx, threadIdx) m Hlaunched Hl)
      as (m' & E & Hl' & Hj).
    exists m'. split; [done|]. split; [done|]. intros j. destruct (Hj j) as [Hw Ho].
    destruct (decide _); auto.
Qed.

Lemma kernel_thread_effect_witness :
  (∃ m', encoder_forward_kernel1 f32_add ex_inp ex_wte ex_wpe 0 256 3 2 2 2
           (Memory ex_out0 []) = Some ((), m') ∧
     length (m_out m') = length ex_out0 ∧
     ∀ j, load (m_out m') j =
          if decide (thread_writes 2 (2 * 2) 256 (0, 3) j)
          then embedding_at f32_add ex_inp ex_wte ex_wpe 2 2 j else load ex_out0 j) ∧
  (∃ m', encoder_forward_kernel2 f32_add ex_inp ex_wte ex_wpe 0 256 3 2 2 2
           (Memory ex_out0 []) = Some ((), m') ∧
     length (m_out m') = length ex_out0 ∧
     ∀ j, load (m_out m') j =
          if decide (thread_writes 1 (2 * 2 * 2) 256 (0, 3) j)
          then embedding_at f32_add ex_inp ex_wte ex_wpe 2 2 j else load ex_out0 j).
Proof.
  apply (kernel_thread_effect f32_add ex_inp ex_wte ex_wpe 2 2 2 3 0 256 3
           (Memory ex_out0 []) ex_valid_dims ex_shaped ex_tokens);
    [lia|lia|lia|by vm_compute].
Defined.

(** ** Validation *)




(** ** The accesses made *)

Section LogEffect.

Context {F : Type}.

Lemma log_effect_ret {A} (a : A) : log_effect (M_ret (F := F) a) [].
Proof. intros m a' m' [= _ <-]. by rewrite app_nil_r. Qed.

Lemma log_effect_bind {A B} (c : M F A) (k : A → M F B) (l1 l2 : list access) :
  log_effect c l1 → (∀ a, log_effect (k a) l2) → log_effect (M_bind c k) (l1 ++ l2).
Proof.
  intros Hc Hk m b m''. unfold M_bind.
  destruct (c m) as [[a m']|] eqn:E; [|done]. intros E'.
  rewrite (Hk a _ _ _ E'), (Hc _ _ _ E). by rewrite app_assoc.
Qed.

Lemma log_effect_read_bind {A B} (r : region) (buf : list A) (i : Z) (k : A → M F B)
    (l : list access) :
  (∀ x, load buf i = Some x → log_effect (k x) l) →
  log_effect (M_bind (read r buf i) k) (Read r i :: l).
Proof.
  intros Hk m b m''. unfold M_bind, read.
  destruct (load buf i) as [x|] eqn:E; [|done]. intros E'.
  rewrite (Hk x eq_refl _ _ _ E'). simpl. by rewrite <- app_assoc.
Qed.

Lemma log_effect_lift_bind {A B} (o : option A) (a : A) (k : A → M F B)
    (l : list access) :
  o = Some a → log_effect (k a) l → log_effect (M_bind (M_lift o) k) l.
Proof. intros -> Hk m b m''. unfold M_bind, M_lift. apply Hk. Qed.

Lemma log_effect_write (i : Z) (x : F) : log_effect (write i x) [Write Out i].
Proof.
  intros m a m'. unfold write. destruct (store (m_out m) i x); [|done].
  by intros [= _ <-].
Qed.

Lemma log_effect_for_loop (n : nat) (i : Z) (body : Z → M F unit)
    (l : Z → list access) :
  (∀ k, i <= k < i + Z.of_nat n → log_effect (body k) (l k)) →
  log_effect (for_loop n i body) (seqZ i (Z.of_nat n) ≫= l).
Proof.
  revert i. induction n as [|n IH]; intros i Hbody.
  - apply log_effect_ret.
  - rewrite seqZ_cons by lia. simpl for_loop.
    change ((i :: seqZ (Z.succ i) (Z.pred (Z.of_nat (S n)))) ≫= l)
      with (l i ++ (seqZ (Z.succ i) (Z.pred (Z.of_nat (S n))) ≫= l)).
    apply log_effect_bind; [apply Hbody; lia|]. intros [].
    replace (Z.pred (Z.of_nat (S n))) with (Z.of_nat n) by lia.
    apply IH. intros k Hk. apply Hbody. lia.
Qed.

(** A triple and the log a computation adds, together. *)
Lemma triple_log {A} (P : memory F → Prop) (c : M F A) (Q : A → memory F → Prop)
    (l log : list access) :
  triple P c Q → log_effect c l →
  triple (λ m, P m ∧ m_log m = log) c (λ a m', Q a m' ∧ m_log m' = log ++ l).
Proof.
  intros Hc Hl m [Hm Elog]. destruct (Hc m Hm) as (a & m' & E & HQ).
  exists a, m'. split; [done|]. split; [done|]. by rewrite (Hl _ _ _ E), Elog.
Qed.

End LogEffect.

(** One more index at the end of a range. *)
Lemma seqZ_bind_snoc {A : Type} (f : Z → list A) (n : Z) :
  0 <= n → seqZ 0 (n + 1) ≫= f = (seqZ 0 n ≫= f) ++ f n.
Proof.
  intros Hn. rewrite seqZ_app by lia. rewrite bind_app. f_equal.
  rewrite Z.add_0_l. unfold seqZ. simpl. by rewrite app_nil_r.
Qed.

(** The length of the accesses of a range, when every index makes [k]. *)
Lemma seqZ_bind_length {A : Type} (f : Z → list A) (n k : Z) :
  0 <= n → (∀ i, 0 <= i < n → Z.of_nat (length (f i)) = k) →
  Z.of_nat (length (seqZ 0 n ≫= f)) = n * k.
Proof.
  intros Hn. rewrite <- (Z2Nat.id n) by done.
  induction (Z.to_nat n) as [|n' IH]; intros Hf; [done|].
  replace (Z.of_nat (S n')) with (Z.of_nat n' + 1) by lia.
  rewrite seqZ_bind_snoc by lia. rewrite length_app, Nat2Z.inj_add.
  rewrite IH by (intros i Hi; apply Hf; lia). rewrite Hf by lia. lia.
Qed.

Section Traces.

Context {F : Type}.
Variable fadd : F → F → F.
Variables (inp : list Z) (wte wpe : list F) (B T C V : Z).
Variables (out0 : list F) (log0 : list access).

Hypothesis Hdims : valid_dims B T C V.
Hypothesis Hshape : shaped out0 inp wte wpe B T C V.
Hypothesis Htok : tokens_in_range inp V.

(** The rows before [r] are done: [out] is filled up to row [r] and the log
    holds the accesses of these rows, row after row. *)
Abbreviation rows_done r m :=
  (filled fadd inp wte wpe B T C V out0 log0 0 (r * C) m ∧
   m_log m = log0 ++ (seqZ 0 r ≫= row_accesses inp T C)).

(** The same element by element. *)
Abbreviation elements_done j m :=
  (filled fadd inp wte wpe B T C V out0 log0 0 j m ∧
   m_log m = log0 ++ (seqZ 0 j ≫= element_accesses inp T C)).

(** Lines 29-34 and 53-58 add the accesses of their row to the log. *)
Lemma row_log (b t : Z) :
  0 <= b < B → 0 <= t < T →
  log_effect
    (ix <- read Inp inp (Int32.add (Int32.mul b T) t);;
     for_loop (Z.to_nat C) 0 (λ i,
       x <- read Wte wte (Int32.mul ix C + i);;
       y <- read Wpe wpe (Int32.mul t C + i);;
       write (Int32.mul (Int32.mul b T) C + Int32.mul t C + i) (fadd x y)))%M
    (row_accesses inp T C (b * T + t)).
Proof using Hdims Hshape Htok.
  intros Hb Ht. pose proof Hdims as (HB & HT & HC & HN & HV).
  assert (0 <= b * T + t < B * T) as Hr by nia.
  destruct (token_at inp wte wpe B T C V out0 Hshape Htok _ Hr) as (ix & E & Hix).
  destruct (offsets_exact B T C V Hdims b t ix Hb Ht Hix) as (E1 & E2 & E3 & E4 & E5).
  rewrite E1, E2, E3, E4. unfold row_accesses. rewrite E.
  assert ((b * T + t) mod T = t) as ->.
  { rewrite Z.add_comm, Z.mod_add by lia. apply Z.mod_small. lia. }
  apply log_effect_read_bind. intros ix' E'. assert (ix' = ix) as -> by congruence.
  rewrite E5.
  replace (seqZ 0 C) with (seqZ 0 (Z.of_nat (Z.to_nat C))) by (by rewrite Z2Nat.id by lia).
  apply log_effect_for_loop. intros i Hi.
  apply log_effect_read_bind. intros x _. apply log_effect_read_bind. intros y _.
  replace (b * T * C + t * C + i) with ((b * T + t) * C + i) by lia.
  apply log_effect_write.
Qed.

Lemma row_done (b t : Z) :
  0 <= b < B → 0 <= t < T →
  triple (λ m, rows_done (b * T + t) m)
    (ix <- read Inp inp (Int32.add (Int32.mul b T) t);;
     for_loop (Z.to_nat C) 0 (λ i,
       x <- read Wte wte (Int32.mul ix C + i);;
       y <- read Wpe wpe (Int32.mul t C + i);;
       write (Int32.mul (Int32.mul b T) C + Int32.mul t C + i) (fadd x y)))%M
    (λ _ m, rows_done (b * T + t + 1) m).
Proof using Hdims Hshape Htok.
  intros Hb Ht. pose proof Hdims as (HB & HT & HC & HN & HV).
  eapply triple_weaken.
  - eapply triple_log with (l := (row_accesses inp T C (b * T + t)))
             (log := (log0 ++ (seqZ 0 (b * T + t) ≫= row_accesses inp T C))).
    + apply (row_step fadd inp wte wpe B T C V out0 log0 Hdims Hshape Htok b t 0 Hb Ht).
      nia.
    + by apply row_log.
  - auto.
  - intros [] m [Hm El]. split; [done|].
    rewrite El, seqZ_bind_snoc by nia. by rewrite app_assoc.
Qed.

(** Lines 23-37: the reference does the rows one after the other. *)
Lemma cpu_rows :
  triple (λ m, rows_done 0 m) (encoder_forward_cpu fadd inp wte wpe B T C)
    (λ _ m, rows_done (B * T) m).
Proof using Hdims Hshape Htok.
  pose proof Hdims as (HB & HT & HC & HN & HV). unfold encoder_forward_cpu.
  eapply triple_weaken.
  - apply (triple_for_loop (λ b m, rows_done (b * T) m)). intros b Hb.
    eapply triple_weaken.
    + apply (triple_for_loop (λ t m, rows_done (b * T + t) m)). intros t Ht.
      eapply triple_weaken.
      * apply (row_done b t); lia.
      * auto.
      * intros [] m Hm. simpl in Hm.
        by replace (b * T + (t + 1)) with (b * T + t + 1) by lia.
    + intros m Hm. by rewrite Z.add_0_r.
    + intros [] m Hm. simpl in Hm.
      by replace ((b + 1) * T) with (b * T + (0 + Z.of_nat (Z.to_nat T))) by lia.
  - intros m Hm. by rewrite Z.mul_0_l.
  - intros [] m Hm. simpl in Hm.
    by replace (B * T) with ((0 + Z.of_nat (Z.to_nat B)) * T) by lia.
Qed.

(** Lines 49-59: an active thread of the first kernel adds the accesses of
    its row. *)
Lemma kernel1_log (blockIdx blockDim threadIdx idx : Z) :
  thread_idx blockIdx blockDim threadIdx = idx → 0 <= idx < B * T →
  log_effect
    (encoder_forward_kernel1 fadd inp wte wpe blockIdx blockDim threadIdx B T C)
    (row_accesses inp T C idx).
Proof using Hdims Hshape Htok.
  intros Eidx Hidx. pose proof Hdims as (HB & HT & HC & HN & HV).
  unfold encoder_forward_kernel1. rewrite Eidx.
  destruct (worker_counts B T C V Hdims) as [-> _].
  destruct (Z.ltb_spec idx (B * T)); [|lia].
  destruct (row_bound idx B T) as [Hb Ht]; [lia|done|].
  apply log_effect_lift_bind with (a := idx / T); [apply Int32Facts.div_nonneg; lia|].
  apply log_effect_lift_bind with (a := idx mod T); [apply Int32Facts.rem_nonneg; lia|].
  pose proof (row_log (idx / T) (idx mod T) Hb Ht) as Hrow.
  by rewrite row_split in Hrow by lia.
Qed.

(** Lines 69-81: an active thread of the second kernel adds the accesses of
    its element. *)
Lemma kernel2_log (blockIdx blockDim threadIdx idx : Z) :
  thread_idx blockIdx blockDim threadIdx = idx → 0 <= idx < B * T * C →
  log_effect
    (encoder_forward_kernel2 fadd inp wte wpe blockIdx blockDim threadIdx B T C)
    (element_accesses inp T C idx).
Proof using Hdims Hshape Htok.
  intros Eidx Hidx. pose proof Hdims as (HB & HT & HC & HN & HV).
  unfold encoder_forward_kernel2. rewrite Eidx.
  destruct (worker_counts B T C V Hdims) as [_ ->].
  destruct (Z.ltb_spec idx (B * T * C)); [|lia].
  set (r := idx / C). set (c := idx mod C).
  assert (0 <= c < C) as Hc by (apply Z.mod_pos_bound; lia).
  assert (idx = r * C + c) as Hsplit by (pose proof (Z.div_mod idx C); subst r c; lia).
  assert (0 <= r < B * T) as Hr.
  { subst r. split; [apply Z.div_pos; lia|apply Z.div_lt_upper_bound; lia]. }
  destruct (row_bound r B T) as [Hb Ht]; [lia|done|].
  destruct (token_at inp wte wpe B T C V out0 Hshape Htok r Hr) as (ix & E & Hix).
  destruct (offsets_exact B T C V Hdims (r / T) (r mod T) ix Hb Ht Hix)
    as (E1 & E2 & E3 & E4 & E5).
  apply log_effect_lift_bind with (a := r); [apply Int32Facts.div_nonneg; lia|].
  apply log_effect_lift_bind with (a := r / T); [apply Int32Facts.div_nonneg; lia|].
  apply log_effect_lift_bind with (a := r mod T); [apply Int32Facts.rem_nonneg; lia|].
  apply log_effect_lift_bind with (a := c); [apply Int32Facts.rem_nonneg; lia|].
  rewrite E1, E2, E3, E4, row_split by lia.
  unfold element_accesses. fold r c. rewrite E.
  apply log_effect_read_bind. intros ix' E'. assert (ix' = ix) as -> by congruence.
  rewrite E5.
  apply log_effect_read_bind. intros x _. apply log_effect_read_bind. intros y _.
  replace (r / T * T * C + r mod T * C + c) with idx
    by (pose proof (row_split r T); nia).
  apply log_effect_write.
Qed.

(** A launch of the first kernel that covers [[0, B*T)] does the rows one
    after the other. *)
Lemma launch1_rows (grid_size block_size : Z) :
  0 <= grid_size → 0 <= block_size → grid_size * block_size <= 2147483648 →
  B * T <= grid_size * block_size →
  triple (λ m, rows_done 0 m)
    (launch grid_size block_size (λ blockIdx blockDim threadIdx,
       encoder_forward_kernel1 fadd inp wte wpe blockIdx blockDim threadIdx B T C))
    (λ _ m, rows_done (B * T) m).
Proof using Hdims Hshape Htok.
  intros Hg Hb Hfit Hcover. destruct (worker_counts B T C V Hdims) as [EN _].
  pose proof Hdims as (HB & HT & HC & HN & HV).
  eapply triple_weaken.
  - apply (triple_launch (λ idx m, rows_done (Z.min idx (B * T)) m)); [done|done|].
    intros blk thr Hblk Hthr. set (idx := blk * block_size + thr).
    assert (0 <= idx < grid_size * block_size) as Hidx by (subst idx; nia).
    assert (thread_idx blk block_size thr = idx) as Eidx.
    { apply thread_idx_exact; unfold Int32.INT_MAX; lia. }
    destruct (decide (idx < B * T)) as [Hlt|Hge].
    + rewrite !Z.min_l by lia. eapply triple_weaken.
      * eapply triple_log with (l := (row_accesses inp T C idx))
                 (log := (log0 ++ (seqZ 0 idx ≫= row_accesses inp T C))).
        -- apply (kernel1_active fadd inp wte wpe B T C V out0 log0 Hdims Hshape Htok
                    blk block_size thr idx 0 Eidx); [lia|nia].
        -- apply kernel1_log; [done|lia].
      * auto.
      * intros [] m [Hm El]. split; [done|].
        rewrite El, seqZ_bind_snoc by lia. by rewrite app_assoc.
    + rewrite !Z.min_r by lia. intros m Hm. exists (), m. split; [|done].
      apply kernel1_inactive. rewrite Eidx, EN. lia.
  - intros m Hm. by rewrite Z.min_l by nia.
  - intros [] m Hm. simpl in Hm. by rewrite Z.min_r in Hm by lia.
Qed.

(** A launch of the second kernel that covers [[0, B*T*C)] does the elements
    one after the other. *)
Lemma launch2_elements (grid_size block_size : Z) :
  0 <= grid_size → 0 <= block_size → grid_size * block_size <= 2147483648 →
  B * T * C <= grid_size * block_size →
  triple (λ m, elements_done 0 m)
    (launch grid_size block_size (λ blockIdx blockDim threadIdx,
       encoder_forward_kernel2 fadd inp wte wpe blockIdx blockDim threadIdx B T C))
    (λ _ m, elements_done (B * T * C) m).
Proof using Hdims Hshape Htok.
  intros Hg Hb Hfit Hcover. destruct (worker_counts B T C V Hdims) as [_ EN].
  pose proof Hdims as (HB & HT & HC & HN & HV).
  eapply triple_weaken.
  - apply (triple_launch (λ idx m, elements_done (Z.min idx (B * T * C)) m)); [done|done|].
    intros blk thr Hblk Hthr. set (idx := blk * block_size + thr).
    assert (0 <= idx < grid_size * block_size) as Hidx by (subst idx; nia).
    assert (thread_idx blk block_size thr = idx) as Eidx.
    { apply thread_idx_exact; unfold Int32.INT_MAX; lia. }
    destruct (decide (idx < B * T * C)) as [Hlt|Hge].
    + rewrite !Z.min_l by lia. eapply triple_weaken.
      * eapply triple_log with (l := (element_accesses inp T C idx))
                 (log := (log0 ++ (seqZ 0 idx ≫= element_accesses inp T C))).
        -- apply (kernel2_active fadd inp wte wpe B T C V out0 log0 Hdims Hshape Htok
                    blk block_size thr idx 0 Eidx); lia.
        -- apply kernel2_log; [done|lia].
      * auto.
      * intros [] m [Hm El]. split; [done|].
        rewrite El, seqZ_bind_snoc by lia. by rewrite app_assoc.
    + rewrite !Z.min_r by lia. intros m Hm. exists (), m. split; [|done].
      apply kernel2_inactive. rewrite Eidx, EN. lia.
  - intros m Hm. by rewrite Z.min_l by nia.
  - intros [] m Hm. simpl in Hm. by rewrite Z.min_r in Hm by lia.
Qed.

(** A row makes [3*C + 1] accesses, an element 4. *)
Lemma row_accesses_length (r : Z) :
  0 <= r < B * T → Z.of_nat (length (row_accesses inp T C r)) = 3 * C + 1.
Proof using Hdims Hshape Htok.
  intros Hr. pose proof Hdims as (HB & HT & HC & HN & HV).
  destruct (token_at inp wte wpe B T C V out0 Hshape Htok r Hr) as (ix & E & _).
  unfold row_accesses. rewrite E. simpl length.
  rewrite Nat2Z.inj_succ, (seqZ_bind_length _ C 3); [lia|lia|done].
Qed.

Lemma element_accesses_length (j : Z) :
  0 <= j < B * T * C → Z.of_nat (length (element_accesses inp T C j)) = 4.
Proof using Hdims Hshape Htok.
  intros Hj. pose proof Hdims as (HB & HT & HC & HN & HV).
  assert (0 <= j / C < B * T) as Hr.
  { split; [apply Z.div_pos; lia|apply Z.div_lt_upper_bound; lia]. }
  destruct (token_at inp wte wpe B T C V out0 Hshape Htok _ Hr) as (ix & E & _).
  unfold element_accesses. by rewrite E.
Qed.

End Traces.

(** X7: on valid inputs the reference makes, row after row, the accesses of
    [row_accesses]: the token of the row is read once, then for each channel
    one element of [wte] and one of [wpe] are read and one element of [out] is
    written. Every element of [out] is written exactly once, in the order of
    the offsets, and 3*C + 1 accesses of 4 bytes are made for each of the B*T
    rows. *)
Theorem encoder_forward_cpu_accesses {F : Type} (fadd : F → F → F)
    (out : list F) (inp : list Z) (wte wpe : list F) (B T C V : Z) :
  valid_dims B T C V → shaped out inp wte wpe B T C V → tokens_in_range inp V →
  ∃ m', encoder_forward_cpu fadd inp wte wpe B T C (Memory out []) = Some ((), m') ∧
        m_log m' = seqZ 0 (B * T) ≫= row_accesses inp T C ∧
        writes (m_log m') = seqZ 0 (B * T * C) ∧
        bytes_moved (m_log m') = 4 * (B * T * (3 * C + 1)).
Proof.
  intros Hdims Hshape Htok. pose proof Hdims as (HB & HT & HC & HN & HV).
  destruct (cpu_rows fadd inp wte wpe B T C V out [] Hdims Hshape Htok (Memory out []))
    as ([] & m' & E & Hm & El).
  { split; [apply filled_start|done]. }
  exists m'. split; [done|]. split; [done|]. split.
  - destruct Hm as (_ & _ & _ & log & -> & _ & Hw). simpl. by rewrite Z.sub_0_r in Hw.
  - unfold bytes_moved. rewrite El. simpl.
    rewrite (seqZ_bind_length _ (B * T) (3 * C + 1)); [done|nia|].
    intros r Hr. by apply (row_accesses_length inp wte wpe B T C V out).
Qed.

Lemma encoder_forward_cpu_accesses_witness :
  ∃ m', encoder_forward_cpu f32_add ex_inp ex_wte ex_wpe 2 2 2 (Memory ex_out0 [])
        = Some ((), m') ∧
        m_log m' = seqZ 0 (2 * 2) ≫= row_accesses ex_inp 2 2 ∧
        writes (m_log m') = seqZ 0 (2 * 2 * 2) ∧
        bytes_moved (m_log m') = 4 * (2 * 2 * (3 * 2 + 1)).
Proof.
  exact (encoder_forward_cpu_accesses f32_add ex_out0 ex_inp ex_wte ex_wpe 2 2 2 3
           ex_valid_dims ex_shaped ex_tokens).
Defined.

(** X8: the first kernel is the reference with its rows given to threads: on
    valid inputs the threads of a launch that covers [[0, B*T)], taken in the
    order of their index, make exactly the accesses the reference makes, in
    the same order, and leave the same output. *)
Theorem kernel1_accesses_of_reference {F : Type} (fadd : F → F → F)
    (out d_out : list F) (inp : list Z) (wte wpe : list F) (B T C V : Z)
    (grid_size block_size : Z) :
  valid_dims B T C V →
  shaped out inp wte wpe B T C V → shaped d_out inp wte wpe B T C V →
  tokens_in_range inp V →
  0 <= grid_size → 0 <= block_size → grid_size * block_size <= 2147483648 →
  B * T <= grid_size * block_size →
  ∃ m_cpu m_gpu,
    encoder_forward_cpu fadd inp wte wpe B T C (Memory out []) = Some ((), m_cpu) ∧
    launch grid_size block_size (λ blockIdx blockDim threadIdx,
      encoder_forward_kernel1 fadd inp wte wpe blockIdx blockDim threadIdx B T C)
      (Memory d_out []) = Some ((), m_gpu) ∧
    m_log m_gpu = m_log m_cpu ∧ m_out m_gpu = m_out m_cpu.
Proof.
  intros Hdims Hshape Hshape' Htok Hg Hb Hfit Hcover.
  destruct (cpu_rows fadd inp wte wpe B T C V out [] Hdims Hshape Htok (Memory out []))
    as ([] & m & E & Hm & El).
  { split; [apply filled_start|done]. }
  destruct (launch1_rows fadd inp wte wpe B T C V d_out [] Hdims Hshape' Htok
              grid_size block_size Hg Hb Hfit Hcover (Memory d_out []))
    as ([] & m' & E' & Hm' & El').
  { split; [apply filled_start|done]. }
  exists m, m'. split; [done|]. split; [done|]. split; [by rewrite El, El'|].
  destruct Hshape as (Hl & _), Hshape' as (Hl' & _).
  by apply (filled_unique fadd inp wte wpe B T C V d_out out).
Qed.

Lemma kernel1_accesses_of_reference_witness :
  ∃ m_cpu m_gpu,
    encoder_forward_cpu f32_add ex_inp ex_wte ex_wpe 2 2 2 (Memory ex_out0 [])
    = Some ((), m_cpu) ∧
    launch 2 3 (λ blockIdx blockDim threadIdx,
      encoder_forward_kernel1 f32_add ex_inp ex_wte ex_wpe blockIdx blockDim threadIdx
        2 2 2) (Memory ex_d_out0 []) = Some ((), m_gpu) ∧
    m_log m_gpu = m_log m_cpu ∧ m_out m_gpu = m_out m_cpu.
Proof.
  apply (kernel1_accesses_of_reference f32_add ex_out0 ex_d_out0 ex_inp ex_wte ex_wpe
           2 2 2 3 2 3 ex_valid_dims ex_shaped ex_d_shaped ex_tokens); lia.
Defined.

(** X9: on valid inputs the threads of a launch of the second kernel that
    covers [[0, B*T*C)] make, for every element of [out], exactly the four
    accesses of [element_accesses]: three reads (the token, one element of
    [wte], one of [wpe]) and one write. At 4 bytes each this is B*T*C*4*4
    bytes, the figure of lines 181-184; it is the value of [memory_ops]
    whenever that product fits in [int]. *)
Theorem kernel2_accesses {F : Type} (fadd : F → F → F)
    (d_out : list F) (inp : list Z) (wte wpe : list F) (B T C V : Z)
    (grid_size block_size : Z) :
  valid_dims B T C V → shaped d_out inp wte wpe B T C V → tokens_in_range inp V →
  0 <= grid_size → 0 <= block_size → grid_size * block_size <= 2147483648 →
  B * T * C <= grid_size * block_size →
  ∃ m', launch grid_size block_size (λ blockIdx blockDim threadIdx,
          encoder_forward_kernel2 fadd inp wte wpe blockIdx blockDim threadIdx B T C)
          (Memory d_out []) = Some ((), m') ∧
        m_log m' = seqZ 0 (B * T * C) ≫= element_accesses inp T C ∧
        bytes_moved (m_log m') = B * T * C * 4 * 4 ∧
        (B * T * C * 4 * 4 <= Int32.INT_MAX →
         bytes_moved (m_log m') = memory_ops B T C).
Proof.
  intros Hdims Hshape Htok Hg Hb Hfit Hcover. pose proof Hdims as (HB & HT & HC & HN & HV).
  destruct (launch2_elements fadd inp wte wpe B T C V d_out [] Hdims Hshape Htok
              grid_size block_size Hg Hb Hfit Hcover (Memory d_out []))
    as ([] & m' & E' & Hm' & El').
  { split; [apply filled_start|done]. }
  assert (bytes_moved (m_log m') = B * T * C * 4 * 4) as Hbytes.
  { unfold bytes_moved. rewrite El'. simpl.
    rewrite (seqZ_bind_length _ (B * T * C) 4); [lia|nia|].
    intros j Hj. by apply (element_accesses_length inp wte wpe B T C V d_out). }
  exists m'. split; [done|]. split; [done|]. split; [done|].
  intros Hfits. rewrite Hbytes. symmetry. apply memory_ops_exact; lia.
Qed.

Lemma kernel2_accesses_witness :
  ∃ m', launch 3 3 (λ blockIdx blockDim threadIdx,
          encoder_forward_kernel2 f32_add ex_inp ex_wte ex_wpe blockIdx blockDim threadIdx
            2 2 2) (Memory ex_d_out0 []) = Some ((), m') ∧
        m_log m' = seqZ 0 (2 * 2 * 2) ≫= element_accesses ex_inp 2 2 ∧
        bytes_moved (m_log m') = 2 * 2 * 2 * 4 * 4 ∧
        (2 * 2 * 2 * 4 * 4 <= Int32.INT_MAX →
         bytes_moved (m_log m') = memory_ops 2 2 2).
Proof.
  apply (kernel2_accesses f32_add ex_d_out0 ex_inp ex_wte ex_wpe 2 2 2 3 3 3
           ex_valid_dims ex_d_shaped ex_tokens); lia.
Defined.

(** ** The byte count in [int] *)

Lemma wrap_congr (a k : Z) : Int32.wrap (a + k * 4294967296) = Int32.wrap a.
Proof.
  unfold Int32.wrap.
  replace (a + k * 4294967296 + 2147483648) with (a + 2147483648 + k * 4294967296) by lia.
  by rewrite Z.mod_add.
Qed.

Lemma wrap_decompose (a : Z) : ∃ k, Int32.wrap a = a + k * 4294967296.
Proof.
  exists (- ((a + 2147483648) / 4294967296)). unfold Int32.wrap.
  pose proof (Z.div_mod (a + 2147483648) 4294967296). lia.
Qed.

(** A product of an already reduced factor is the product reduced once. *)
Lemma mul_wrap_l (a b : Z) : Int32.mul (Int32.wrap a) b = Int32.wrap (a * b).
Proof.
  destruct (wrap_decompose a) as [k ->]. unfold Int32.mul.
  replace ((a + k * 4294967296) * b) with (a * b + (k * b) * 4294967296) by lia.
  apply wrap_congr.
Qed.

(** X10: the byte count of line 184 is computed in [int] before it is
    widened to [long]: for all B, T, C it is the exact product B*T*C*4*4
    reduced to 32 bits, so it is the exact product if and only if that
    product lies within [int]. From B*T*C = 2^27 elements on the figure is
    wrong: with B = 256, and T and C as in [main], it is negative. *)
Theorem memory_ops_wraps (B T C : Z) :
  memory_ops B T C = Int32.wrap (B * T * C * 4 * 4) ∧
  (memory_ops B T C = B * T * C * 4 * 4 ↔ Int32.in_range (B * T * C * 4 * 4)) ∧
  memory_ops 256 1024 768 = -1073741824.
Proof.
  assert (memory_ops B T C = Int32.wrap (B * T * C * 4 * 4)) as E.
  { unfold memory_ops. unfold Int32.mul at 4. by rewrite !mul_wrap_l. }
  split; [done|]. split; [|by vm_compute]. rewrite E. split.
  - intros <-. apply Int32Facts.wrap_range.
  - apply Int32Facts.wrap_in_range.
Qed.

(** ** The index decomposition of the first kernel *)

(** The first kernel is its guard, the decomposition [kernel1_coords], the
    read of the token and the loop over the channels of the row at
    [kernel1_row_offset]. *)
Lemma kernel1_unfold {F : Type} (fadd : F → F → F) (inp : list Z) (wte wpe : list F)
    (blockIdx blockDim threadIdx B T C : Z) (m : memory F) :
  encoder_forward_kernel1 fadd inp wte wpe blockIdx blockDim threadIdx B T C m =
  (let idx := thread_idx blockIdx blockDim threadIdx in
   if idx <? Int32.mul B T then
     (p <- M_lift (kernel1_coords idx T);;
      ix <- read Inp inp (Int32.add (Int32.mul p.1 T) p.2);;
      for_loop (Z.to_nat C) 0 (λ i,
        x <- read Wte wte (Int32.mul ix C + i);;
        y <- read Wpe wpe (Int32.mul p.2 C + i);;
        write (kernel1_row_offset p.1 p.2 T C + i) (fadd x y)))%M m
   else Some ((), m)).
Proof.
  unfold encoder_forward_kernel1, kernel1_coords, kernel1_row_offset. simpl.
  destruct (_ <? _); [|done]. unfold M_bind, M_lift.
  destruct (Int32.div _ T) as [b|]; [|done]. simpl.
  destruct (Int32.rem _ T) as [t|]; done.
Qed.

Lemma kernel1_coords_exact (idx T : Z) :
  0 <= idx → 0 < T → kernel1_coords idx T = Some (idx / T, idx mod T).
Proof.
  intros Hidx HT. unfold kernel1_coords.
  rewrite (Int32Facts.div_nonneg idx T) by lia. simpl.
  by rewrite (Int32Facts.rem_nonneg idx T) by lia.
Qed.

(** X11: for all B, T, C >= 1 with B*T*C at most INT_MAX, the decomposition
    b = idx / T, t = idx % T of the first kernel maps every idx in [[0, B*T)]
    to a pair with b < B and t < T whose row of [out] starts at the offset
    idx*C, every such pair comes from some idx, and no two idx give the same
    pair; and a launch that covers [[0, B*T)] writes the offsets
    0, 1, ..., B*T*C - 1 of [out], each exactly once. *)
Theorem kernel1_index_bijection (B T C : Z) :
  1 <= B → 1 <= T → 1 <= C → B * T * C <= Int32.INT_MAX →
  (∀ idx, 0 <= idx < B * T →
     ∃ b t, kernel1_coords idx T = Some (b, t) ∧
       0 <= b < B ∧ 0 <= t < T ∧ kernel1_row_offset b t T C = idx * C) ∧
  (∀ b t, 0 <= b < B → 0 <= t < T →
     ∃ idx, 0 <= idx < B * T ∧ kernel1_coords idx T = Some (b, t)) ∧
  (∀ idx1 idx2, 0 <= idx1 < B * T → 0 <= idx2 < B * T →
     kernel1_coords idx1 T = kernel1_coords idx2 T → idx1 = idx2) ∧
  (∀ (F : Type) (fadd : F → F → F) (out : list F) (inp : list Z) (wte wpe : list F)
     (V grid_size block_size : Z),
     V * C <= Int32.INT_MAX → shaped out inp wte wpe B T C V → tokens_in_range inp V →
     0 <= grid_size → 0 <= block_size → grid_size * block_size <= 2147483648 →
     B * T <= grid_size * block_size →
     ∃ m', launch grid_size block_size (λ blockIdx blockDim threadIdx,
             encoder_forward_kernel1 fadd inp wte wpe blockIdx blockDim threadIdx B T C)
             (Memory out []) = Some ((), m') ∧
           writes (m_log m') = seqZ 0 (B * T * C)).
Proof.
  intros HB HT HC HN. unfold Int32.INT_MAX in HN.
  split; [|split; [|split]].
  - intros idx Hidx. exists (idx / T), (idx mod T).
    rewrite kernel1_coords_exact by lia.
    destruct (row_bound idx B T) as [Hb Ht]; [lia|done|].
    pose proof (row_split idx T ltac:(lia)) as Hsplit.
    split; [done|]. split; [done|]. split; [done|].
    unfold kernel1_row_offset.
    assert (0 <= idx / T * T <= idx) by nia.
    assert (0 <= idx * C < B * T * C) by nia.
    assert (0 <= idx / T * T * C <= idx * C) by nia.
    assert (0 <= idx mod T * C <= idx * C) by nia.
    rewrite (Int32Facts.mul_exact (idx / T) T), Int32Facts.mul_exact,
      Int32Facts.mul_exact;
      unfold Int32.in_range, Int32.INT_MIN, Int32.INT_MAX; [nia|lia|lia|lia].
  - intros b t Hb Ht. exists (b * T + t). split; [nia|].
    rewrite kernel1_coords_exact by nia. by rewrite flat_div, flat_mod by done.
  - intros idx1 idx2 Hidx1 Hidx2. rewrite !kernel1_coords_exact by lia.
    intros [= E1 E2].
    pose proof (Z.div_mod idx1 T ltac:(lia)) as D1.
    pose proof (Z.div_mod idx2 T ltac:(lia)) as D2.
    rewrite E1, E2 in D1. by rewrite <- D2 in D1.
  - intros F fadd out inp wte wpe V grid_size block_size HV Hshape Htok Hg Hb Hfit Hcover.
    assert (valid_dims B T C V) as Hdims by (unfold valid_dims, Int32.INT_MAX in *; lia).
    destruct (launch1_fills fadd inp wte wpe B T C V out [] Hdims Hshape Htok
                grid_size block_size Hg Hb Hfit Hcover (Memory out [])
                (filled_start _ _ _ _ _ _ _ _ _ [] 0)) as ([] & m' & E & Hm').
    exists m'. split; [done|]. destruct Hm' as (_ & _ & _ & log & -> & _ & Hw).
    simpl. by rewrite Z.sub_0_r in Hw.
Qed.

Lemma kernel1_index_bijection_witness :
  (∀ idx, 0 <= idx < 2 * 2 →
     ∃ b t, kernel1_coords idx 2 = Some (b, t) ∧
       0 <= b < 2 ∧ 0 <= t < 2 ∧ kernel1_row_offset b t 2 2 = idx * 2) ∧
  (∀ b t, 0 <= b < 2 → 0 <= t < 2 →
     ∃ idx, 0 <= idx < 2 * 2 ∧ kernel1_coords idx 2 = Some (b, t)) ∧
  (∀ idx1 idx2, 0 <= idx1 < 2 * 2 → 0 <= idx2 < 2 * 2 →
     kernel1_coords idx1 2 = kernel1_coords idx2 2 → idx1 = idx2) ∧
  (∃ m', launch 2 3 (λ blockIdx blockDim threadIdx,
           encoder_forward_kernel1 f32_add ex_inp ex_wte ex_wpe
             blockIdx blockDim threadIdx 2 2 2)
           (Memory ex_out0 []) = Some ((), m') ∧
         writes (m_log m') = seqZ 0 (2 * 2 * 2)).
Proof.
  destruct (kernel1_index_bijection 2 2 2) as (H1 & H2 & H3 & H4);
    [lia|lia|lia|unfold Int32.INT_MAX; lia|].
  split; [exact H1|]. split; [exact H2|]. split; [exact H3|].
  apply (H4 _ f32_add ex_out0 ex_inp ex_wte ex_wpe 3 2 3);
    [unfold Int32.INT_MAX; lia|apply ex_shaped|apply ex_tokens|lia|lia|lia|lia].
Defined.

(** ** Empty tensors *)

(** A loop whose body does nothing does nothing. *)
Lemma for_loop_skip {F : Type} (n : nat) (i : Z) (body : Z → M F unit) (m : memory F) :
  (∀ k m', body k m' = Some ((), m')) → for_loop n i body m = Some ((), m).
Proof.
  intros Hbody. revert i. induction n as [|n IH]; intros i; [done|].
  simpl. unfold M_bind. rewrite Hbody. apply IH.
Qed.

Lemma seqZ_fmap_snoc {A : Type} (f : Z → A) (n : Z) :
  0 <= n → f <$> seqZ 0 (n + 1) = (f <$> seqZ 0 n) ++ [f n].
Proof.
  intros Hn. rewrite seqZ_app by lia. rewrite fmap_app. by f_equal.
Qed.

(** X12: the reference on empty tensors. With B <= 0 or T <= 0 it makes no
    access at all and leaves the memory as it was, whatever the buffers are.
    With B, T >= 1 and C <= 0 it still reads the B*T tokens, in order, and
    nothing else; it writes nothing, and the values of the tokens do not
    matter. *)
Theorem encoder_forward_cpu_empty {F : Type} (fadd : F → F → F)
    (inp : list Z) (wte wpe : list F) (B T C : Z) (m : memory F) :
  (B <= 0 ∨ T <= 0 →
   encoder_forward_cpu fadd inp wte wpe B T C m = Some ((), m)) ∧
  (1 <= B → 1 <= T → B * T <= Int32.INT_MAX → C <= 0 →
   Z.of_nat (length inp) = B * T →
   encoder_forward_cpu fadd inp wte wpe B T C m
   = Some ((), Memory (m_out m) (m_log m ++ (Read Inp <$> seqZ 0 (B * T))))).
Proof.
  split.
  - intros [HB|HT]; unfold encoder_forward_cpu.
    + by replace (Z.to_nat B) with 0%nat by lia.
    + replace (Z.to_nat T) with 0%nat by lia. by apply for_loop_skip.
  - intros HB HT HN HC Hlen. unfold Int32.INT_MAX in HN. unfold encoder_forward_cpu.
    replace (Z.to_nat C) with 0%nat by lia.
    destruct (triple_for_loop
                (λ b m', m_out m' = m_out m ∧
                         m_log m' = m_log m ++ (Read Inp <$> seqZ 0 (b * T)))
                (Z.to_nat B) 0
                (λ b, for_loop (Z.to_nat T) 0 (λ t,
                   ix <- read Inp inp (Int32.add (Int32.mul b T) t);;
                   let wte_ix := Int32.mul ix C in
                   let wpe_t := Int32.mul t C in
                   for_loop 0 0 (λ i,
                     x <- read Wte wte (wte_ix + i);;
                     y <- read Wpe wpe (wpe_t + i);;
                     write (Int32.mul (Int32.mul b T) C + Int32.mul t C + i)
                       (fadd x y)))%M)) with (m := m) as ([] & m' & E & Ho & El).
    + intros b Hb. eapply triple_weaken.
      * apply (triple_for_loop
                 (λ t m', m_out m' = m_out m ∧
                          m_log m' = m_log m ++ (Read Inp <$> seqZ 0 (b * T + t)))).
        intros t Ht. assert (0 <= b * T + t < B * T) as Hr by nia.
        assert (0 <= b * T <= B * T) by nia.
        rewrite (Int32Facts.mul_exact b T), Int32Facts.add_exact
          by (unfold Int32.in_range, Int32.INT_MIN, Int32.INT_MAX; lia).
        destruct (load_in_range inp (b * T + t)) as [ix E]; [lia|].
        eapply triple_bind.
        { apply triple_read with (x := ix)
            (Q := λ _ m', m_out m' = m_out m ∧
                          m_log m' = m_log m ++ (Read Inp <$> seqZ 0 (b * T + (t + 1))));
            [done|].
          intros m' [Ho El]. simpl. split; [done|]. rewrite El, <- app_assoc. f_equal.
          replace (b * T + (t + 1)) with (b * T + t + 1) by lia.
          by rewrite seqZ_fmap_snoc by lia. }
        intros ix'. simpl. by apply triple_ret.
      * intros m' Hm'. by rewrite Z.add_0_r.
      * intros [] m' Hm'. simpl in Hm'.
        by replace ((b + 1) * T) with (b * T + (0 + Z.of_nat (Z.to_nat T))) by lia.
    + split; [done|]. simpl. by rewrite app_nil_r.
    + transitivity (Some ((), m')); [exact E|].
      destruct m' as [out' log']. simpl in *. rewrite Ho, El.
      by replace ((0 + Z.of_nat (Z.to_nat B)) * T) with (B * T) by lia.
Qed.

Lemma encoder_forward_cpu_empty_witness :
  encoder_forward_cpu f32_add ex_inp ex_wte ex_wpe 0 2 2 (Memory ex_out0 [])
  = Some ((), Memory ex_out0 []) ∧
  encoder_forward_cpu f32_add ex_inp ex_wte ex_wpe 2 2 0 (Memory ex_out0 [])
  = Some ((), Memory ex_out0 ([] ++ (Read Inp <$> seqZ 0 (2 * 2)))).
Proof.
  destruct (encoder_forward_cpu_empty f32_add ex_inp ex_wte ex_wpe 0 2 2
              (Memory ex_out0 [])) as [H1 _].
  destruct (encoder_forward_cpu_empty f32_add ex_inp ex_wte ex_wpe 2 2 0
              (Memory ex_out0 [])) as [_ H2].
  split.
  - apply H1. left. lia.
  - apply H2; [lia|lia|by vm_compute|lia|done].
Defined.

(** ** A token index outside the vocabulary *)

Section BadToken.

Context {F : Type}.
Variable fadd : F → F → F.
Variables (out : list F) (inp : list Z) (wte wpe : list F) (B T C V : Z).
Variables (r ix : Z).

Hypothesis Hdims : valid_dims B T C V.
Hypothesis Hshape : shaped out inp wte wpe B T C V.
Hypothesis Hr : 0 <= r < B * T.
Hypothesis Hload : load inp r = Some ix.
Hypothesis Hix : ¬ (0 <= ix < V).
Hypothesis Hmul : Int32.in_range (ix * C).

(** The row of [wte] for the token lies outside the table. *)
Lemma wte_row_outside (c : Z) : 0 <= c < C → load wte (ix * C + c) = None.
Proof using Hshape Hix.
  intros Hc. destruct (load wte (ix * C + c)) as [x|] eqn:E; [|done].
  apply load_Some_range in E. destruct Hshape as (_ & _ & Hw & _).
  rewrite Hw in E. exfalso. apply Hix. nia.
Qed.

Lemma bad_row_offsets :
  Int32.mul (r / T) T = r / T * T ∧ Int32.add (r / T * T) (r mod T) = r ∧
  Int32.mul ix C = ix * C ∧ 0 <= r / T < B ∧ 0 <= r mod T < T.
Proof using Hdims Hr Hmul.
  destruct Hdims as (HB & HT & HC & HN & HV). unfold Int32.INT_MAX in *.
  destruct (row_bound r B T) as [Hb Ht]; [lia|done|].
  pose proof (row_split r T ltac:(lia)) as Hsplit.
  assert (B * T <= B * T * C) by nia.
  rewrite (Int32Facts.mul_exact (r / T) T), Int32Facts.add_exact, Int32Facts.mul_exact;
    unfold Int32.in_range, Int32.INT_MIN, Int32.INT_MAX in *; [|lia|lia|nia].
  repeat split; lia.
Qed.

(** Lines 29-34 (and 53-58) for the row of the token: the token is read,
    and the read of [wte] for the first channel is outside the table. *)
Lemma bad_row_faults (m : memory F) :
  (ix' <- read Inp inp (Int32.add (Int32.mul (r / T) T) (r mod T));;
   for_loop (Z.to_nat C) 0 (λ i,
     x <- read Wte wte (Int32.mul ix' C + i);;
     y <- read Wpe wpe (Int32.mul (r mod T) C + i);;
     write (Int32.mul (Int32.mul (r / T) T) C + Int32.mul (r mod T) C + i)
       (fadd x y)))%M m = None.
Proof using Hdims Hshape Hr Hload Hix Hmul.
  destruct bad_row_offsets as (E1 & E2 & E3 & _).
  pose proof Hdims as (HB & HT & HC & HN & HV).
  rewrite E1, E2. unfold M_bind at 1. unfold read at 1. rewrite Hload.
  apply for_loop_fault with (k := 0); [lia|]. intros m'.
  unfold M_bind at 1. unfold read at 1. rewrite E3.
  by rewrite wte_row_outside by lia.
Qed.

Lemma bad_token_cpu :
  run_out (encoder_forward_cpu fadd inp wte wpe B T C) out = None.
Proof using Hdims Hshape Hr Hload Hix Hmul.
  destruct bad_row_offsets as (_ & _ & _ & Hb & Ht).
  unfold run_out, encoder_forward_cpu.
  rewrite (for_loop_fault _ _ (r / T)); [done|lia|]. intros m'.
  apply for_loop_fault with (k := r mod T); [lia|]. intros m''.
  apply bad_row_faults.
Qed.

Lemma bad_token_kernel1 (blockIdx blockDim threadIdx : Z) (m : memory F) :
  thread_idx blockIdx blockDim threadIdx = r →
  encoder_forward_kernel1 fadd inp wte wpe blockIdx blockDim threadIdx B T C m = None.
Proof using Hdims Hshape Hr Hload Hix Hmul.
  intros Eidx. pose proof Hdims as (HB & HT & HC & HN & HV).
  unfold encoder_forward_kernel1. rewrite Eidx.
  destruct (worker_counts B T C V Hdims) as [-> _].
  destruct (Z.ltb_spec r (B * T)); [|lia].
  unfold M_bind at 1. unfold M_lift at 1. rewrite Int32Facts.div_nonneg by lia.
  unfold M_bind at 1. unfold M_lift at 1. rewrite Int32Facts.rem_nonneg by lia.
  apply bad_row_faults.
Qed.

Lemma bad_token_kernel2 (blockIdx blockDim threadIdx : Z) (m : memory F) :
  r * C <= thread_idx blockIdx blockDim threadIdx < (r + 1) * C →
  encoder_forward_kernel2 fadd inp wte wpe blockIdx blockDim threadIdx B T C m = None.
Proof using Hdims Hshape Hr Hload Hix Hmul.
  intros Hidx. pose proof Hdims as (HB & HT & HC & HN & HV).
  destruct bad_row_offsets as (E1 & E2 & E3 & Hb & Ht).
  unfold encoder_forward_kernel2.
  set (idx := thread_idx blockIdx blockDim threadIdx) in *.
  destruct (worker_counts B T C V Hdims) as [_ ->].
  assert (0 <= idx - r * C < C) as Hc by lia.
  assert (idx / C = r) as Ediv.
  { replace idx with (r * C + (idx - r * C)) by lia. by apply flat_div. }
  assert (idx mod C = idx - r * C) as Emod.
  { replace idx with (r * C + (idx - r * C)) at 1 by lia. by apply flat_mod. }
  destruct (Z.ltb_spec idx (B * T * C)); [|nia].
  unfold M_bind at 1. unfold M_lift at 1. rewrite Int32Facts.div_nonneg, Ediv by nia.
  unfold M_bind at 1. unfold M_lift at 1. rewrite Int32Facts.div_nonneg by lia.
  unfold M_bind at 1. unfold M_lift at 1. rewrite Int32Facts.rem_nonneg by lia.
  unfold M_bind at 1. unfold M_lift at 1. rewrite Int32Facts.rem_nonneg, Emod by nia.
  rewrite E1, E2. unfold M_bind at 1. unfold read at 1. rewrite Hload.
  unfold M_bind at 1. unfold read at 1. rewrite E3.
  by rewrite wte_row_outside by lia.
Qed.

End BadToken.

(** X13: the token indices are not checked. On tensors of valid dimensions
    and shapes, let the token of some row [r] lie outside [[0, V)], with the
    row offset [ix * C] within [int]. Then the reference, the thread [r] of
    the first kernel and the C threads [r*C, ..., r*C + C - 1] of the second
    kernel all read [wte] outside the table: none of them returns. *)
Theorem token_out_of_range_faults {F : Type} (fadd : F → F → F)
    (out : list F) (inp : list Z) (wte wpe : list F) (B T C V : Z) (r ix : Z) :
  valid_dims B T C V → shaped out inp wte wpe B T C V →
  0 <= r < B * T → load inp r = Some ix → ¬ (0 <= ix < V) → Int32.in_range (ix * C) →
  run_out (encoder_forward_cpu fadd inp wte wpe B T C) out = None ∧
  (∀ blockIdx blockDim threadIdx (m : memory F),
     thread_idx blockIdx blockDim threadIdx = r →
     encoder_forward_kernel1 fadd inp wte wpe blockIdx blockDim threadIdx B T C m
     = None) ∧
  (∀ blockIdx blockDim threadIdx (m : memory F),
     r * C <= thread_idx blockIdx blockDim threadIdx < (r + 1) * C →
     encoder_forward_kernel2 fadd inp wte wpe blockIdx blockDim threadIdx B T C m
     = None).
Proof.
  intros Hdims Hshape Hr Hload Hix Hmul. split; [|split].
  - by apply (bad_token_cpu fadd out inp wte wpe B T C V r ix).
  - intros blockIdx blockDim threadIdx m.
    by apply (bad_token_kernel1 fadd out inp wte wpe B T C V r ix).
  - intros blockIdx blockDim threadIdx m.
    by apply (bad_token_kernel2 fadd out inp wte wpe B T C V r ix).
Qed.

Lemma token_out_of_range_faults_witness :
  run_out (encoder_forward_cpu f32_add bad_inp ex_wte big_wpe 1 1 2) big_out0 = None ∧
  (∀ blockIdx blockDim threadIdx (m : memory spec_float),
     thread_idx blockIdx blockDim threadIdx = 0 →
     encoder_forward_kernel1 f32_add bad_inp ex_wte big_wpe blockIdx blockDim threadIdx
       1 1 2 m = None) ∧
  (∀ blockIdx blockDim threadIdx (m : memory spec_float),
     0 * 2 <= thread_idx blockIdx blockDim threadIdx < (0 + 1) * 2 →
     encoder_forward_kernel2 f32_add bad_inp ex_wte big_wpe blockIdx blockDim threadIdx
       1 1 2 m = None).
Proof.
  apply (token_out_of_range_faults f32_add big_out0 bad_inp ex_wte big_wpe 1 1 2 3 0 3).
  - unfold valid_dims, Int32.INT_MAX. lia.
  - by vm_compute.
  - lia.
  - done.
  - lia.
  - by vm_compute.
Defined.

(** ** A whole run of [main] *)

Lemma proc_bind_returned {A B : Type} (es : list event) (a : A) (k : A → proc B) :
  proc_bind (es, Returned a) k = (es ++ (k a).1, (k a).2).
Proof. unfold proc_bind. by destruct (k a). Qed.

(** The comparison of a buffer with itself. *)
Lemma validate_result_same {F : Type} (within_tolerance : F → F → bool) (out : list F) :
  validate_result within_tolerance out out
  = ([Validated (forallb (λ x, within_tolerance x x) out)],
     if forallb (λ x, within_tolerance x x) out then Returned () else Exited EXIT_FAILURE).
Proof.
  unfold validate_result. rewrite bool_decide_eq_true_2 by done.
  assert (forallb (λ p, within_tolerance p.1 p.2) (zip out out)
          = forallb (λ x, within_tolerance x x) out) as ->.
  { induction out as [|x out IH]; [done|]. simpl. by rewrite IH. }
  simpl. by destruct (forallb _ out).
Qed.

Section Benchmark.

Context {F : Type}.
Variable fadd : F → F → F.
Variables (elapsed : Z → F) (bandwidth : Z → F → F) (report : Z → F → F → string).
Variables (inp : list Z) (wte wpe : list F) (B T C kernel_num : Z) (d_out : list F).

(** The timing of an operation that maps the buffer to itself. *)
Lemma benchmark_kernel_fixed (n : nat) (kernel : list F → proc (list F))
    (block_size : Z) (e : event) :
  kernel d_out = ([e], Returned d_out) →
  benchmark_kernel elapsed n kernel_num kernel d_out block_size
  = (Timed kernel_num block_size n :: replicate n e, Returned (elapsed block_size, d_out)).
Proof.
  intros Hk. unfold benchmark_kernel. rewrite (repeat_kernel_fixed n _ _ e Hk).
  unfold emit. rewrite proc_bind_returned. simpl. by rewrite app_nil_r.
Qed.

(** One iteration of the loop of lines 173-188 on a buffer that the
    dispatcher maps to itself. *)
Lemma benchmark_step_fixed (block_size : Z) :
  encoder_forward fadd kernel_num d_out inp wte wpe B T C block_size
  = ([launch_event kernel_num B T C block_size], Returned d_out) →
  benchmark_step fadd elapsed bandwidth report kernel_num inp wte wpe B T C d_out
    block_size
  = (benchmark_events elapsed bandwidth report kernel_num B T C block_size,
     Returned d_out).
Proof.
  intros Hk. unfold benchmark_step, benchmark_events. cbv zeta.
  generalize 1000%nat. intros n.
  rewrite (benchmark_kernel_fixed n _ block_size _ Hk).
  rewrite proc_bind_returned. unfold printf, emit. rewrite proc_bind_returned.
  done.
Qed.

(** The loop of lines 173-188. *)
Lemma benchmark_loop_fixed (sizes : list Z) :
  (∀ block_size, block_size ∈ sizes →
     encoder_forward fadd kernel_num d_out inp wte wpe B T C block_size
     = ([launch_event kernel_num B T C block_size], Returned d_out)) →
  benchmark_loop fadd elapsed bandwidth report kernel_num inp wte wpe B T C d_out sizes
  = (sizes ≫= benchmark_events elapsed bandwidth report kernel_num B T C,
     Returned d_out).
Proof.
  induction sizes as [|block_size sizes IH]; intros Hk; [done|].
  simpl benchmark_loop. rewrite benchmark_step_fixed by (apply Hk; left).
  rewrite proc_bind_returned. rewrite IH by (intros bs Hbs; apply Hk; by right).
  done.
Qed.

End Benchmark.

Section MainRun.

Context {F : Type}.
Variable fadd : F → F → F.
Variable make_random_int : Z → Z → list Z.
Variable make_random_float : Z → list F.
Variable malloc_float : Z → list F.
Variable cudaMalloc_float : Z → list F.
Variable within_tolerance : F → F → bool.
Variable elapsed : Z → F.
Variable bandwidth : Z → F → F.
Variable report : Z → F → F → string.

(** What the specification says of the generators, and a fresh host or
    device buffer has the size asked for. *)
Hypothesis make_random_int_spec : ∀ N V,
  0 <= N → 0 < V → Z.of_nat (length (make_random_int N V)) = N ∧
                   tokens_in_range (make_random_int N V) V.
Hypothesis make_random_float_spec : ∀ N,
  0 <= N → Z.of_nat (length (make_random_float N)) = N.
Hypothesis malloc_float_spec : ∀ N,
  0 <= N → Z.of_nat (length (malloc_float N)) = N.
Hypothesis cudaMalloc_float_spec : ∀ N,
  0 <= N → Z.of_nat (length (cudaMalloc_float N)) = N.

(** X14: a whole run of [main] for the selectors 1 and 2 (no argument
    selects 2). The reference returns an output [out]; the dispatcher is
    invoked once with block size 256 and returns the same buffer, so the
    validation of line 168 compares [out] with itself. When it passes,
    [main] times the six block sizes 32, ..., 1024 in this order, for each
    making 1000 launches of the selected kernel and printing one line whose
    byte count is 100663296, and returns 0; each of the 6001 launches covers
    its worker count and none faults. When it does not pass, [main] exits
    with status 1 and nothing is timed. The generators and the allocators
    are taken to return buffers of the size asked for, the token indices in
    [[0, V)]. *)
Theorem main_run (argv : list string) :
  let kernel_num := match argv with
                    | _ :: arg :: _ => atoi arg
                    | _ => 2
                    end in
  kernel_num = 1 ∨ kernel_num = 2 →
  ∃ out,
    run_out (encoder_forward_cpu fadd (make_random_int 8192 50257)
               (make_random_float 38597376) (make_random_float 786432) 8 1024 768)
      (malloc_float 6291456) = Some out ∧
    memory_ops 8 1024 768 = 100663296 ∧
    let ok := forallb (λ x, within_tolerance x x) out in
    main fadd make_random_int make_random_float malloc_float cudaMalloc_float
      within_tolerance elapsed bandwidth report argv
    = (Stdout ("Using kernel " +:+ pretty kernel_num +:+ nl) ::
       launch_event kernel_num 8 1024 768 256 ::
       Validated ok ::
       (if ok
        then block_sizes ≫= benchmark_events elapsed bandwidth report kernel_num 8 1024 768
        else []),
       if ok then Returned 0 else Exited 1).
Proof using make_random_int_spec make_random_float_spec malloc_float_spec
  cudaMalloc_float_spec.
  intros kernel_num Hk.
  destruct (make_random_int_spec 8192 50257) as [Hl Htok]; [lia|lia|].
  assert (valid_dims 8 1024 768 50257) as Hdims
    by (unfold valid_dims, Int32.INT_MAX; lia).
  assert (∀ out0, Z.of_nat (length out0) = 6291456 →
            shaped out0 (make_random_int 8192 50257) (make_random_float 38597376)
              (make_random_float 786432) 8 1024 768 50257) as Hshaped.
  { intros out0 Hout0. unfold shaped. rewrite Hout0, Hl, !make_random_float_spec by lia.
    lia. }
  pose proof (Hshaped _ (malloc_float_spec 6291456 ltac:(lia))) as Hshape.
  pose proof (Hshaped _ (cudaMalloc_float_spec 6291456 ltac:(lia))) as Hshape_d.
  pose proof (cpu_returns fadd _ _ _ _ _ _ _ _ Hdims Hshape Htok)
    as (m & Hm & _ & Eout).
  exists (m_out m). split; [done|]. split; [by vm_compute|]. intros ok.
  pose proof (filled_shaped _ _ _ _ _ _ _ _ _ _ _ _ _ Hshape Hm) as Hshape'.
  assert (∀ bs, bs ∈ block_sizes →
            block_size_ok (worker_count kernel_num 8 1024 768) bs) as Hbs.
  { intros bs Hin. apply block_sizes_ok; [done|]. destruct Hk as [-> | ->]; by vm_compute. }
  assert (∀ d_out bs,
            shaped d_out (make_random_int 8192 50257) (make_random_float 38597376)
              (make_random_float 786432) 8 1024 768 50257 →
            bs ∈ block_sizes →
            encoder_forward fadd kernel_num d_out (make_random_int 8192 50257)
              (make_random_float 38597376) (make_random_float 786432) 8 1024 768 bs
            = ([launch_event kernel_num 8 1024 768 bs], Returned (m_out m))) as Hdispatch.
  { intros d_out bs Hd Hin.
    pose proof (encoder_forward_returns fadd d_out _ _ _ _ _ _ _ kernel_num bs
                  Hdims Hd Htok Hk (Hbs bs Hin)) as (m' & Hm' & E').
    rewrite E'. do 2 f_equal. pose proof Hd as (Hld & _). pose proof Hshape as (Hlo & _).
    exact (filled_unique fadd _ _ _ _ _ _ _ d_out (malloc_float 6291456) m' m
             Hld Hlo Hm' Hm). }
  unfold main, main_with. cbv zeta.
  change (Int32.mul 8 1024) with 8192.
  change (Int32.mul 8192 768) with 6291456.
  change (Int32.mul 50257 768) with 38597376.
  change (Int32.mul 1024 768) with 786432.
  fold kernel_num. rewrite Eout. unfold host, printf, emit.
  rewrite proc_bind_returned, proc_bind_ret_l.
  rewrite Hdispatch by (done || (unfold block_sizes; rewrite !elem_of_cons; auto 10)).
  rewrite proc_bind_returned, validate_result_same. fold ok.
  destruct ok.
  - rewrite proc_bind_returned.
    rewrite benchmark_loop_fixed by (intros bs Hin; by apply Hdispatch).
    rewrite proc_bind_returned. unfold proc_ret. cbn [fst snd app].
    by rewrite app_nil_r.
  - done.
Qed.

End MainRun.

Lemma main_run_witness :
  ∃ out,
    run_out (encoder_forward_cpu f32_add (last_token_inp 8192 50257)
               (constant_floats 38597376) (constant_floats 786432) 8 1024 768)
      (nan_floats 6291456) = Some out ∧
    memory_ops 8 1024 768 = 100663296 ∧
    let ok := forallb (λ x, (λ _ _ : spec_float, true) x x) out in
    main f32_add last_token_inp constant_floats nan_floats nan_floats
      (λ _ _, true) (λ _, f32_of_Z 1) (λ _ _, f32_of_Z 1)
      (λ block_size _ _, pretty block_size) ["positional_forward"; "1"]
    = (Stdout ("Using kernel " +:+ pretty (atoi "1") +:+ nl) ::
       launch_event (atoi "1") 8 1024 768 256 ::
       Validated ok ::
       (if ok
        then block_sizes ≫= benchmark_events (λ _, f32_of_Z 1) (λ _ _, f32_of_Z 1)
                              (λ block_size _ _, pretty block_size) (atoi "1") 8 1024 768
        else []),
       if ok then Returned 0 else Exited 1).
Proof.
  apply (main_run f32_add last_token_inp constant_floats nan_floats nan_floats
           (λ _ _, true) (λ _, f32_of_Z 1) (λ _ _, f32_of_Z 1)
           (λ block_size _ _, pretty block_size)
           last_token_inp_spec constant_floats_spec nan_floats_spec nan_floats_spec
           ["positional_forward"; "1"]).
  by left.
Defined.

(** ** The argument of [main] *)

Lemma digit_of_pretty_N_char (d : N) :
  (d < 10)%N → digit_of (pretty_N_char d) = Some (Z.of_N d).
Proof.
  intros Hd.
  assert (d = 0 ∨ d = 1 ∨ d = 2 ∨ d = 3 ∨ d = 4 ∨ d = 5 ∨ d = 6 ∨ d = 7 ∨ d = 8 ∨ d = 9)%N
    as Hcases by lia.
  repeat (destruct Hcases as [->|Hcases]; [done|]). by subst.
Qed.

(** A digit is neither white space nor a sign. *)
Lemma digit_not_space_or_sign (c : ascii) (d : Z) :
  digit_of c = Some d →
  isspace c = false ∧ Ascii.eqb c "-" = false ∧ Ascii.eqb c "+" = false.
Proof.
  intros Hd. destruct c as [[] [] [] [] [] [] [] []]; vm_compute in Hd; try discriminate;
    by vm_compute.
Qed.

Lemma digits_stop (acc : Z) (s : string) : no_leading_digit s → digits acc s = acc.
Proof. destruct s as [|d s]; [done|]. simpl. by intros ->. Qed.

(** Reading the digits that [pretty] wrote gives the number back. *)
Lemma digits_pretty_N_go (x : N) (s : string) :
  digits 0 (pretty_N_go x s) = digits (Z.of_N x) s.
Proof.
  revert s. induction (N.lt_wf_0 x) as [x _ IH]. intros s.
  destruct (decide (x = 0)%N) as [->|Hx]; [done|].
  rewrite pretty_N_go_step by lia. rewrite IH by (apply N.div_lt; lia).
  simpl. rewrite digit_of_pretty_N_char by (apply N.mod_lt; lia). f_equal.
  rewrite N2Z.inj_div, N2Z.inj_mod. pose proof (Z.div_mod (Z.of_N x) 10). lia.
Qed.

Lemma pretty_N_go_append (x : N) (s rest : string) :
  pretty_N_go x s +:+ rest = pretty_N_go x (s +:+ rest).
Proof.
  revert s. induction (N.lt_wf_0 x) as [x _ IH]. intros s.
  destruct (decide (x = 0)%N) as [->|Hx]; [done|].
  rewrite (pretty_N_go_step x s), (pretty_N_go_step x (s +:+ rest)) by lia.
  by rewrite IH by (apply N.div_lt; lia).
Qed.

(** The numeral of a positive number starts with a digit. *)
Lemma pretty_N_go_head (x : N) (s : string) :
  (0 < x)%N → ∃ c s' d, pretty_N_go x s = String c s' ∧ digit_of c = Some d.
Proof.
  revert s. induction (N.lt_wf_0 x) as [x _ IH]. intros s Hx.
  rewrite pretty_N_go_step by done.
  destruct (decide (x `div` 10 = 0)%N) as [->|Hq].
  - rewrite pretty_N_go_0. eexists _, _, _. split; [done|].
    apply digit_of_pretty_N_char, N.mod_lt. lia.
  - apply IH; [apply N.div_lt; lia|by apply N.neq_0_lt_0].
Qed.

Lemma atoi_digit_start (c : ascii) (s : string) (d : Z) :
  digit_of c = Some d → atoi (String c s) = Int32.wrap (digits 0 (String c s)).
Proof.
  intros Hd. destruct (digit_not_space_or_sign c d Hd) as (Hs & Hm & Hp).
  unfold atoi. simpl skip_space. by rewrite Hs, Hm, Hp.
Qed.

Lemma atoi_natural (x : N) (rest : string) :
  (0 < x)%N → Int32.in_range (Z.of_N x) → no_leading_digit rest →
  atoi (pretty_N_go x "" +:+ rest) = Z.of_N x.
Proof.
  intros Hx Hr Hrest. rewrite pretty_N_go_append. change ("" +:+ rest) with rest.
  destruct (pretty_N_go_head x rest Hx) as (c & s' & d & E & Hd).
  rewrite E, (atoi_digit_start c s' d Hd), <- E, digits_pretty_N_go.
  rewrite digits_stop by done. by apply Int32Facts.wrap_in_range.
Qed.

(** [atoi] reads back the numeral that [%d] prints, whatever follows it. *)
Lemma atoi_numeral (n : Z) (rest : string) :
  Int32.in_range n → no_leading_digit rest → atoi (pretty n +:+ rest) = n.
Proof.
  intros Hn Hrest. destruct n as [|p|p].
  - change (pretty 0 +:+ rest) with (String "0" rest).
    rewrite (atoi_digit_start "0" rest 0) by done.
    change (digits 0 (String "0" rest)) with (digits 0 rest). by rewrite digits_stop.
  - by apply (atoi_natural (Npos p)).
  - change (pretty (Zneg p) +:+ rest)
      with (String "-" (pretty_N_go (Npos p) "" +:+ rest)).
    change (atoi (String "-" (pretty_N_go (Npos p) "" +:+ rest)))
      with (Int32.wrap (- digits 0 (pretty_N_go (Npos p) "" +:+ rest))).
    rewrite pretty_N_go_append. change ("" +:+ rest) with rest.
    rewrite digits_pretty_N_go, digits_stop by done.
    by apply Int32Facts.wrap_in_range.
Qed.

Lemma skip_space_app (ws s : string) :
  all_space ws = true → skip_space (ws +:+ s) = skip_space s.
Proof.
  induction ws as [|c ws IH]; [done|]. simpl. intros [Hc Hws]%andb_true_iff.
  change (String c ws +:+ s) with (String c (ws +:+ s)). simpl.
  rewrite Hc. by apply IH.
Qed.

Lemma atoi_skips_space (ws s : string) : all_space ws = true → atoi (ws +:+ s) = atoi s.
Proof. intros Hws. unfold atoi. by rewrite skip_space_app. Qed.

Lemma append_empty (s : string) : s +:+ "" = s.
Proof.
  induction s as [|c s IH]; [done|].
  change (String c s +:+ "") with (String c (s +:+ "")). by rewrite IH.
Qed.

(** X15: the first argument of [main] is read by [atoi], which skips leading
    white space and stops at the first character that is not a digit, and
    the arguments after the first are never looked at. For every [int] n, an
    argument made of white space, the decimal numeral of n (as [%d] prints
    it) and a rest that does not start with a digit is read as n, and [main]
    then does exactly what it does for the numeral alone: 2x and 2.5 run the
    second kernel, 1abc runs the first. *)
Theorem main_argument_numeral {F : Type} (fadd : F → F → F)
    (make_random_int : Z → Z → list Z) (make_random_float malloc_float
      cudaMalloc_float : Z → list F) (within_tolerance : F → F → bool)
    (elapsed : Z → F) (bandwidth : Z → F → F) (report : Z → F → F → string)
    (prog ws rest : string) (more : list string) (n : Z) :
  Int32.in_range n → all_space ws = true → no_leading_digit rest →
  atoi (ws +:+ pretty n +:+ rest) = n ∧
  main fadd make_random_int make_random_float malloc_float cudaMalloc_float
    within_tolerance elapsed bandwidth report (prog :: (ws +:+ pretty n +:+ rest) :: more)
  = main fadd make_random_int make_random_float malloc_float cudaMalloc_float
      within_tolerance elapsed bandwidth report [prog; pretty n].
Proof.
  intros Hn Hws Hrest.
  assert (atoi (ws +:+ pretty n +:+ rest) = n) as E1.
  { rewrite atoi_skips_space by done. by apply atoi_numeral. }
  assert (atoi (pretty n) = n) as E2.
  { rewrite <- (append_empty (pretty n)). by apply atoi_numeral. }
  split; [done|]. unfold main, main_with. cbv beta iota zeta. by rewrite E1, E2.
Qed.

Lemma main_argument_numeral_witness :
  atoi (" " +:+ pretty 1 +:+ "abc") = 1 ∧
  main f32_add last_token_inp constant_floats nan_floats nan_floats
    (λ _ _, true) (λ _, f32_of_Z 1) (λ _ _, f32_of_Z 1)
    (λ block_size _ _, pretty block_size)
    ("positional_forward" :: (" " +:+ pretty 1 +:+ "abc") :: ["256"])
  = main f32_add last_token_inp constant_floats nan_floats nan_floats
      (λ _ _, true) (λ _, f32_of_Z 1) (λ _ _, f32_of_Z 1)
      (λ block_size _ _, pretty block_size) ["positional_forward"; pretty 1].
Proof.
  apply (main_argument_numeral f32_add last_token_inp constant_floats nan_floats
           nan_floats (λ _ _, true) (λ _, f32_of_Z 1) (λ _ _, f32_of_Z 1)
           (λ block_size _ _, pretty block_size)
           "positional_forward" " " "abc" ["256"] 1); by vm_compute.
Defined.

(** ** A thread index beyond [int] *)

Lemma div_positive_divisor (a b : Z) : 0 < b → Int32.div a b = Some (Z.quot a b).
Proof.
  intros Hb. unfold Int32.div.
  destruct (Z.eqb_spec b 0); [lia|]. destruct (Z.eqb_spec b (-1)); [lia|].
  by rewrite andb_false_r.
Qed.

Lemma rem_positive_divisor (a b : Z) : 0 < b → Int32.rem a b = Some (Z.rem a b).
Proof.
  intros Hb. unfold Int32.rem.
  destruct (Z.eqb_spec b 0); [lia|]. destruct (Z.eqb_spec b (-1)); [lia|].
  by rewrite andb_false_r.
Qed.

(** Division that truncates towards zero, for a dividend that is not positive. *)
Lemma quot_rem_nonpos (a b : Z) :
  a <= 0 → 0 < b →
  a = Z.quot a b * b + Z.rem a b ∧ - b < Z.rem a b <= 0 ∧ a <= Z.quot a b <= 0.
Proof.
  intros Ha Hb. pose proof (Z.quot_rem' a b) as Hqr.
  pose proof (Z.rem_bound_pos_neg a b Hb Ha) as Hr.
  split; [lia|]. split; [lia|]. nia.
Qed.

(** The offset [b * T + t] of the token, for the [b] and [t] derived from an
    index that is not positive, is the index itself. *)
Lemma token_offset_nonpos (q T : Z) :
  Int32.INT_MIN <= q <= 0 → 0 < T →
  Int32.add (Int32.mul (Z.quot q T) T) (Z.rem q T) = q.
Proof.
  intros Hq HT. destruct (quot_rem_nonpos q T) as (Hqr & Hr & Hb); [lia|done|].
  unfold Int32.INT_MIN in Hq.
  rewrite Int32Facts.mul_exact, Int32Facts.add_exact;
    unfold Int32.in_range, Int32.INT_MIN, Int32.INT_MAX; [lia|lia|nia].
Qed.

(** X16: the guard [idx < N] lets a negative [idx] through. A thread whose
    unsigned index [blockIdx * blockDim + threadIdx] lies in [[2^31, 2^32)]
    has the negative [idx] that is 2^32 less; and for dimensions B, T, C >= 1
    with B*T*C within [int], a thread with a negative [idx] passes the guard
    of either kernel and then reads outside a buffer, whatever the buffers
    hold: the first kernel reads [inp] at [idx]; the second reads [inp] at
    [idx / C] when that is negative, and otherwise gets no further than the
    read of [wpe] at [idx]. Such a thread never returns, so a launch is safe
    only if no thread index reaches 2^31. *)
Theorem negative_idx_faults {F : Type} (fadd : F → F → F)
    (inp : list Z) (wte wpe : list F) (B T C : Z) (blockIdx blockDim threadIdx : Z) :
  (0 <= blockIdx → 0 <= blockDim → 0 <= threadIdx →
   2147483648 <= blockIdx * blockDim + threadIdx < 4294967296 →
   thread_idx blockIdx blockDim threadIdx
   = blockIdx * blockDim + threadIdx - 4294967296) ∧
  (1 <= B → 1 <= T → 1 <= C → B * T * C <= Int32.INT_MAX →
   thread_idx blockIdx blockDim threadIdx < 0 →
   ∀ m : memory F,
     encoder_forward_kernel1 fadd inp wte wpe blockIdx blockDim threadIdx B T C m
     = None ∧
     encoder_forward_kernel2 fadd inp wte wpe blockIdx blockDim threadIdx B T C m
     = None).
Proof.
  split.
  - intros Hblk Hbd Hthr Hg. unfold thread_idx, Int32.of_unsigned, Int32.uwrap.
    assert (0 <= blockIdx * blockDim) by nia.
    rewrite (Z.mod_small (blockIdx * blockDim)) by lia.
    rewrite Z.mod_small by lia. unfold Int32.wrap.
    rewrite <- (Z.mod_add _ (-1)) by lia. rewrite Z.mod_small by lia. lia.
  - intros HB HT HC HN Hneg m.
    set (idx := thread_idx blockIdx blockDim threadIdx) in *.
    assert (Int32.INT_MIN <= idx) as Hmin.
    { subst idx. unfold thread_idx, Int32.of_unsigned.
      apply Int32Facts.wrap_range. }
    assert (valid_dims B T C 0) as Hdims by (unfold valid_dims; lia).
    destruct (worker_counts B T C 0 Hdims) as [EN1 EN2]. split.
    + unfold encoder_forward_kernel1. fold idx. rewrite EN1.
      destruct (Z.ltb_spec idx (B * T)); [|nia].
      unfold M_bind at 1. unfold M_lift at 1. rewrite div_positive_divisor by lia.
      unfold M_bind at 1. unfold M_lift at 1. rewrite rem_positive_divisor by lia.
      rewrite token_offset_nonpos by lia.
      unfold M_bind, read, load. by destruct (Z.leb_spec 0 idx); [lia|].
    + unfold encoder_forward_kernel2. fold idx. rewrite EN2.
      destruct (Z.ltb_spec idx (B * T * C)); [|nia].
      destruct (quot_rem_nonpos idx C) as (Hqr & Hr & Hq); [lia|lia|].
      set (q := Z.quot idx C) in *. set (c := Z.rem idx C) in *.
      unfold M_bind at 1. unfold M_lift at 1. rewrite div_positive_divisor by lia.
      fold q.
      unfold M_bind at 1. unfold M_lift at 1. rewrite div_positive_divisor by lia.
      unfold M_bind at 1. unfold M_lift at 1. rewrite rem_positive_divisor by lia.
      unfold M_bind at 1. unfold M_lift at 1. rewrite rem_positive_divisor by lia.
      fold c. rewrite token_offset_nonpos by lia.
      destruct (decide (q < 0)) as [Hq0|Hq0].
      * unfold M_bind, read, load. by destruct (Z.leb_spec 0 q); [lia|].
      * assert (q = 0) as -> by lia. unfold M_bind at 1. unfold read at 1.
        destruct (load inp 0) as [ix|]; [|done].
        unfold M_bind at 1. unfold read at 1.
        destruct (load wte _) as [x|]; [|done].
        change (Z.rem 0 T) with 0. change (Int32.mul 0 C) with (Int32.wrap (0 * C)).
        rewrite Z.mul_0_l. change (Int32.wrap 0) with 0.
        unfold M_bind, read, load. by destruct (Z.leb_spec 0 (0 + c)); [lia|].
Qed.

Lemma negative_idx_faults_witness :
  thread_idx 715827882 3 2 = 715827882 * 3 + 2 - 4294967296 ∧
  ∀ m : memory spec_float,
    encoder_forward_kernel1 f32_add ex_inp ex_wte ex_wpe 715827882 3 2 2 2 2 m = None ∧
    encoder_forward_kernel2 f32_add ex_inp ex_wte ex_wpe 715827882 3 2 2 2 2 m = None.
Proof.
  destruct (negative_idx_faults f32_add ex_inp ex_wte ex_wpe 2 2 2 715827882 3 2)
    as [H1 H2].
  split.
  - apply H1; lia.
  - apply H2; [lia|lia|lia|by vm_compute|by vm_compute].
Defined.

(** ** A launch that does not cover the workers *)

Section Prefix.

Context {F : Type}.
Variable fadd : F → F → F.
Variables (inp : list Z) (wte wpe : list F) (B T C V : Z).
Variables (out0 : list F) (log0 : list access).

Hypothesis Hdims : valid_dims B T C V.
Hypothesis Hshape : shaped out0 inp wte wpe B T C V.
Hypothesis Htok : tokens_in_range inp V.

(** A launch of the second kernel fills one element for each of its threads,
    up to the worker count. *)
Lemma launch2_fills_prefix (grid_size block_size : Z) :
  0 <= grid_size → 0 <= block_size → grid_size * block_size <= 2147483648 →
  triple (filled fadd inp wte wpe B T C V out0 log0 0 0)
    (launch grid_size block_size (λ blockIdx blockDim threadIdx,
       encoder_forward_kernel2 fadd inp wte wpe blockIdx blockDim threadIdx B T C))
    (λ _, filled fadd inp wte wpe B T C V out0 log0 0
            (Z.min (grid_size * block_size) (B * T * C))).
Proof using Hdims Hshape Htok.
  intros Hg Hb Hfit. destruct (worker_counts B T C V Hdims) as [_ EN].
  pose proof Hdims as (HB & HT & HC & HN & HV).
  eapply triple_weaken.
  - apply (triple_launch
             (λ idx, filled fadd inp wte wpe B T C V out0 log0 0 (Z.min idx (B * T * C))));
      [done|done|].
    intros blk thr Hblk Hthr. set (idx := blk * block_size + thr).
    assert (0 <= idx < grid_size * block_size) as Hidx by (subst idx; nia).
    assert (thread_idx blk block_size thr = idx) as Eidx.
    { apply thread_idx_exact; unfold Int32.INT_MAX; lia. }
    destruct (decide (idx < B * T * C)) as [Hlt|Hge].
    + rewrite !Z.min_l by lia.
      apply (kernel2_active fadd inp wte wpe B T C V out0 log0 Hdims Hshape Htok);
        [done|lia|lia].
    + rewrite !Z.min_r by lia. intros m Hm. exists (), m. split; [|done].
      apply kernel2_inactive. rewrite Eidx, EN. lia.
  - intros m Hm. by rewrite Z.min_l by nia.
  - auto.
Qed.

(** A launch of the first kernel fills one row for each of its threads, up
    to the worker count. *)
Lemma launch1_fills_prefix (grid_size block_size : Z) :
  0 <= grid_size → 0 <= block_size → grid_size * block_size <= 2147483648 →
  triple (filled fadd inp wte wpe B T C V out0 log0 0 0)
    (launch grid_size block_size (λ blockIdx blockDim threadIdx,
       encoder_forward_kernel1 fadd inp wte wpe blockIdx blockDim threadIdx B T C))
    (λ _, filled fadd inp wte wpe B T C V out0 log0 0
            (Z.min (grid_size * block_size) (B * T) * C)).
Proof using Hdims Hshape Htok.
  intros Hg Hb Hfit. destruct (worker_counts B T C V Hdims) as [EN _].
  pose proof Hdims as (HB & HT & HC & HN & HV).
  eapply triple_weaken.
  - apply (triple_launch
             (λ idx, filled fadd inp wte wpe B T C V out0 log0 0
                       (Z.min idx (B * T) * C))); [done|done|].
    intros blk thr Hblk Hthr. set (idx := blk * block_size + thr).
    assert (0 <= idx < grid_size * block_size) as Hidx by (subst idx; nia).
    assert (thread_idx blk block_size thr = idx) as Eidx.
    { apply thread_idx_exact; unfold Int32.INT_MAX; lia. }
    destruct (decide (idx < B * T)) as [Hlt|Hge].
    + rewrite !Z.min_l by lia.
      apply (kernel1_active fadd inp wte wpe B T C V out0 log0 Hdims Hshape Htok);
        [done|lia|nia].
    + rewrite !Z.min_r by lia. intros m Hm. exists (), m. split; [|done].
      apply kernel1_inactive. rewrite Eidx, EN. lia.
  - intros m Hm. by rewrite Z.min_l by nia.
  - auto.
Qed.

End Prefix.

(** X17: each thread does the work of one worker and no more. On valid
    inputs a launch of [grid_size * block_size] threads, whether or not it
    covers the worker count, does not fault and leaves the embedding in the
    first [min (grid_size * block_size, B*T)] rows of [out] for the first
    kernel, in the first [min (grid_size * block_size, B*T*C)] elements for
    the second, and every other element as it was. With fewer threads than
    workers the end of [out] is not computed: the number of blocks has to be
    rounded up, as lines 92 and 102 do. *)
Theorem launch_fills_prefix {F : Type} (fadd : F → F → F)
    (d_out : list F) (inp : list Z) (wte wpe : list F) (B T C V : Z)
    (grid_size block_size : Z) :
  valid_dims B T C V → shaped d_out inp wte wpe B T C V → tokens_in_range inp V →
  0 <= grid_size → 0 <= block_size → grid_size * block_size <= 2147483648 →
  (∃ out', run_out (launch grid_size block_size (λ blockIdx blockDim threadIdx,
             encoder_forward_kernel1 fadd inp wte wpe blockIdx blockDim threadIdx B T C))
             d_out = Some out' ∧
     length out' = length d_out ∧
     ∀ j, load out' j =
          if decide (0 <= j < Z.min (grid_size * block_size) (B * T) * C)
          then embedding_at fadd inp wte wpe T C j else load d_out j) ∧
  (∃ out', run_out (launch grid_size block_size (λ blockIdx blockDim threadIdx,
             encoder_forward_kernel2 fadd inp wte wpe blockIdx blockDim threadIdx B T C))
             d_out = Some out' ∧
     length out' = length d_out ∧
     ∀ j, load out' j =
          if decide (0 <= j < Z.min (grid_size * block_size) (B * T * C))
          then embedding_at fadd inp wte wpe T C j else load d_out j).
Proof.
  intros Hdims Hshape Htok Hg Hb Hfit. split.
  - destruct (run_out_triple _ _ _ d_out
                (launch1_fills_prefix fadd inp wte wpe B T C V d_out [] Hdims Hshape Htok
                   grid_size block_size Hg Hb Hfit)
                (filled_start _ _ _ _ _ _ _ _ _ [] 0))
      as ([] & m & _ & Erun & Hl & Hin & Hout & _).
    exists (m_out m). split; [done|]. split; [done|]. intros j.
    destruct (decide _); auto.
  - destruct (run_out_triple _ _ _ d_out
                (launch2_fills_prefix fadd inp wte wpe B T C V d_out [] Hdims Hshape Htok
                   grid_size block_size Hg Hb Hfit)
                (filled_start _ _ _ _ _ _ _ _ _ [] 0))
      as ([] & m & _ & Erun & Hl & Hin & Hout & _).
    exists (m_out m). split; [done|]. split; [done|]. intros j.
    destruct (decide _); auto.
Qed.

Lemma launch_fills_prefix_witness :
  (∃ out', run_out (launch 1 3 (λ blockIdx blockDim threadIdx,
             encoder_forward_kernel1 f32_add ex_inp ex_wte ex_wpe
               blockIdx blockDim threadIdx 2 2 2)) ex_d_out0 = Some out' ∧
     length out' = length ex_d_out0 ∧
     ∀ j, load out' j =
          if decide (0 <= j < Z.min (1 * 3) (2 * 2) * 2)
          then embedding_at f32_add ex_inp ex_wte ex_wpe 2 2 j else load ex_d_out0 j) ∧
  (∃ out', run_out (launch 1 3 (λ blockIdx blockDim threadIdx,
             encoder_forward_kernel2 f32_add ex_inp ex_wte ex_wpe
               blockIdx blockDim threadIdx 2 2 2)) ex_d_out0 = Some out' ∧
     length out' = length ex_d_out0 ∧
     ∀ j, load out' j =
          if decide (0 <= j < Z.min (1 * 3) (2 * 2 * 2))
          then embedding_at f32_add ex_inp ex_wte ex_wpe 2 2 j else load ex_d_out0 j).
Proof.
  apply (launch_fills_prefix f32_add ex_d_out0 ex_inp ex_wte ex_wpe 2 2 2 3 1 3
           ex_valid_dims ex_d_shaped ex_tokens); lia.
Defined.

(** ** The two kernels against each other *)

(** X18: on valid inputs the dispatcher returns the same buffer for selector
    1 and for selector 2, whatever block sizes the two calls use (each with
    its thread indices within [int]) and whatever the two device buffers
    held: the choice of the kernel changes the launch and not the output. *)
Theorem kernels_agree {F : Type} (fadd : F → F → F)
    (d_out1 d_out2 : list F) (inp : list Z) (wte wpe : list F) (B T C V : Z)
    (block_size1 block_size2 : Z) :
  valid_dims B T C V →
  shaped d_out1 inp wte wpe B T C V → shaped d_out2 inp wte wpe B T C V →
  tokens_in_range inp V →
  block_size_ok (B * T) block_size1 → block_size_ok (B * T * C) block_size2 →
  ∃ out',
    encoder_forward fadd 1 d_out1 inp wte wpe B T C block_size1
    = ([KernelLaunch 1 (ceil_div (B * T) block_size1) block_size1], Returned out') ∧
    encoder_forward fadd 2 d_out2 inp wte wpe B T C block_size2
    = ([KernelLaunch 2 (ceil_div (B * T * C) block_size2) block_size2], Returned out').
Proof.
  intros Hdims Hshape1 Hshape2 Htok Hbs1 Hbs2.
  destruct (encoder_forward1_returns fadd inp wte wpe B T C V d_out1
              Hdims Hshape1 Htok block_size1 Hbs1) as (m1 & Hm1 & E1).
  destruct (encoder_forward2_returns fadd inp wte wpe B T C V d_out2
              Hdims Hshape2 Htok block_size2 Hbs2) as (m2 & Hm2 & E2).
  exists (m_out m1). split; [done|].
  destruct Hshape1 as (Hl1 & _), Hshape2 as (Hl2 & _).
  by rewrite (filled_unique fadd inp wte wpe B T C V d_out1 d_out2 m1 m2).
Qed.

Lemma kernels_agree_witness :
  ∃ out',
    encoder_forward f32_add 1 ex_d_out0 ex_inp ex_wte ex_wpe 2 2 2 32
    = ([KernelLaunch 1 (ceil_div (2 * 2) 32) 32], Returned out') ∧
    encoder_forward f32_add 2 ex_out0 ex_inp ex_wte ex_wpe 2 2 2 1024
    = ([KernelLaunch 2 (ceil_div (2 * 2 * 2) 1024) 1024], Returned out').
Proof.
  apply (kernels_agree f32_add ex_d_out0 ex_out0 ex_inp ex_wte ex_wpe 2 2 2 3 32 1024
           ex_valid_dims ex_d_shaped ex_shaped ex_tokens).
  - split; [lia|]. by vm_compute.
  - split; [lia|]. by vm_compute.
Defined.
